(** * Boomerang tables of small S-boxes and higher-order derivatives of
      reduced-round Gimli

    A shallow embedding of the three C programs of the repository

    - [src/gimli boomerang/bdt.c]            (module [Bdt]),
    - [src/bct_present.c]                    (module [BctPresent]),
    - [src/higher_order_gimli/higher_order.c] (module [HigherOrder]),

    and the properties of their tables and derivatives.

    Conventions.  A C [int] or [uint32_t] is a [Z]; the wrap-around of
    32-bit unsigned shifts is written out with [wrap32].  An array is a
    [list]; an access outside the array is undefined behaviour in C and is
    [None] here, so every function that indexes an array lives in the
    [option] monad; so is an [int] sum that can leave the range of [int].
    Arrays that C passes by pointer and updates in place are
    passed in and returned.  Output is a trace of [printf] calls. *)

From Stdlib Require Import ZArith Lia.
From stdpp Require Import base option list numbers strings.

Local Open Scope Z_scope.

(** ** Arrays, loops and output *)

(** [a[i]] as an rvalue. *)
Definition rd {A} (a : list A) (i : Z) : option A :=
  if decide (0 ≤ i) then a !! Z.to_nat i else None.

(** [a[i] = v]. *)
Definition wr {A} (a : list A) (i : Z) (v : A) : option (list A) :=
  if decide (0 ≤ i < Z.of_nat (length a)) then Some (<[Z.to_nat i := v]> a)
  else None.

(** [t[i][j]] and [t[i][j] = v] on a two-dimensional array. *)
Definition rd2 {A} (t : list (list A)) (i j : Z) : option A :=
  row ← rd t i; rd row j.

Definition wr2 {A} (t : list (list A)) (i j : Z) (v : A)
  : option (list (list A)) :=
  row ← rd t i; row' ← wr row j v; wr t i row'.

(** [t[i][j][k]] and [t[i][j][k] = v] on a three-dimensional array. *)
Definition rd3 {A} (t : list (list (list A))) (i j k : Z) : option A :=
  plane ← rd t i; rd2 plane j k.

Definition wr3 {A} (t : list (list (list A))) (i j k : Z) (v : A)
  : option (list (list (list A))) :=
  plane ← rd t i; plane' ← wr2 plane j k v; wr t i plane'.

(** The body of a loop run once for each index of a list, threading the
    state the body updates. *)
Fixpoint iter {I S} (body : I → S → option S) (idx : list I) (s : S)
  : option S :=
  match idx with
  | [] => Some s
  | i :: idx' => s' ← body i s; iter body idx' s'
  end.

(** [for (int i = lo; i < hi; i++) body]. *)
Definition for_up {S} (lo hi : Z) (body : Z → S → option S) (s : S)
  : option S :=
  iter body (seqZ lo (hi - lo)) s.

(** [for (int i = hi; i >= lo; i--) body]. *)
Definition for_down {S} (hi lo : Z) (body : Z → S → option S) (s : S)
  : option S :=
  iter body (reverse (seqZ lo (hi - lo + 1))) s.

(** [a + b] on [int]s: a sum outside the range of a 32-bit [int] is
    undefined behaviour in C and is [None] here. *)
Definition int_add (a b : Z) : option Z :=
  if decide (- 2 ^ 31 ≤ a + b < 2 ^ 31) then Some (a + b) else None.

(** One call of [printf]: the format string as the source writes it (escape
    sequences not expanded) and the integer arguments. *)
Inductive event : Type :=
  | Printf (fmt : string) (args : list Z).

Definition printf (fmt : string) (args : list Z) (out : list event)
  : list event :=
  out ++ [Printf fmt args].

(** ** The loops shared by the two boomerang tools

    [compute_bct] of [bdt.c] and of [bct_present.c] and [compute_bdt] of
    [bdt.c] run the same innermost loop; the table loops differ in the
    literal bound only ([8] or [16]), which is [N] here. *)

Section Boomerang.
Variable N : Z.
Variables sbox inv_sbox : list Z.

(** The body of the loop on [x]:
    [int y1 = inv_sbox[sbox[x] ^ nabla];]
    [int y2 = inv_sbox[sbox[x ^ din] ^ nabla];]
    [if ((y1 ^ y2) == dout) count++;]
    No [int] operation here can overflow: [^] never does and [count] is
    at most the number of iterations. *)
Definition count_step (din nabla dout : Z) (x count : Z) : option Z :=
  s1 ← rd sbox x;
  y1 ← rd inv_sbox (Z.lxor s1 nabla);
  s2 ← rd sbox (Z.lxor x din);
  y2 ← rd inv_sbox (Z.lxor s2 nabla);
  Some (if decide (Z.lxor y1 y2 = dout) then count + 1 else count).

(** [int count = 0; for (int x = 0; x < N; x++) { ... }] *)
Definition count_loop (din nabla dout : Z) : option Z :=
  for_up 0 N (count_step din nabla dout) 0.

(** The loops on [a] and [b] of [compute_bct], ending in
    [bct[a][b] = count;]. *)
Definition bct_loops (bct : list (list Z)) : option (list (list Z)) :=
  for_up 0 N (λ a bct,
    for_up 0 N (λ b bct,
      count ← count_loop a b a;
      wr2 bct a b count) bct) bct.

(** The loops on [d0], [d1] and [nabla0] of [compute_bdt], ending in
    [bdt[d0][d1][nabla0] = count;]. *)
Definition bdt_loops (bdt : list (list (list Z)))
  : option (list (list (list Z))) :=
  for_up 0 N (λ d0 bdt,
    for_up 0 N (λ d1 bdt,
      for_up 0 N (λ nabla0 bdt,
        count ← count_loop d0 nabla0 d1;
        wr3 bdt d0 d1 nabla0 count) bdt) bdt) bdt.
End Boomerang.

(** ** [src/gimli boomerang/bdt.c] *)

Module Bdt.

Definition SBOX_SIZE : Z := 8.

Definition SBOX : list Z := [7; 4; 6; 1; 0; 5; 2; 3].
Definition INV_SBOX : list Z := [4; 3; 6; 7; 1; 5; 2; 0].

(** [void compute_bct(int sbox[], int inv_sbox[], int bct[8][8])] *)
Definition compute_bct (sbox inv_sbox : list Z) (bct : list (list Z))
  : option (list (list Z)) :=
  bct_loops 8 sbox inv_sbox bct.

(** [void compute_bdt(int sbox[], int inv_sbox[], int bdt[8][8][8])] *)
Definition compute_bdt (sbox inv_sbox : list Z) (bdt : list (list (list Z)))
  : option (list (list (list Z))) :=
  bdt_loops 8 sbox inv_sbox bdt.

(** The call [compute_bct(sbox, inv_sbox, bct);] as a step of a program
    that has a standard output, in the signature of the [compute_bct] of
    [bct_present.c]: the body of the function in [bdt.c] ends with the table
    loops and calls no output function. *)
Definition compute_bct_call (sbox inv_sbox : list Z) (bct : list (list Z))
    (out : list event) : option (list (list Z) * list event) :=
  bct ← compute_bct sbox inv_sbox bct; Some (bct, out).

(** [void print_bct(int bct[8][8])] *)
Definition print_bct (bct : list (list Z)) (out : list event)
  : option (list event) :=
  let out := printf "\n==============================\n" [] out in
  let out := printf "Boomerang Connectivity Table (BCT)\n" [] out in
  let out := printf "==============================\n\n" [] out in
  let out := printf "    " [] out in
  out ← for_up 0 8 (λ j out, Some (printf "%2X " [j] out)) out;
  let out :=
    printf "\n------------------------------------------------------\n" []
      out in
  for_up 0 8 (λ i out,
    let out := printf "%2X | " [i] out in
    out ← for_up 0 8 (λ j out,
             v ← rd2 bct i j; Some (printf "%2d " [v] out)) out;
    Some (printf "\n" [] out)) out.

(** [void print_bdt(int bdt[8][8][8])] *)
Definition print_bdt (bdt : list (list (list Z))) (out : list event)
  : option (list event) :=
  let out := printf "\n==============================\n" [] out in
  let out := printf "Boomerang Difference Table (BDT)\n" [] out in
  let out := printf "==============================\n" [] out in
  for_up 0 8 (λ d0 out,
    let out := printf "\n-- For Δ0 = %X --\n" [d0] out in
    let out := printf "    " [] out in
    out ← for_up 0 8 (λ nabla0 out, Some (printf "%2X " [nabla0] out)) out;
    let out :=
      printf "\n------------------------------------------------------\n" []
        out in
    for_up 0 8 (λ d1 out,
      let out := printf "%2X | " [d1] out in
      out ← for_up 0 8 (λ nabla0 out,
               v ← rd3 bdt d0 d1 nabla0; Some (printf "%2d " [v] out)) out;
      Some (printf "\n" [] out)) out) out.

(** The state of the verification loops of [main]. *)
Record check_state : Type := CheckState {
  all_ok : Z;
  valid_count : Z;
  check_out : list event
}.

(** [int sum = 0; for (int d1 = 0; d1 < 8; d1++) sum += bdt[d0][d1][nabla0];]
    The cells are what the caller's table holds, so the [int] sum can
    overflow. *)
Definition sum_d1 (bdt : list (list (list Z))) (d0 nabla0 : Z) : option Z :=
  for_up 0 8 (λ d1 sum, v ← rd3 bdt d0 d1 nabla0; int_add sum v) 0.

(** The part of [main] under the comment [// Verify property], from
    [int all_ok = 1;] to the end of the loops on [d0] and [nabla0].
    [valid_count++] runs at most 64 times from 0 and cannot overflow. *)
Definition verify (bct : list (list Z)) (bdt : list (list (list Z)))
    (out : list event) : option check_state :=
  for_up 0 8 (λ d0 st,
    for_up 0 8 (λ nabla0 st,
      sum ← sum_d1 bdt d0 nabla0;
      c ← rd2 bct d0 nabla0;
      if decide (sum = c) then
        Some (CheckState (all_ok st) (valid_count st + 1)
                (printf "✔ Valid: Δ0=%X, ∇0=%X  (Sum=%d, BCT=%d)\n"
                   [d0; nabla0; sum; c] (check_out st)))
      else
        Some (CheckState 0 (valid_count st)
                (printf "✖ Mismatch: Δ0=%X, ∇0=%X  (Sum=%d, BCT=%d)\n"
                   [d0; nabla0; sum; c] (check_out st)))) st)
    (CheckState 1 0 out).

(** [int main()].  The local arrays [bct] and [bdt] are not initialised:
    what they hold at first is the parameters [bct0] and [bdt0].  The result
    is the value returned and the output. *)
Definition main (bct0 : list (list Z)) (bdt0 : list (list (list Z)))
    (out : list event) : option (Z * list event) :=
  bct ← compute_bct SBOX INV_SBOX bct0;
  bdt ← compute_bdt SBOX INV_SBOX bdt0;
  out ← print_bct bct out;
  out ← print_bdt bdt out;
  let out := printf "\n==============================\n" [] out in
  let out := printf "Verification: BCT(Δ0,∇0) = ΣΔ1 BDT(Δ0,Δ1,∇0)\n" [] out in
  let out := printf "==============================\n" [] out in
  st ← verify bct bdt out;
  let out :=
    printf "\nTotal valid entries: %d / 64\n" [valid_count st]
      (check_out st) in
  let out :=
    if decide (all_ok st ≠ 0) then
      printf "\n All entries verified successfully!\n" [] out
    else
      printf "\nMismatch found but\n%d valid Entries Found.\n"
        [valid_count st] out in
  Some (0, out).

End Bdt.

(** ** [src/bct_present.c] *)

Module BctPresent.

Definition SBOX_SIZE : Z := 16.

Definition SBOX : list Z :=
  [12; 5; 6; 11; 9; 0; 10; 13; 3; 14; 15; 8; 4; 7; 1; 2].
Definition INV_SBOX : list Z :=
  [5; 14; 15; 8; 12; 1; 2; 13; 11; 4; 6; 3; 0; 7; 9; 10].

(** The second half of [compute_bct]: the table is printed. *)
Definition print_table (bct : list (list Z)) (out : list event)
  : option (list event) :=
  let out := printf "  " [] out in
  out ← for_up 0 16 (λ b out, Some (printf "%2x " [b] out)) out;
  let out :=
    printf "\n------------------------------------------------------------\n"
      [] out in
  for_up 0 16 (λ a out,
    let out := printf "%2x | " [a] out in
    out ← for_up 0 16 (λ b out,
             v ← rd2 bct a b; Some (printf "%2d " [v] out)) out;
    Some (printf "\n" [] out)) out.

(** [void compute_bct(int sbox[], int inv_sbox[], int bct[16][16])]: the
    table loops, then the printing loops. *)
Definition compute_bct (sbox inv_sbox : list Z) (bct : list (list Z))
    (out : list event) : option (list (list Z) * list event) :=
  bct ← bct_loops 16 sbox inv_sbox bct;
  out ← print_table bct out;
  Some (bct, out).

(** [int main()]; [bct0] is what the local array holds at first. *)
Definition main (bct0 : list (list Z)) (out : list event)
  : option (Z * list event) :=
  r ← compute_bct SBOX INV_SBOX bct0 out;
  Some (0, r.2).

End BctPresent.

(** ** [src/higher_order_gimli/higher_order.c] *)

Module HigherOrder.

(** A [uint32_t] is a [Z] in [[0, 2^32)]. *)
Definition wrap32 (v : Z) : Z := v mod 2 ^ 32.

(** [x << n] and [x >> n] on [uint32_t], for [0 <= n < 32]. *)
Definition shl32 (x n : Z) : Z := wrap32 (x ≪ n).
Definition shr32 (x n : Z) : Z := x ≫ n.

(** [#define ROTL32(x,b) (((x)<<(b)) | ((x)>>(32-(b))))] *)
Definition ROTL32 (x b : Z) : Z := Z.lor (shl32 x b) (shr32 x (32 - b)).

(** [1 << n] on [int]: undefined unless the result is representable. *)
Definition shl_int (x n : Z) : option Z :=
  if decide (0 ≤ n < 32 ∧ 0 ≤ x ∧ x ≪ n < 2 ^ 31) then Some (x ≪ n)
  else None.

(** The body of the loop on [col] in [gimli_permutation]. *)
Definition column (col : Z) (state : list Z) : option (list Z) :=
  s0 ← rd state col;
  let x := ROTL32 s0 24 in
  s1 ← rd state (col + 4);
  let y := ROTL32 s1 9 in
  z ← rd state (col + 8);
  state ← wr state (col + 8)
            (Z.lxor (Z.lxor x (shl32 z 1)) (shl32 (Z.land y z) 2));
  state ← wr state (col + 4) (Z.lxor (Z.lxor y x) (shl32 (Z.lor x z) 1));
  wr state col (Z.lxor (Z.lxor z y) (shl32 (Z.land x y) 3)).

(** [t = state[i]; state[i] = state[j]; state[j] = t;] *)
Definition exchange (i j : Z) (state : list Z) : option (list Z) :=
  t ← rd state i;
  v ← rd state j;
  state ← wr state i v;
  wr state j t.

(** The two conditional blocks that close a round. *)
Definition small_swap (round : Z) (state : list Z) : option (list Z) :=
  if decide (Z.land round 3 = 0) then
    state ← exchange 0 1 state;
    state ← exchange 2 3 state;
    v ← rd state 0;
    wr state 0 (Z.lxor v (Z.lxor 0x9e377900 round))
  else Some state.

Definition big_swap (round : Z) (state : list Z) : option (list Z) :=
  if decide (Z.land round 3 = 2) then
    state ← exchange 0 2 state;
    exchange 1 3 state
  else Some state.

(** [void gimli_permutation(uint32_t state[12])] *)
Definition gimli_permutation (state : list Z) : option (list Z) :=
  for_down 4 1 (λ round state,
    state ← for_up 0 4 column state;
    state ← small_swap round state;
    big_swap round state) state.

(** [void generate_bit_basis(uint32_t basis[32])] *)
Definition generate_bit_basis (basis : list Z) : option (list Z) :=
  for_up 0 32 (λ i basis, wr basis i (shl32 1 i)) basis.

(** [memcpy(dst, src, n * sizeof(uint32_t))] *)
Definition memcpy_words (dst src : list Z) (n : nat) : option (list Z) :=
  if decide (n ≤ length src ∧ n ≤ length dst)%nat
  then Some (take n src ++ drop n dst)
  else None.

(** [void apply_diff(uint32_t base[12], uint32_t temp[12], int order,
                     uint32_t basis[], uint32_t word_index, int subset)];
    the result is the array [temp]. *)
Definition apply_diff (base temp : list Z) (order : Z) (basis : list Z)
    (word_index : Z) (subset : Z) : option (list Z) :=
  temp ← memcpy_words temp base 12;
  for_up 0 order (λ i temp,
    m ← shl_int 1 i;
    if decide (Z.land subset m ≠ 0) then
      t ← rd temp word_index;
      b ← rd basis i;
      wr temp word_index (Z.lxor t b)
    else Some temp) temp.

(** [uint32_t compute_derivative(uint32_t base[12], uint32_t word_index,
                                 int order)].
    The local arrays [basis] and [temp] are not initialised: what they hold
    at first is the parameters [basis0] and [temp0]. *)
Definition compute_derivative (base : list Z) (word_index : Z) (order : Z)
    (basis0 temp0 : list Z) : option Z :=
  basis ← generate_bit_basis basis0;
  bound ← shl_int 1 order;
  r ← for_up 0 bound (λ subset (r : Z * list Z),
         temp ← apply_diff base r.2 order basis word_index subset;
         temp ← gimli_permutation temp;
         v ← rd temp word_index;
         Some (Z.lxor r.1 v, temp)) (0, temp0);
  Some r.1.

End HigherOrder.

(** ** What the tables are meant to hold *)

(** Indexing where the index is known to be in range. *)
Definition sel (a : list Z) (i : Z) : Z := a !!! Z.to_nat i.

Section TableSpec.
Variable N : Z.
Variables sbox inv_sbox : list Z.

(** [inv_sbox[sbox[x] ^ nabla] ^ inv_sbox[sbox[x ^ din] ^ nabla]], the
    difference with which the boomerang comes back. *)
Definition boomerang_return (din nabla x : Z) : Z :=
  Z.lxor (sel inv_sbox (Z.lxor (sel sbox x) nabla))
         (sel inv_sbox (Z.lxor (sel sbox (Z.lxor x din)) nabla)).

(** The [x] in [[0, N)] that come back with difference [dout], and their
    number. *)
Definition solutions (din nabla dout : Z) : list Z :=
  filter (λ x, boomerang_return din nabla x = dout) (seqZ 0 N).

Definition solution_count (din nabla dout : Z) : Z :=
  Z.of_nat (length (solutions din nabla dout)).

(** The arrays have [N] entries and every entry of [sbox] indexes
    [inv_sbox]: no access of the table loops leaves an array. *)
Definition well_formed : Prop :=
  length sbox = Z.to_nat N ∧ length inv_sbox = Z.to_nat N ∧
  Forall (λ v, 0 ≤ v < N) sbox.

(** [sbox[inv_sbox[v]] == v] and [inv_sbox[sbox[v]] == v] on [[0, N)]. *)
Definition mutual_inverses : Prop :=
  ∀ v, 0 ≤ v < N →
    (i ← rd inv_sbox v; rd sbox i) = Some v ∧
    (i ← rd sbox v; rd inv_sbox i) = Some v.
End TableSpec.

(** An [N]x[N] array and an [N]x[N]x[N] array. *)
Definition shape2 (N : Z) (t : list (list Z)) : Prop :=
  length t = Z.to_nat N ∧ Forall (λ row, length row = Z.to_nat N) t.

Definition shape3 (N : Z) (t : list (list (list Z))) : Prop :=
  length t = Z.to_nat N ∧ Forall (shape2 N) t.

(** ** What the permutation and the derivative are meant to be *)

Module GimliSpec.

(** Rotation of a 32-bit word to the left: the bits pushed out at the top
    come back at the bottom. *)
Definition rotl32 (x b : Z) : Z := (x * 2 ^ b) mod 2 ^ 32 + x / 2 ^ (32 - b).

(** [x << n] modulo [2^32]. *)
Definition shl (x n : Z) : Z := (x * 2 ^ n) mod 2 ^ 32.

(** The rewriting of the three words of column [col]. *)
Definition column (s : list Z) (col : nat) : list Z :=
  let x := rotl32 (s !!! col) 24 in
  let y := rotl32 (s !!! (col + 4)%nat) 9 in
  let z := s !!! (col + 8)%nat in
  <[col := Z.lxor (Z.lxor z y) (shl (Z.land x y) 3)]>
    (<[(col + 4)%nat := Z.lxor (Z.lxor y x) (shl (Z.lor x z) 1)]>
       (<[(col + 8)%nat := Z.lxor (Z.lxor x (shl z 1)) (shl (Z.land y z) 2)]>
          s)).

(** Words [i] and [j] change places. *)
Definition swap (i j : nat) (s : list Z) : list Z :=
  <[i := s !!! j]> (<[j := s !!! i]> s).

(** One round: the four columns, then the swaps the round number asks
    for. *)
Definition round (s : list Z) (r : Z) : list Z :=
  let s := foldl column s [0; 1; 2; 3]%nat in
  let s :=
    if decide (r mod 4 = 0) then
      let s := swap 2 3 (swap 0 1 s) in
      <[0%nat := Z.lxor (s !!! 0%nat) (Z.lxor 0x9e377900 r)]> s
    else s in
  if decide (r mod 4 = 2) then swap 1 3 (swap 0 2 s) else s.

(** The round counter runs from 4 down to 1. *)
Definition gimli (s : list Z) : list Z := foldl round s [4; 3; 2; 1].

End GimliSpec.

Module DerivativeSpec.

(** The masks [1<<0], ..., [1<<(order-1)]. *)
Definition masks (order : Z) : list Z := (λ i, 1 ≪ i) <$> seqZ 0 order.

(** All the subsets of a list of masks, each as a sublist. *)
Fixpoint subsets {A} (l : list A) : list (list A) :=
  match l with
  | [] => [[]]
  | m :: l' => subsets l' ++ (cons m <$> subsets l')
  end.

(** [base] with the masks of [S] XORed into word [w], the other words
    unchanged. *)
Definition perturb (base : list Z) (w : Z) (S : list Z) : list Z :=
  <[Z.to_nat w := foldl Z.lxor (sel base w) S]> base.

(** Word [w] of [gimli_permutation(state)]. *)
Definition output_word (state : list Z) (w : Z) : option Z :=
  state' ← HigherOrder.gimli_permutation state; rd state' w.

Definition xor_all (l : list Z) : Z := foldr Z.lxor 0 l.

(** The XOR, over all subsets of the masks, of the output word of the
    perturbed state. *)
Definition derivative (base : list Z) (w order : Z) : option Z :=
  outs ← mapM (λ S, output_word (perturb base w S) w) (subsets (masks order));
  Some (xor_all outs).

End DerivativeSpec.

(** The [N]x[N] array with [f a b] in cell [(a, b)], and the [N]x[N]x[N]
    array with [f a b c] in cell [(a, b, c)]. *)
Definition table2 (N : Z) (f : Z → Z → Z) : list (list Z) :=
  (λ a, f a <$> seqZ 0 N) <$> seqZ 0 N.

Definition table3 (N : Z) (f : Z → Z → Z → Z) : list (list (list Z)) :=
  (λ a, table2 N (f a)) <$> seqZ 0 N.

(** A printing function only appends to the output: what it appends does
    not depend on what was printed before. *)
Definition prefix_stable (f : list event → option (list event)) : Prop :=
  ∀ out x, f (out ++ x) = (out ++.) <$> f x.

(** A state of the permutation: 12 words of 32 bits. *)
Definition word_state (s : list Z) : Prop :=
  length s = 12%nat ∧ Forall (λ w, 0 ≤ w < 2 ^ 32) s.

(** The masks that the bits of [subset] select among the first [order]
    ones, in the order in which [apply_diff] goes through them. *)
Definition chosen (order subset : Z) : list Z :=
  filter (λ m, Z.land subset m ≠ 0) (DerivativeSpec.masks order).

(** ** Further notions for the properties of the remaining code *)

(** The cells of a table where the indices are known to be in range. *)
Definition cell2 (t : list (list Z)) (a b : Z) : Z := default 0 (rd2 t a b).

Definition cell3 (t : list (list (list Z))) (a b c : Z) : Z :=
  default 0 (rd3 t a b c).

(** The sum of [h d] over the [d] of a list. *)
Definition sumZ {A} (h : A → Z) (l : list A) : Z :=
  foldr (λ d acc, h d + acc) 0 l.

(** The number of [x] in [[0, N)] whose boomerang comes back with a
    difference in [[0, N)]. *)
Definition returns_in_range (N : Z) (sbox inv_sbox : list Z)
    (din nabla : Z) : Z :=
  Z.of_nat (length (filter
    (λ x, 0 ≤ boomerang_return sbox inv_sbox din nabla x < N) (seqZ 0 N))).

(** The pairs [(d0, nabla0)] of [[0,8)x[0,8)], in the order of the loops of
    [main], and those at which the sum over [d1] of [bdt] equals [bct]. *)
Definition pairs8 : list (Z * Z) := d0 ← seqZ 0 8; pair d0 <$> seqZ 0 8.

Definition sum_over_d1 (bdt : list (list (list Z))) (d0 nabla0 : Z) : Z :=
  sumZ (λ d1, cell3 bdt d0 d1 nabla0) (seqZ 0 8).

Definition matching_pairs (bct : list (list Z)) (bdt : list (list (list Z)))
  : list (Z * Z) :=
  filter (λ p, sum_over_d1 bdt p.1 p.2 = cell2 bct p.1 p.2) pairs8.

(** All the cells of a three-dimensional table lie in [[lo, hi)]. *)
Definition cells_in (lo hi : Z) (t : list (list (list Z))) : Prop :=
  Forall (Forall (Forall (λ v, lo ≤ v < hi))) t.

(** The values that the [printf("%2d ", ...)] calls of an output print, in
    order. *)
Definition printed_cells (out : list event) : list Z :=
  e ← out; match e with
           | Printf fmt args => if decide (fmt = "%2d ") then args else []
           end.

(** [base] with [m] XORed into word [w], the other words unchanged. *)
Definition shifted (base : list Z) (w m : Z) : list Z :=
  <[Z.to_nat w := Z.lxor (sel base w) m]> base.

(** The state of the check of [main] had [out] been printed before. *)
Definition after_output (out : list event) (st : Bdt.check_state)
  : Bdt.check_state :=
  Bdt.CheckState (Bdt.all_ok st) (Bdt.valid_count st) (out ++ Bdt.check_out st).

(** ** The rest of [src/higher_order_gimli/higher_order.c] *)

Module HigherOrderMain.

(** The file uses the macro [PRIX32] of [<inttypes.h>], which it does not
    include: the macro's text is a parameter here. *)
Section WithPRIX32.
Variable PRIX32 : string.

(** [void print_state_hex(uint32_t state[12])] *)
Definition print_state_hex (state : list Z) (out : list event)
  : option (list event) :=
  out ← for_up 0 12 (λ i out,
           v ← rd state i;
           Some (printf ("%08" +:+ PRIX32 +:+ " ") [v] out)) out;
  Some (printf "\n" [] out).

(** What [main] prints, with [state = {1,0,0,0, 0,0,0,0, 0,0,0,0}]; the loop
    [for (order = 1; order <= 4; order++)] is the loop on [1 <= order < 5].
    Each call of [compute_derivative] has its own uninitialised local
    arrays: [locals w order] is what they hold at first in the call for
    word [w] and order [order]. *)
Definition main_output (locals : Z → Z → list Z * list Z) (out : list event)
  : option (list event) :=
  let state := [1; 0; 0; 0; 0; 0; 0; 0; 0; 0; 0; 0] in
  let out := printf "Initial state:\n" [] out in
  out ← print_state_hex state out;
  let out :=
    printf "\n=== Higher-Order Derivatives (1st to 4th order) ===\n" [] out in
  for_up 0 12 (λ w out,
    let out := printf "\n--- Word %d ---\n" [w] out in
    for_up 1 5 (λ order out,
      d ← HigherOrder.compute_derivative state w order
             (locals w order).1 (locals w order).2;
      Some (printf "%d-order derivative: 0x%08X\n" [order; d] out))
      out) out.

(** [int main()]: the output, and [return 0;]. *)
Definition main (locals : Z → Z → list Z * list Z) (out : list event)
  : option (Z * list event) :=
  out ← main_output locals out; Some (0, out).

End WithPRIX32.

(** Local arrays of the declared sizes. *)
Definition locals_sized (locals : Z → Z → list Z * list Z) : Prop :=
  ∀ w order, length (locals w order).1 = 32%nat ∧
             length (locals w order).2 = 12%nat.

End HigherOrderMain.

(** * Properties *)

(** ** Arrays *)

Lemma rd_lookup {A} (a : list A) (i : nat) : rd a (Z.of_nat i) = a !! i.
Proof. unfold rd. case_decide; [by rewrite Nat2Z.id | lia]. Qed.

Lemma rd_Some_lt {A} (a : list A) (i : Z) (v : A) :
  rd a i = Some v → 0 ≤ i < Z.of_nat (length a).
Proof.
  unfold rd. case_decide; [|done]. intros Hv.
  apply lookup_lt_Some in Hv. lia.
Qed.

Lemma rd_sel (a : list Z) (i : Z) :
  0 ≤ i < Z.of_nat (length a) → rd a i = Some (sel a i).
Proof.
  intros Hi. unfold rd, sel. case_decide; [|lia].
  apply list_lookup_lookup_total_lt. lia.
Qed.

Lemma rd_is_Some {A} (a : list A) (i : Z) :
  0 ≤ i < Z.of_nat (length a) → ∃ v, rd a i = Some v.
Proof.
  intros Hi. unfold rd. case_decide; [|lia].
  apply lookup_lt_is_Some. lia.
Qed.

(** A store succeeds inside the array, keeps its length, is read back, and
    leaves the other cells alone. *)
Lemma wr_spec {A} (a : list A) (i : Z) (v : A) :
  0 ≤ i < Z.of_nat (length a) →
  ∃ a', wr a i v = Some a' ∧ length a' = length a ∧ rd a' i = Some v ∧
        ∀ j, j ≠ i → rd a' j = rd a j.
Proof.
  intros Hi. exists (<[Z.to_nat i := v]> a). unfold wr, rd.
  repeat split.
  - by case_decide.
  - apply length_insert.
  - case_decide; [|lia]. apply list_lookup_insert_eq. lia.
  - intros j Hj. case_decide; [|done].
    apply list_lookup_insert_ne. lia.
Qed.

Lemma wr_insert {A} (a : list A) (i : Z) (v : A) :
  0 ≤ i < Z.of_nat (length a) → wr a i v = Some (<[Z.to_nat i := v]> a).
Proof. intros Hi. unfold wr. by case_decide. Qed.

Lemma shape2_row N t a row :
  shape2 N t → rd t a = Some row → length row = Z.to_nat N.
Proof.
  intros [_ Hrows] Hrow. unfold rd in Hrow. case_decide; [|done].
  by eapply (proj1 (Forall_lookup _ _) Hrows).
Qed.

Lemma shape3_plane N t a plane :
  shape3 N t → rd t a = Some plane → shape2 N plane.
Proof.
  intros [_ Hp] Hrd. unfold rd in Hrd. case_decide; [|done].
  by eapply (proj1 (Forall_lookup _ _) Hp).
Qed.

Lemma shape_wr {A} (P : A → Prop) (n : nat) (t t' : list A) i v :
  length t = n → Forall P t → P v → wr t i v = Some t' →
  length t' = n ∧ Forall P t'.
Proof.
  unfold wr. intros Hlen Hall Hv Hwr. case_decide; [|done].
  injection Hwr as <-. split.
  - by rewrite length_insert.
  - by apply Forall_insert.
Qed.

(** [t[a][b] = v] on an [N]x[N] array. *)
Lemma wr2_spec N (t : list (list Z)) a b v :
  shape2 N t → 0 ≤ a < N → 0 ≤ b < N →
  ∃ t', wr2 t a b v = Some t' ∧ shape2 N t' ∧ rd2 t' a b = Some v ∧
        ∀ a' b', (a', b') ≠ (a, b) → rd2 t' a' b' = rd2 t a' b'.
Proof.
  intros Ht Ha Hb. pose proof Ht as [Hlen Hrows].
  destruct (rd_is_Some t a) as [row Hrow]; [lia|].
  pose proof (shape2_row _ _ _ _ Ht Hrow) as Hrl.
  destruct (wr_spec row b v) as (row' & Hw & Hl' & Hget & Hframe); [lia|].
  destruct (wr_spec t a row') as (t' & Hw' & Hlt' & Hget' & Hframe'); [lia|].
  exists t'. unfold wr2, rd2. rewrite Hrow. simpl. rewrite Hw. simpl.
  split; [done|]. split.
  { eapply shape_wr; [done|done| |done]. simpl. congruence. }
  split; [by rewrite Hget'|].
  intros a' b' Hne. destruct (decide (a' = a)) as [->|Ha'].
  - rewrite Hget', Hrow. simpl. apply Hframe. congruence.
  - by rewrite Hframe'.
Qed.

(** [t[a][b][c] = v] on an [N]x[N]x[N] array. *)
Lemma wr3_spec N (t : list (list (list Z))) a b c v :
  shape3 N t → 0 ≤ a < N → 0 ≤ b < N → 0 ≤ c < N →
  ∃ t', wr3 t a b c v = Some t' ∧ shape3 N t' ∧ rd3 t' a b c = Some v ∧
        ∀ a' b' c', (a', b', c') ≠ (a, b, c) →
                    rd3 t' a' b' c' = rd3 t a' b' c'.
Proof.
  intros Ht Ha Hb Hc. pose proof Ht as [Hlen Hplanes].
  destruct (rd_is_Some t a) as [plane Hplane]; [lia|].
  pose proof (shape3_plane _ _ _ _ Ht Hplane) as Hps.
  destruct (wr2_spec N plane b c v) as (plane' & Hw & Hs' & Hget & Hframe);
    [done..|].
  destruct (wr_spec t a plane') as (t' & Hw' & Hlt' & Hget' & Hframe'); [lia|].
  exists t'. unfold wr3, rd3. rewrite Hplane. simpl. rewrite Hw. simpl.
  split; [done|]. split.
  { by eapply shape_wr. }
  split; [by rewrite Hget'|].
  intros a' b' c' Hne. destruct (decide (a' = a)) as [->|Ha'].
  - rewrite Hget', Hplane. simpl. apply Hframe. congruence.
  - by rewrite Hframe'.
Qed.

(** Two arrays of the same length with the same cells are the same. *)
Lemma array_ext {A} (n : nat) (t u : list A) :
  length t = n → length u = n →
  (∀ i, 0 ≤ i < Z.of_nat n → rd t i = rd u i) → t = u.
Proof.
  intros Ht Hu Hcells. apply (list_eq_same_length _ _ n); [done..|].
  intros i x y Hi Hx Hy.
  specialize (Hcells (Z.of_nat i) ltac:(lia)). rewrite !rd_lookup in Hcells.
  congruence.
Qed.

Lemma rd_fmap_seqZ {A} (f : Z → A) (n i : Z) :
  0 ≤ i < n → rd (f <$> seqZ 0 n) i = Some (f i).
Proof.
  intros Hi. unfold rd. case_decide; [|lia].
  rewrite list_lookup_fmap, lookup_seqZ_lt by lia.
  simpl. f_equal. f_equal. lia.
Qed.

(** ** Loops *)

Lemma iter_app {I S} (body : I → S → option S) (l k : list I) (s : S) :
  iter body (l ++ k) s = iter body l s ≫= iter body k.
Proof.
  revert s. induction l as [|i l IH]; intros s; simpl; [done|].
  destruct (body i s) as [s'|]; simpl; [apply IH | done].
Qed.

Lemma iter_fmap {I J S} (f : J → I) (body : I → S → option S) l (s : S) :
  iter body (f <$> l) s = iter (λ j, body (f j)) l s.
Proof.
  revert s. induction l as [|j l IH]; intros s; simpl; [done|].
  destruct (body (f j) s); simpl; [apply IH | done].
Qed.

(** Two nested loops run their body on the pairs of indices, row by row. *)
Lemma iter_nest {I J S} (body : I * J → S → option S) (l : list I)
    (k : list J) (s : S) :
  iter (λ i s, iter (λ j, body (i, j)) k s) l s
  = iter body (i ← l; pair i <$> k) s.
Proof.
  revert s. induction l as [|i l IH]; intros s; simpl; [done|].
  rewrite iter_app, iter_fmap.
  destruct (iter _ k s); simpl; [apply IH | done].
Qed.

Lemma iter_ext {I S} (body body' : I → S → option S) (l : list I) (s : S) :
  (∀ i s, i ∈ l → body i s = body' i s) → iter body l s = iter body' l s.
Proof.
  revert s. induction l as [|i l IH]; intros s Heq; simpl; [done|].
  rewrite Heq by apply list_elem_of_here.
  destruct (body' i s); simpl; [|done].
  apply IH. intros j s' Hj. apply Heq. by apply list_elem_of_further.
Qed.

(** A loop whose step at key [k] stores [val k] in cell [k] of a
    well-shaped table and leaves the other cells alone runs to the end and
    leaves [val k] in the cell of every key it went through. *)
Lemma iter_fill {K T V} `{EqDecision K} (ok : T → Prop)
    (get : T → K → option V) (val : K → V) (step : K → T → option T)
    (keys : list K) :
  (∀ k t, k ∈ keys → ok t →
     ∃ t', step k t = Some t' ∧ ok t' ∧ get t' k = Some (val k) ∧
           ∀ k', k' ≠ k → get t' k' = get t k') →
  ∀ t, ok t →
    ∃ t', iter step keys t = Some t' ∧ ok t' ∧
          (∀ k, k ∈ keys → get t' k = Some (val k)) ∧
          (∀ k, k ∉ keys → get t' k = get t k).
Proof.
  induction keys as [|k keys IH]; intros Hstep t Hok; simpl.
  { exists t. split; [done|]. split; [done|]. split; [|done].
    intros k Hk. by inversion Hk. }
  destruct (Hstep k t) as (t1 & -> & Hok1 & Hget1 & Hframe1);
    [apply list_elem_of_here | done |].
  simpl.
  destruct (IH (λ k' t' Hk', Hstep k' t' (list_elem_of_further _ _ _ Hk')) t1 Hok1)
    as (t' & Hrun & Hok' & Hset & Hframe).
  exists t'. split; [done|]. split; [done|]. split.
  - intros k' Hk'. destruct (decide (k' ∈ keys)) as [Hin|Hout]; [by apply Hset|].
    apply elem_of_cons in Hk' as [->|?]; [|done].
    by rewrite Hframe.
  - intros k' Hk'. apply not_elem_of_cons in Hk' as [Hne Hout].
    rewrite Hframe by done. by apply Hframe1.
Qed.

Lemma table2_ext N (f : Z → Z → Z) (t : list (list Z)) :
  shape2 N t →
  (∀ a b, 0 ≤ a < N → 0 ≤ b < N → rd2 t a b = Some (f a b)) →
  t = table2 N f.
Proof.
  intros Ht Hcells. pose proof Ht as [Hlen _].
  apply (array_ext (Z.to_nat N)); [done| |].
  { unfold table2. by rewrite length_fmap, length_seqZ. }
  intros a Ha. unfold table2 at 1. rewrite rd_fmap_seqZ by lia.
  destruct (rd_is_Some t a) as [row Hrow]; [lia|]. rewrite Hrow. f_equal.
  apply (array_ext (Z.to_nat N)).
  - by eapply shape2_row.
  - by rewrite length_fmap, length_seqZ.
  - intros b Hb. rewrite rd_fmap_seqZ by lia.
    specialize (Hcells a b ltac:(lia) ltac:(lia)).
    unfold rd2 in Hcells. by rewrite Hrow in Hcells.
Qed.

Lemma shape2_table2 N f : shape2 N (table2 N f).
Proof.
  split.
  - unfold table2. by rewrite length_fmap, length_seqZ.
  - apply Forall_fmap, Forall_forall. intros a _. simpl.
    by rewrite length_fmap, length_seqZ.
Qed.

Lemma rd2_table2 N f a b :
  0 ≤ a < N → 0 ≤ b < N → rd2 (table2 N f) a b = Some (f a b).
Proof.
  intros Ha Hb. unfold rd2, table2. rewrite rd_fmap_seqZ by done. simpl.
  by rewrite rd_fmap_seqZ.
Qed.

Lemma table3_ext N (f : Z → Z → Z → Z) (t : list (list (list Z))) :
  shape3 N t →
  (∀ a b c, 0 ≤ a < N → 0 ≤ b < N → 0 ≤ c < N →
            rd3 t a b c = Some (f a b c)) →
  t = table3 N f.
Proof.
  intros Ht Hcells. pose proof Ht as [Hlen _].
  apply (array_ext (Z.to_nat N)); [done| |].
  { unfold table3. by rewrite length_fmap, length_seqZ. }
  intros a Ha. unfold table3. rewrite rd_fmap_seqZ by lia.
  destruct (rd_is_Some t a) as [plane Hplane]; [lia|]. rewrite Hplane. f_equal.
  apply table2_ext; [by eapply shape3_plane|].
  intros b c Hb Hc. specialize (Hcells a b c ltac:(lia) Hb Hc).
  unfold rd3 in Hcells. by rewrite Hplane in Hcells.
Qed.

Lemma rd3_table3 N f a b c :
  0 ≤ a < N → 0 ≤ b < N → 0 ≤ c < N →
  rd3 (table3 N f) a b c = Some (f a b c).
Proof.
  intros Ha Hb Hc. unfold rd3, table3. rewrite rd_fmap_seqZ by done. simpl.
  by apply rd2_table2.
Qed.

(** ** Bits *)

Lemma lxor_below_pow2 k x y :
  0 ≤ k → 0 ≤ x < 2 ^ k → 0 ≤ y < 2 ^ k → 0 ≤ Z.lxor x y < 2 ^ k.
Proof.
  intros Hk Hx Hy.
  assert (0 ≤ Z.lxor x y) by (apply Z.lxor_nonneg; lia).
  apply Z.bounded_iff_bits_nonneg'; [done..|].
  intros l Hl. rewrite Z.lxor_spec.
  rewrite (proj1 (Z.bounded_iff_bits_nonneg' k x Hk ltac:(lia)) Hx l Hl).
  by rewrite (proj1 (Z.bounded_iff_bits_nonneg' k y Hk ltac:(lia)) Hy l Hl).
Qed.

Lemma lxor_involutive x a : Z.lxor (Z.lxor x a) a = x.
Proof. by rewrite Z.lxor_assoc, Z.lxor_nilpotent, Z.lxor_0_r. Qed.

(** ** The counting loop and the table loops *)

Section TableLoops.
Variables (k N : Z) (sbox inv_sbox : list Z).
Hypothesis Hk : 0 ≤ k.
Hypothesis HN : N = 2 ^ k.
Hypothesis Hwf : well_formed N sbox inv_sbox.

Lemma N_nonneg : 0 ≤ N.
Proof. subst N. by apply Z.pow_nonneg. Qed.

Lemma lxor_below_N x y : 0 ≤ x < N → 0 ≤ y < N → 0 ≤ Z.lxor x y < N.
Proof. subst N. by apply lxor_below_pow2. Qed.

Lemma sbox_entry x : 0 ≤ x < N → rd sbox x = Some (sel sbox x) ∧ 0 ≤ sel sbox x < N.
Proof.
  intros Hx. destruct Hwf as (Hls & _ & Hall).
  assert (rd sbox x = Some (sel sbox x)) as Hrd by (apply rd_sel; lia).
  split; [done|].
  unfold rd in Hrd. case_decide; [|done].
  by eapply (proj1 (Forall_lookup _ _) Hall).
Qed.

Lemma inv_sbox_entry x : 0 ≤ x < N → rd inv_sbox x = Some (sel inv_sbox x).
Proof. intros Hx. destruct Hwf as (_ & Hli & _). apply rd_sel. lia. Qed.

(** One turn of the loop on [x] adds one exactly when [x] comes back with
    difference [dout]. *)
Lemma count_step_spec din nabla dout x c :
  0 ≤ din < N → 0 ≤ nabla < N → 0 ≤ x < N →
  count_step sbox inv_sbox din nabla dout x c
  = Some (if decide (boomerang_return sbox inv_sbox din nabla x = dout)
          then c + 1 else c).
Proof.
  intros Hd Hn Hx. unfold count_step, boomerang_return.
  destruct (sbox_entry x Hx) as [-> Hs1]. simpl.
  rewrite inv_sbox_entry by by apply lxor_below_N. simpl.
  destruct (sbox_entry (Z.lxor x din)) as [-> Hs2]; [by apply lxor_below_N|].
  simpl. rewrite inv_sbox_entry by by apply lxor_below_N. reflexivity.
Qed.

Lemma count_iter din nabla dout (l : list Z) (c : Z) :
  0 ≤ din < N → 0 ≤ nabla < N → (∀ x, x ∈ l → 0 ≤ x < N) →
  iter (count_step sbox inv_sbox din nabla dout) l c
  = Some (c + Z.of_nat (length
            (filter (λ x, boomerang_return sbox inv_sbox din nabla x = dout) l))).
Proof.
  intros Hd Hn. revert c. induction l as [|x l IH]; intros c Hl; simpl.
  { f_equal. lia. }
  rewrite count_step_spec; [|done..|apply Hl, list_elem_of_here]. simpl.
  rewrite IH by (intros y Hy; by apply Hl, list_elem_of_further).
  f_equal. rewrite filter_cons. case_decide; simpl; lia.
Qed.

Lemma count_loop_spec din nabla dout :
  0 ≤ din < N → 0 ≤ nabla < N →
  count_loop N sbox inv_sbox din nabla dout
  = Some (solution_count N sbox inv_sbox din nabla dout).
Proof.
  intros Hd Hn. unfold count_loop, for_up. rewrite Z.sub_0_r.
  rewrite count_iter; [done..|].
  intros x Hx. apply elem_of_seqZ in Hx. lia.
Qed.

Lemma elem_of_pairs (a b : Z) :
  (a, b) ∈ (i ← seqZ 0 N; pair i <$> seqZ 0 N) ↔ 0 ≤ a < N ∧ 0 ≤ b < N.
Proof.
  rewrite list_elem_of_bind. split.
  - intros (i & Hab & Hi). apply list_elem_of_fmap in Hab as (j & [= -> ->] & Hj).
    apply elem_of_seqZ in Hi, Hj. lia.
  - intros [Ha Hb]. exists a. split.
    + apply list_elem_of_fmap. exists b. split; [done|]. apply elem_of_seqZ. lia.
    + apply elem_of_seqZ. lia.
Qed.

(** The table loops of [compute_bct] overwrite every cell of an [N]x[N]
    array with the number of solutions. *)
Lemma bct_loops_spec (bct0 : list (list Z)) :
  shape2 N bct0 →
  bct_loops N sbox inv_sbox bct0
  = Some (table2 N (λ a b, solution_count N sbox inv_sbox a b a)).
Proof.
  intros Hshape. unfold bct_loops, for_up. rewrite !Z.sub_0_r.
  rewrite (iter_nest (λ (ab : Z * Z) t,
             count ← count_loop N sbox inv_sbox ab.1 ab.2 ab.1;
             wr2 t ab.1 ab.2 count)).
  destruct (iter_fill (shape2 N) (λ t (ab : Z * Z), rd2 t ab.1 ab.2)
              (λ ab, solution_count N sbox inv_sbox ab.1 ab.2 ab.1)
              (λ (ab : Z * Z) t,
                 count ← count_loop N sbox inv_sbox ab.1 ab.2 ab.1;
                 wr2 t ab.1 ab.2 count)
              (i ← seqZ 0 N; pair i <$> seqZ 0 N)) with bct0
    as (t' & -> & Hs' & Hcells & _); [|done|].
  - intros [a b] t Hab Ht. apply elem_of_pairs in Hab as [Ha Hb]. simpl.
    rewrite count_loop_spec by done. simpl.
    destruct (wr2_spec N t a b (solution_count N sbox inv_sbox a b a))
      as (t' & Hw & Hs' & Hget & Hframe); [done..|].
    exists t'. split; [done|]. split; [done|]. split; [done|].
    intros [a' b'] Hne. simpl. by apply Hframe.
  - f_equal. apply table2_ext; [done|]. intros a b Ha Hb.
    apply (Hcells (a, b)). by apply elem_of_pairs.
Qed.

Lemma elem_of_triples (a b c : Z) :
  (a, (b, c)) ∈ (i ← seqZ 0 N; pair i <$> (j ← seqZ 0 N; pair j <$> seqZ 0 N))
  ↔ 0 ≤ a < N ∧ 0 ≤ b < N ∧ 0 ≤ c < N.
Proof.
  rewrite list_elem_of_bind. split.
  - intros (i & Habc & Hi).
    apply list_elem_of_fmap in Habc as ([j l] & [= -> -> ->] & Hjl).
    apply elem_of_pairs in Hjl. apply elem_of_seqZ in Hi. lia.
  - intros (Ha & Hb & Hc). exists a. split.
    + apply list_elem_of_fmap. exists (b, c). split; [done|].
      by apply elem_of_pairs.
    + apply elem_of_seqZ. lia.
Qed.

(** The table loops of [compute_bdt] overwrite every cell of an
    [N]x[N]x[N] array with the number of solutions. *)
Lemma bdt_loops_spec (bdt0 : list (list (list Z))) :
  shape3 N bdt0 →
  bdt_loops N sbox inv_sbox bdt0
  = Some (table3 N (λ d0 d1 nabla0,
                      solution_count N sbox inv_sbox d0 nabla0 d1)).
Proof.
  intros Hshape. unfold bdt_loops, for_up. rewrite !Z.sub_0_r.
  pose (step := λ (k : Z * (Z * Z)) t,
             count ← count_loop N sbox inv_sbox k.1 k.2.2 k.2.1;
             wr3 t k.1 k.2.1 k.2.2 count).
  rewrite (iter_ext _ (λ d0 t, iter (λ bc, step (d0, bc))
                                 (i ← seqZ 0 N; pair i <$> seqZ 0 N) t)).
  2: { intros d0 t _. apply (iter_nest (λ bc, step (d0, bc))). }
  rewrite (iter_nest step).
  destruct (iter_fill (shape3 N) (λ t (k : Z * (Z * Z)), rd3 t k.1 k.2.1 k.2.2)
              (λ k, solution_count N sbox inv_sbox k.1 k.2.2 k.2.1) step
              (i ← seqZ 0 N; pair i <$> (j ← seqZ 0 N; pair j <$> seqZ 0 N)))
    with bdt0 as (t' & -> & Hs' & Hcells & _); [|done|].
  - intros [a [b c]] t Habc Ht. apply elem_of_triples in Habc as (Ha & Hb & Hc).
    unfold step. simpl. rewrite count_loop_spec by done. simpl.
    destruct (wr3_spec N t a b c (solution_count N sbox inv_sbox a c b))
      as (t' & Hw & Hs' & Hget & Hframe); [done..|].
    exists t'. split; [done|]. split; [done|]. split; [done|].
    intros [a' [b' c']] Hne. simpl. apply Hframe. congruence.
  - f_equal. apply table3_ext; [done|]. intros a b c Ha Hb Hc.
    apply (Hcells (a, (b, c))). by apply elem_of_triples.
Qed.

End TableLoops.

(** ** Solutions come in pairs *)

Lemma boomerang_return_partner sbox inv_sbox din nabla x :
  boomerang_return sbox inv_sbox din nabla (Z.lxor x din)
  = boomerang_return sbox inv_sbox din nabla x.
Proof.
  unfold boomerang_return. rewrite lxor_involutive. apply Z.lxor_comm.
Qed.

Lemma lxor_moves x a : a ≠ 0 → Z.lxor x a ≠ x.
Proof.
  intros Ha Heq. apply Ha.
  rewrite <- (lxor_involutive a x), (Z.lxor_comm a x), Heq.
  apply Z.lxor_nilpotent.
Qed.

(** [x] is a solution exactly when [x ^ din] is, and for [din <> 0] the two
    differ: the number of solutions is even. *)
Lemma solution_count_even k N sbox inv_sbox din nabla dout :
  0 ≤ k → N = 2 ^ k → 0 < din < N →
  solution_count N sbox inv_sbox din nabla dout mod 2 = 0.
Proof.
  intros Hk HN Hdin. unfold solution_count.
  set (L := solutions N sbox inv_sbox din nabla dout).
  set (lo := λ x, x < Z.lxor x din).
  set (f := λ x, Z.lxor x din).
  assert (Hinv : ∀ x, f (f x) = x) by (intros x; apply lxor_involutive).
  assert (Hpart : filter (λ x, ¬ lo x) L ≡ₚ f <$> filter lo L).
  { apply NoDup_Permutation.
    - apply NoDup_filter, NoDup_filter, NoDup_seqZ.
    - apply NoDup_fmap_2_strong; [|apply NoDup_filter, NoDup_filter, NoDup_seqZ].
      intros x y _ _ Hxy. by rewrite <- (Hinv x), Hxy.
    - intros y. rewrite list_elem_of_fmap. unfold L, solutions.
      setoid_rewrite list_elem_of_filter. setoid_rewrite list_elem_of_filter.
      setoid_rewrite elem_of_seqZ. unfold lo, f. split.
      + intros (Hlo & HP & Hy). exists (Z.lxor y din).
        rewrite lxor_involutive, boomerang_return_partner.
        pose proof (lxor_moves y din ltac:(lia)).
        pose proof (lxor_below_pow2 k y din Hk ltac:(lia) ltac:(lia)).
        repeat split; [lia|done|lia..].
      + intros (x & -> & Hlo & HP & Hx).
        rewrite lxor_involutive, boomerang_return_partner.
        pose proof (lxor_below_pow2 k x din Hk ltac:(lia) ltac:(lia)).
        repeat split; [lia|done|lia..]. }
  rewrite <- (filter_app_complement lo L), length_app, Hpart, length_fmap.
  rewrite Nat2Z.inj_add, Z.add_diag, Z.mul_comm. apply Z.mod_mul. lia.
Qed.

(** ** The constant S-boxes *)

Lemma below_cases (n : nat) (P : Z → Prop) :
  Forall P (seqZ 0 (Z.of_nat n)) → ∀ v, 0 ≤ v < Z.of_nat n → P v.
Proof.
  intros Hall v Hv. eapply (proj1 (Forall_forall _ _) Hall).
  apply elem_of_seqZ. lia.
Qed.

Lemma mutual_inverses_well_formed N sbox inv_sbox :
  length sbox = Z.to_nat N → length inv_sbox = Z.to_nat N →
  mutual_inverses N sbox inv_sbox → well_formed N sbox inv_sbox.
Proof.
  intros Hs Hi Hmi. split; [done|]. split; [done|].
  apply Forall_lookup. intros i v Hv.
  pose proof (lookup_lt_Some _ _ _ Hv) as Hlt.
  destruct (Hmi (Z.of_nat i) ltac:(lia)) as [_ Hround].
  rewrite rd_lookup, Hv in Hround. simpl in Hround.
  apply rd_Some_lt in Hround. lia.
Qed.

Lemma mutual_inverses_sel N sbox inv_sbox v :
  mutual_inverses N sbox inv_sbox → 0 ≤ v < N →
  sel inv_sbox (sel sbox v) = v.
Proof.
  intros Hmi Hv. destruct (Hmi v Hv) as [_ Hround].
  destruct (rd sbox v) as [j|] eqn:Hj; [|done]. simpl in Hround.
  assert (sel sbox v = j) as ->.
  { unfold rd in Hj. case_decide; [|done].
    unfold sel. by apply list_lookup_total_correct. }
  unfold rd in Hround. case_decide; [|done].
  unfold sel. by apply list_lookup_total_correct.
Qed.

Lemma Bdt_well_formed : well_formed 8 Bdt.SBOX Bdt.INV_SBOX.
Proof. split; [done|]. split; [done|]. repeat constructor; lia. Qed.

Lemma BctPresent_well_formed :
  well_formed 16 BctPresent.SBOX BctPresent.INV_SBOX.
Proof. split; [done|]. split; [done|]. repeat constructor; lia. Qed.

Lemma shape2_replicate (n : nat) :
  shape2 (Z.of_nat n) (replicate n (replicate n 0)).
Proof.
  split.
  - by rewrite length_replicate, Nat2Z.id.
  - apply Forall_replicate. by rewrite length_replicate, Nat2Z.id.
Qed.

Lemma shape3_replicate (n : nat) :
  shape3 (Z.of_nat n) (replicate n (replicate n (replicate n 0))).
Proof.
  split.
  - by rewrite length_replicate, Nat2Z.id.
  - apply Forall_replicate, shape2_replicate.
Qed.

Lemma filter_all {A} (P : A → Prop) `{∀ x, Decision (P x)} (l : list A) :
  (∀ x, x ∈ l → P x) → filter P l = l.
Proof.
  induction l as [|x l IH]; intros Hall; [done|].
  rewrite filter_cons_True by apply Hall, list_elem_of_here.
  rewrite IH; [done|]. intros y Hy. by apply Hall, list_elem_of_further.
Qed.

(** When every [x] in [[0, N)] is a solution the count is [N]. *)
Lemma solution_count_all N sbox inv_sbox din nabla dout :
  0 ≤ N →
  (∀ x, 0 ≤ x < N → boomerang_return sbox inv_sbox din nabla x = dout) →
  solution_count N sbox inv_sbox din nabla dout = N.
Proof.
  intros HN Hall. unfold solution_count, solutions.
  rewrite filter_all.
  - rewrite length_seqZ. lia.
  - intros x Hx. apply elem_of_seqZ in Hx. apply Hall. lia.
Qed.

(** A zero input difference always comes back as zero. *)
Lemma solution_count_zero_in N sbox inv_sbox nabla :
  0 ≤ N → solution_count N sbox inv_sbox 0 nabla 0 = N.
Proof.
  intros HN. apply solution_count_all; [done|]. intros x _.
  unfold boomerang_return. rewrite Z.lxor_0_r. apply Z.lxor_nilpotent.
Qed.

(** With a zero output mask the boomerang is the identity, when the arrays
    invert each other. *)
Lemma solution_count_zero_out k N sbox inv_sbox din :
  0 ≤ k → N = 2 ^ k → mutual_inverses N sbox inv_sbox → 0 ≤ din < N →
  solution_count N sbox inv_sbox din 0 din = N.
Proof.
  intros Hk HN Hmi Hdin. apply solution_count_all; [lia|]. intros x Hx.
  unfold boomerang_return. rewrite !Z.lxor_0_r.
  pose proof (lxor_below_pow2 k x din Hk ltac:(lia) ltac:(lia)).
  rewrite !(mutual_inverses_sel N) by (done || lia).
  by rewrite <- Z.lxor_assoc, Z.lxor_nilpotent, Z.lxor_0_l.
Qed.

(** ** The printing half of [compute_bct] in [bct_present.c] *)

Lemma prefix_stable_printf fmt args :
  prefix_stable (λ out, Some (printf fmt args out)).
Proof. intros out x. unfold printf. simpl. by rewrite app_assoc. Qed.

Lemma prefix_stable_bind g h :
  prefix_stable g → prefix_stable h → prefix_stable (λ out, g out ≫= h).
Proof.
  intros Hg Hh out x. rewrite Hg. destruct (g x) as [y|]; simpl; [|done].
  apply Hh.
Qed.

Lemma prefix_stable_read {A} (o : option A)
    (h : A → list event → option (list event)) :
  (∀ v, prefix_stable (h v)) → prefix_stable (λ out, v ← o; h v out).
Proof. intros Hh out x. destruct o as [v|]; simpl; [apply Hh | done]. Qed.

Lemma prefix_stable_iter {I} (body : I → list event → option (list event))
    (l : list I) :
  (∀ i, prefix_stable (body i)) → prefix_stable (iter body l).
Proof.
  intros Hbody. induction l as [|i l IH]; intros out x; simpl; [done|].
  rewrite Hbody. destruct (body i x) as [y|]; simpl; [apply IH | done].
Qed.

Lemma prefix_stable_printf_then fmt args k :
  prefix_stable k → prefix_stable (λ out, k (printf fmt args out)).
Proof.
  intros Hk out x. unfold printf. rewrite <- app_assoc. apply Hk.
Qed.

Lemma print_table_prefix_stable bct :
  prefix_stable (BctPresent.print_table bct).
Proof.
  unfold BctPresent.print_table, for_up.
  apply (prefix_stable_printf_then _ [] (λ out, iter _ _ out ≫= _)).
  apply (prefix_stable_bind (iter _ _) (λ out, iter _ _ (printf _ [] out))).
  { apply prefix_stable_iter. intros b. apply prefix_stable_printf. }
  apply (prefix_stable_printf_then _ [] (iter _ _)).
  apply prefix_stable_iter. intros a.
  apply (prefix_stable_printf_then _ [a] (λ out, iter _ _ out ≫= _)).
  apply (prefix_stable_bind (iter _ _) (λ out, Some (printf _ [] out)));
    [|apply prefix_stable_printf].
  apply prefix_stable_iter. intros b.
  apply (prefix_stable_read (rd2 bct a b) (λ v out, Some (printf _ [v] out))).
  intros v. apply prefix_stable_printf.
Qed.

(** On a 16x16 table the printing loops run to the end and append 306
    [printf] calls, the same whatever was printed before. *)
Lemma print_table_table2 (f : Z → Z → Z) :
  ∃ printed, length printed = 306%nat ∧
    ∀ out, BctPresent.print_table (table2 16 f) out = Some (out ++ printed).
Proof.
  destruct (BctPresent.print_table (table2 16 f) []) as [printed|] eqn:Hrun;
    [|by vm_compute in Hrun].
  exists printed. split.
  - vm_compute in Hrun. injection Hrun as <-. reflexivity.
  - intros out. rewrite <- (app_nil_r out) at 1.
    by rewrite print_table_prefix_stable, Hrun.
Qed.

(** ** The tables the three table functions compute *)

Lemma Bdt_compute_bct_table sbox inv_sbox bct0 :
  well_formed 8 sbox inv_sbox → shape2 8 bct0 →
  Bdt.compute_bct sbox inv_sbox bct0
  = Some (table2 8 (λ a b, solution_count 8 sbox inv_sbox a b a)).
Proof. intros Hwf Hs. by apply (bct_loops_spec 3). Qed.

Lemma Bdt_compute_bdt_table sbox inv_sbox bdt0 :
  well_formed 8 sbox inv_sbox → shape3 8 bdt0 →
  Bdt.compute_bdt sbox inv_sbox bdt0
  = Some (table3 8 (λ d0 d1 nabla0,
                      solution_count 8 sbox inv_sbox d0 nabla0 d1)).
Proof. intros Hwf Hs. by apply (bdt_loops_spec 3). Qed.

Lemma BctPresent_compute_bct_table sbox inv_sbox :
  well_formed 16 sbox inv_sbox →
  ∃ printed, length printed = 306%nat ∧
    ∀ bct0 out, shape2 16 bct0 →
      BctPresent.compute_bct sbox inv_sbox bct0 out
      = Some (table2 16 (λ a b, solution_count 16 sbox inv_sbox a b a),
              out ++ printed).
Proof.
  intros Hwf.
  destruct (print_table_table2
              (λ a b, solution_count 16 sbox inv_sbox a b a))
    as (printed & Hlen & Hprint).
  exists printed. split; [done|]. intros bct0 out Hs.
  unfold BctPresent.compute_bct.
  rewrite (bct_loops_spec 4) by done. cbn [mbind option_bind].
  by rewrite Hprint.
Qed.

(** ** The claims on the boomerang tables *)

(** C2. In both tools, on arrays of [N] entries whose [sbox] entries lie in
    [[0, N)], [compute_bct] runs to the end and leaves in cell [(a, b)],
    for every [(a, b)] in [[0,N)x[0,N)], the number of [x] in [[0, N)] with
    [inv_sbox[sbox[x]^b] ^ inv_sbox[sbox[x^a]^b] == a]; [N] is 8 in
    [bdt.c] and 16 in [bct_present.c]. *)
Theorem compute_bct_counts :
  (∀ sbox inv_sbox bct0,
     well_formed 8 sbox inv_sbox → shape2 8 bct0 →
     ∃ bct, Bdt.compute_bct sbox inv_sbox bct0 = Some bct ∧
       ∀ a b, 0 ≤ a < 8 → 0 ≤ b < 8 →
         rd2 bct a b = Some (solution_count 8 sbox inv_sbox a b a)) ∧
  (∀ sbox inv_sbox bct0 out,
     well_formed 16 sbox inv_sbox → shape2 16 bct0 →
     ∃ bct out', BctPresent.compute_bct sbox inv_sbox bct0 out
                 = Some (bct, out') ∧
       ∀ a b, 0 ≤ a < 16 → 0 ≤ b < 16 →
         rd2 bct a b = Some (solution_count 16 sbox inv_sbox a b a)).
Proof.
  split.
  - intros sbox inv_sbox bct0 Hwf Hs. eexists. split.
    + by apply Bdt_compute_bct_table.
    + intros a b Ha Hb. by rewrite rd2_table2.
  - intros sbox inv_sbox bct0 out Hwf Hs.
    destruct (BctPresent_compute_bct_table sbox inv_sbox Hwf)
      as (printed & _ & Hrun).
    eexists _, _. split; [by apply Hrun|].
    intros a b Ha Hb. by rewrite rd2_table2.
Qed.

Lemma compute_bct_counts_witness :
  (∃ bct, Bdt.compute_bct Bdt.SBOX Bdt.INV_SBOX (replicate 8 (replicate 8 0))
          = Some bct ∧
     ∀ a b, 0 ≤ a < 8 → 0 ≤ b < 8 →
       rd2 bct a b = Some (solution_count 8 Bdt.SBOX Bdt.INV_SBOX a b a)) ∧
  (∃ bct out', BctPresent.compute_bct BctPresent.SBOX BctPresent.INV_SBOX
                 (replicate 16 (replicate 16 0)) [] = Some (bct, out') ∧
     ∀ a b, 0 ≤ a < 16 → 0 ≤ b < 16 →
       rd2 bct a b
       = Some (solution_count 16 BctPresent.SBOX BctPresent.INV_SBOX a b a)).
Proof.
  split.
  - apply (proj1 compute_bct_counts).
    + split; [reflexivity|]. split; [reflexivity|]. repeat constructor; lia.
    + split; [reflexivity|]. repeat constructor.
  - apply (proj2 compute_bct_counts).
    + split; [reflexivity|]. split; [reflexivity|]. repeat constructor; lia.
    + split; [reflexivity|]. repeat constructor.
Defined.

(** C3. On arrays of 8 entries whose [sbox] entries lie in [[0, 8)],
    [compute_bdt] runs to the end and leaves in cell [(d0, d1, nabla0)],
    for every triple in [[0,8)^3], the number of [x] in [[0, 8)] with
    [inv_sbox[sbox[x]^nabla0] ^ inv_sbox[sbox[x^d0]^nabla0] == d1]. *)
Theorem compute_bdt_counts sbox inv_sbox bdt0 :
  well_formed 8 sbox inv_sbox → shape3 8 bdt0 →
  ∃ bdt, Bdt.compute_bdt sbox inv_sbox bdt0 = Some bdt ∧
    ∀ d0 d1 nabla0, 0 ≤ d0 < 8 → 0 ≤ d1 < 8 → 0 ≤ nabla0 < 8 →
      rd3 bdt d0 d1 nabla0
      = Some (solution_count 8 sbox inv_sbox d0 nabla0 d1).
Proof.
  intros Hwf Hs. eexists. split.
  - by apply Bdt_compute_bdt_table.
  - intros d0 d1 nabla0 H0 H1 Hn. by rewrite rd3_table3.
Qed.

Lemma compute_bdt_counts_witness :
  ∃ bdt, Bdt.compute_bdt Bdt.SBOX Bdt.INV_SBOX
           (replicate 8 (replicate 8 (replicate 8 0))) = Some bdt ∧
    ∀ d0 d1 nabla0, 0 ≤ d0 < 8 → 0 ≤ d1 < 8 → 0 ≤ nabla0 < 8 →
      rd3 bdt d0 d1 nabla0
      = Some (solution_count 8 Bdt.SBOX Bdt.INV_SBOX d0 nabla0 d1).
Proof.
  apply compute_bdt_counts.
  - split; [reflexivity|]. split; [reflexivity|]. repeat constructor; lia.
  - split; [reflexivity|]. repeat constructor.
Defined.

(** C8. The two constant S-box pairs are mutual inverses:
    [sbox[inv_sbox[v]] == v] and [inv_sbox[sbox[v]] == v] for all [v] in
    [[0, 8)] for the pair of [bdt.c] and in [[0, 16)] for the pair of
    [bct_present.c]. *)
Theorem sboxes_mutual_inverses :
  mutual_inverses 8 Bdt.SBOX Bdt.INV_SBOX ∧
  mutual_inverses 16 BctPresent.SBOX BctPresent.INV_SBOX.
Proof.
  split.
  - intros v Hv. revert v Hv. apply (below_cases 8).
    repeat (constructor; [by vm_compute|]). constructor.
  - intros v Hv. revert v Hv. apply (below_cases 16).
    repeat (constructor; [by vm_compute|]). constructor.
Qed.

(** C6. When [sbox] and [inv_sbox] are arrays of [N] entries that invert
    each other on [[0, N)], the table of [compute_bct] has [bct[0][b] == N]
    for every [b] and [bct[a][0] == N] for every [a] in [[0, N)], in both
    tools; in particular the 16-entry pair of [bct_present.c] gives
    [bct[0][b] == 16] for all [b]. *)
Theorem compute_bct_boundary :
  (∀ sbox inv_sbox bct0,
     length sbox = 8%nat → length inv_sbox = 8%nat →
     mutual_inverses 8 sbox inv_sbox → shape2 8 bct0 →
     ∃ bct, Bdt.compute_bct sbox inv_sbox bct0 = Some bct ∧
       (∀ b, 0 ≤ b < 8 → rd2 bct 0 b = Some 8) ∧
       (∀ a, 0 ≤ a < 8 → rd2 bct a 0 = Some 8)) ∧
  (∀ sbox inv_sbox bct0 out,
     length sbox = 16%nat → length inv_sbox = 16%nat →
     mutual_inverses 16 sbox inv_sbox → shape2 16 bct0 →
     ∃ bct out', BctPresent.compute_bct sbox inv_sbox bct0 out
                 = Some (bct, out') ∧
       (∀ b, 0 ≤ b < 16 → rd2 bct 0 b = Some 16) ∧
       (∀ a, 0 ≤ a < 16 → rd2 bct a 0 = Some 16)) ∧
  (∀ bct0 out,
     shape2 16 bct0 →
     ∃ bct out', BctPresent.compute_bct BctPresent.SBOX BctPresent.INV_SBOX
                   bct0 out = Some (bct, out') ∧
       ∀ b, 0 ≤ b < 16 → rd2 bct 0 b = Some 16).
Proof.
  split; [|split].
  - intros sbox inv_sbox bct0 Hls Hli Hmi Hs.
    pose proof (mutual_inverses_well_formed 8 _ _ Hls Hli Hmi) as Hwf.
    eexists. split; [by apply Bdt_compute_bct_table|]. split.
    + intros b Hb. rewrite rd2_table2 by lia.
      by rewrite solution_count_zero_in.
    + intros a Ha. rewrite rd2_table2 by lia.
      by rewrite (solution_count_zero_out 3).
  - intros sbox inv_sbox bct0 out Hls Hli Hmi Hs.
    pose proof (mutual_inverses_well_formed 16 _ _ Hls Hli Hmi) as Hwf.
    destruct (BctPresent_compute_bct_table sbox inv_sbox Hwf)
      as (printed & _ & Hrun).
    eexists _, _. split; [by apply Hrun|]. split.
    + intros b Hb. rewrite rd2_table2 by lia.
      by rewrite solution_count_zero_in.
    + intros a Ha. rewrite rd2_table2 by lia.
      by rewrite (solution_count_zero_out 4).
  - intros bct0 out Hs.
    destruct (BctPresent_compute_bct_table _ _ BctPresent_well_formed)
      as (printed & _ & Hrun).
    eexists _, _. split; [by apply Hrun|].
    intros b Hb. rewrite rd2_table2 by lia.
    by rewrite solution_count_zero_in.
Qed.

Lemma compute_bct_boundary_witness :
  (∃ bct, Bdt.compute_bct Bdt.SBOX Bdt.INV_SBOX (replicate 8 (replicate 8 0))
          = Some bct ∧
     (∀ b, 0 ≤ b < 8 → rd2 bct 0 b = Some 8) ∧
     (∀ a, 0 ≤ a < 8 → rd2 bct a 0 = Some 8)) ∧
  (∃ bct out', BctPresent.compute_bct BctPresent.SBOX BctPresent.INV_SBOX
                 (replicate 16 (replicate 16 0)) [] = Some (bct, out') ∧
     (∀ b, 0 ≤ b < 16 → rd2 bct 0 b = Some 16) ∧
     (∀ a, 0 ≤ a < 16 → rd2 bct a 0 = Some 16)).
Proof.
  split.
  - apply (proj1 compute_bct_boundary).
    + reflexivity.
    + reflexivity.
    + intros v Hv. revert v Hv. apply (below_cases 8).
      repeat (constructor; [vm_compute; split; reflexivity|]). constructor.
    + split; [reflexivity|]. repeat constructor.
  - apply (proj1 (proj2 compute_bct_boundary)).
    + reflexivity.
    + reflexivity.
    + intros v Hv. revert v Hv. apply (below_cases 16).
      repeat (constructor; [vm_compute; split; reflexivity|]). constructor.
    + split; [reflexivity|]. repeat constructor.
Defined.

(** C9, at the input where it fails: the [compute_bct] of [bct_present.c]
    writes to standard output. *)
Lemma BctPresent_compute_bct_prints :
  ∃ bct out',
    BctPresent.compute_bct BctPresent.SBOX BctPresent.INV_SBOX
      (replicate 16 (replicate 16 0)) [] = Some (bct, out') ∧
    out' ≠ [].
Proof.
  destruct (BctPresent.compute_bct BctPresent.SBOX BctPresent.INV_SBOX
              (replicate 16 (replicate 16 0)) []) as [[bct out']|] eqn:Hrun;
    [|by vm_compute in Hrun].
  exists bct, out'. split; [done|].
  vm_compute in Hrun. injection Hrun as _ <-. discriminate.
Qed.

(** What the [compute_bct] of [bct_present.c] does on well-formed arrays:
    the table, and what it prints. *)
Lemma BctPresent_compute_bct_run sbox inv_sbox :
  well_formed 16 sbox inv_sbox →
  ∃ printed,
    length printed = 306%nat ∧
    printed_cells printed
    = concat (table2 16 (λ a b, solution_count 16 sbox inv_sbox a b a)) ∧
    ∀ bct0 out, shape2 16 bct0 →
      BctPresent.compute_bct sbox inv_sbox bct0 out
      = Some (table2 16 (λ a b, solution_count 16 sbox inv_sbox a b a),
              out ++ printed).
Proof.
  intros Hwf.
  pose proof (print_table_prefix_stable
    (table2 16 (λ a b, solution_count 16 sbox inv_sbox a b a))) as Hstable.
  assert (∃ printed,
            BctPresent.print_table
              (table2 16 (λ a b, solution_count 16 sbox inv_sbox a b a)) []
            = Some printed ∧
            length printed = 306%nat ∧
            printed_cells printed
            = concat (table2 16
                        (λ a b, solution_count 16 sbox inv_sbox a b a)))
    as (printed & Hrun & Hlen & Hcells).
  { generalize (λ a b, solution_count 16 sbox inv_sbox a b a). intros f.
    eexists. split; [by vm_compute|]. split; by vm_compute. }
  exists printed. split; [done|]. split; [done|]. intros bct0 out Hs.
  unfold BctPresent.compute_bct.
  rewrite (bct_loops_spec 4) by done. cbn [mbind option_bind].
  rewrite <- (app_nil_r out) at 1.
  by rewrite Hstable, Hrun.
Qed.

(** C9, amended.  The table [compute_bct] writes is determined by the
    entries of [sbox] and [inv_sbox]: it depends neither on what the array
    [bct] held before nor on what was printed before.  The [compute_bct] of
    [bdt.c] performs no output: a call leaves the output as it was.  The
    [compute_bct] of [bct_present.c] prints the table it computed: after
    what was printed before it appends a sequence of 306 [printf] calls
    that [sbox] and [inv_sbox] determine, whose ["%2d "] calls print the
    cells of the table, row after row. *)
Theorem compute_bct_effects :
  (∀ sbox inv_sbox,
     well_formed 8 sbox inv_sbox →
     ∀ bct0 out, shape2 8 bct0 →
       Bdt.compute_bct_call sbox inv_sbox bct0 out
       = Some (table2 8 (λ a b, solution_count 8 sbox inv_sbox a b a),
               out)) ∧
  (∀ sbox inv_sbox,
     well_formed 16 sbox inv_sbox →
     ∃ printed,
       length printed = 306%nat ∧
       printed_cells printed
       = concat (table2 16 (λ a b, solution_count 16 sbox inv_sbox a b a)) ∧
       ∀ bct0 out, shape2 16 bct0 →
         BctPresent.compute_bct sbox inv_sbox bct0 out
         = Some (table2 16 (λ a b, solution_count 16 sbox inv_sbox a b a),
                 out ++ printed)).
Proof.
  split.
  - intros sbox inv_sbox Hwf bct0 out Hs. unfold Bdt.compute_bct_call.
    by rewrite Bdt_compute_bct_table.
  - intros sbox inv_sbox Hwf. by apply BctPresent_compute_bct_run.
Qed.

Lemma compute_bct_effects_witness :
  (∀ bct0 out, shape2 8 bct0 →
     Bdt.compute_bct_call Bdt.SBOX Bdt.INV_SBOX bct0 out
     = Some (table2 8 (λ a b,
               solution_count 8 Bdt.SBOX Bdt.INV_SBOX a b a), out)) ∧
  (∃ printed,
     length printed = 306%nat ∧
     printed_cells printed
     = concat (table2 16 (λ a b,
                 solution_count 16 BctPresent.SBOX BctPresent.INV_SBOX a b a))
     ∧
     ∀ bct0 out, shape2 16 bct0 →
       BctPresent.compute_bct BctPresent.SBOX BctPresent.INV_SBOX bct0 out
       = Some (table2 16 (λ a b,
                 solution_count 16 BctPresent.SBOX BctPresent.INV_SBOX a b a),
               out ++ printed)).
Proof.
  split.
  - apply (proj1 compute_bct_effects).
    split; [reflexivity|]. split; [reflexivity|]. repeat constructor; lia.
  - apply (proj2 compute_bct_effects).
    split; [reflexivity|]. split; [reflexivity|]. repeat constructor; lia.
Defined.

(** C10. No bijectivity assumed: on arrays of [N] entries whose [sbox]
    entries lie in [[0, N)], every entry [bct[a][b]] with [a != 0] and every
    entry [bdt[d0][d1][nabla0]] with [d0 != 0] is even, because [x] satisfies
    the counting equation exactly when [x ^ a] (respectively [x ^ d0])
    does. *)
Theorem table_entries_even :
  (∀ sbox inv_sbox din nabla x,
     boomerang_return sbox inv_sbox din nabla (Z.lxor x din)
     = boomerang_return sbox inv_sbox din nabla x) ∧
  (∀ sbox inv_sbox bct0 bdt0,
     well_formed 8 sbox inv_sbox → shape2 8 bct0 → shape3 8 bdt0 →
     ∃ bct bdt,
       Bdt.compute_bct sbox inv_sbox bct0 = Some bct ∧
       Bdt.compute_bdt sbox inv_sbox bdt0 = Some bdt ∧
       (∀ a b, 0 < a < 8 → 0 ≤ b < 8 →
          ∃ c, rd2 bct a b = Some c ∧ c mod 2 = 0) ∧
       (∀ d0 d1 nabla0, 0 < d0 < 8 → 0 ≤ d1 < 8 → 0 ≤ nabla0 < 8 →
          ∃ c, rd3 bdt d0 d1 nabla0 = Some c ∧ c mod 2 = 0)) ∧
  (∀ sbox inv_sbox bct0 out,
     well_formed 16 sbox inv_sbox → shape2 16 bct0 →
     ∃ bct out',
       BctPresent.compute_bct sbox inv_sbox bct0 out = Some (bct, out') ∧
       ∀ a b, 0 < a < 16 → 0 ≤ b < 16 →
         ∃ c, rd2 bct a b = Some c ∧ c mod 2 = 0).
Proof.
  split; [|split].
  - intros. apply boomerang_return_partner.
  - intros sbox inv_sbox bct0 bdt0 Hwf Hs2 Hs3. eexists _, _.
    split; [by apply Bdt_compute_bct_table|].
    split; [by apply Bdt_compute_bdt_table|]. split.
    + intros a b Ha Hb. eexists. split; [apply rd2_table2; lia|].
      by apply (solution_count_even 3).
    + intros d0 d1 nabla0 H0 H1 Hn. eexists.
      split; [apply rd3_table3; lia|].
      by apply (solution_count_even 3).
  - intros sbox inv_sbox bct0 out Hwf Hs.
    destruct (BctPresent_compute_bct_table sbox inv_sbox Hwf)
      as (printed & _ & Hrun).
    eexists _, _. split; [by apply Hrun|].
    intros a b Ha Hb. eexists. split; [apply rd2_table2; lia|].
    by apply (solution_count_even 4).
Qed.

Lemma table_entries_even_witness :
  (∃ bct bdt,
     Bdt.compute_bct [0; 0; 1; 1; 2; 2; 3; 3] [5; 9; 9; 5; 1; 0; 2; 40]
       (replicate 8 (replicate 8 0)) = Some bct ∧
     Bdt.compute_bdt [0; 0; 1; 1; 2; 2; 3; 3] [5; 9; 9; 5; 1; 0; 2; 40]
       (replicate 8 (replicate 8 (replicate 8 0))) = Some bdt ∧
     (∀ a b, 0 < a < 8 → 0 ≤ b < 8 →
        ∃ c, rd2 bct a b = Some c ∧ c mod 2 = 0) ∧
     (∀ d0 d1 nabla0, 0 < d0 < 8 → 0 ≤ d1 < 8 → 0 ≤ nabla0 < 8 →
        ∃ c, rd3 bdt d0 d1 nabla0 = Some c ∧ c mod 2 = 0)) ∧
  (∃ bct out',
     BctPresent.compute_bct (replicate 16 3) (replicate 16 7)
       (replicate 16 (replicate 16 0)) [] = Some (bct, out') ∧
     ∀ a b, 0 < a < 16 → 0 ≤ b < 16 →
       ∃ c, rd2 bct a b = Some c ∧ c mod 2 = 0).
Proof.
  split.
  - apply (proj1 (proj2 table_entries_even)).
    + split; [reflexivity|]. split; [reflexivity|]. repeat constructor; lia.
    + split; [reflexivity|]. repeat constructor.
    + split; [reflexivity|]. repeat constructor.
  - apply (proj2 (proj2 table_entries_even)).
    + split; [reflexivity|]. split; [reflexivity|]. repeat constructor; lia.
    + split; [reflexivity|]. repeat constructor.
Defined.

(** ** The check of [main] in [bdt.c] *)

(** C1, on the code: for the S-box pair of [bdt.c] itself the sum over [d1]
    of [bdt[1][d1][1]] is 8 while [bct[1][1]] is 2.  [compute_bdt] counts,
    for each [d1], the [x] whose boomerang comes back with difference [d1];
    over all [d1] that is every [x], whatever [bct] holds. *)
Theorem Bdt_sum_differs_from_bct bct0 bdt0 :
  shape2 8 bct0 → shape3 8 bdt0 →
  ∃ bct bdt,
    Bdt.compute_bct Bdt.SBOX Bdt.INV_SBOX bct0 = Some bct ∧
    Bdt.compute_bdt Bdt.SBOX Bdt.INV_SBOX bdt0 = Some bdt ∧
    Bdt.sum_d1 bdt 1 1 = Some 8 ∧
    rd2 bct 1 1 = Some 2.
Proof.
  intros Hs2 Hs3. eexists _, _.
  split; [by apply Bdt_compute_bct_table; [apply Bdt_well_formed|]|].
  split; [by apply Bdt_compute_bdt_table; [apply Bdt_well_formed|]|].
  split; by vm_compute.
Qed.

Lemma Bdt_sum_differs_from_bct_witness :
  ∃ bct bdt,
    Bdt.compute_bct Bdt.SBOX Bdt.INV_SBOX (replicate 8 (replicate 8 0))
    = Some bct ∧
    Bdt.compute_bdt Bdt.SBOX Bdt.INV_SBOX
      (replicate 8 (replicate 8 (replicate 8 0))) = Some bdt ∧
    Bdt.sum_d1 bdt 1 1 = Some 8 ∧
    rd2 bct 1 1 = Some 2.
Proof.
  apply Bdt_sum_differs_from_bct.
  - split; [reflexivity|]. repeat constructor.
  - split; [reflexivity|]. repeat constructor.
Defined.

(** C7, on the code: with [SBOX = {7,4,6,1,0,5,2,3}] and
    [INV_SBOX = {4,3,6,7,1,5,2,0}], [bct[0][0]] is 8, but the check of
    [main] counts 15 valid pairs out of 64 and clears [all_ok], and the last
    thing [main] prints is its mismatch message. *)
Theorem Bdt_main_check_finds_mismatches bct0 bdt0 :
  shape2 8 bct0 → shape3 8 bdt0 →
  ∃ bct bdt st out,
    Bdt.compute_bct Bdt.SBOX Bdt.INV_SBOX bct0 = Some bct ∧
    Bdt.compute_bdt Bdt.SBOX Bdt.INV_SBOX bdt0 = Some bdt ∧
    rd2 bct 0 0 = Some 8 ∧
    Bdt.verify bct bdt [] = Some st ∧
    Bdt.valid_count st = 15 ∧
    Bdt.all_ok st = 0 ∧
    Bdt.main bct0 bdt0 [] = Some (0, out) ∧
    last out
    = Some (Printf "\nMismatch found but\n%d valid Entries Found.\n" [15]).
Proof.
  intros Hs2 Hs3.
  pose proof (Bdt_compute_bct_table _ _ bct0 Bdt_well_formed Hs2) as Hbct.
  pose proof (Bdt_compute_bdt_table _ _ bdt0 Bdt_well_formed Hs3) as Hbdt.
  eexists _, _, _, _.
  split; [exact Hbct|]. split; [exact Hbdt|].
  split; [by vm_compute|].
  split; [by vm_compute|].
  split; [by vm_compute|].
  split; [by vm_compute|].
  unfold Bdt.main. rewrite Hbct. cbn [mbind option_bind]. rewrite Hbdt.
  split; by vm_compute.
Qed.

Lemma Bdt_main_check_finds_mismatches_witness :
  ∃ bct bdt st out,
    Bdt.compute_bct Bdt.SBOX Bdt.INV_SBOX (replicate 8 (replicate 8 0))
    = Some bct ∧
    Bdt.compute_bdt Bdt.SBOX Bdt.INV_SBOX
      (replicate 8 (replicate 8 (replicate 8 0))) = Some bdt ∧
    rd2 bct 0 0 = Some 8 ∧
    Bdt.verify bct bdt [] = Some st ∧
    Bdt.valid_count st = 15 ∧
    Bdt.all_ok st = 0 ∧
    Bdt.main (replicate 8 (replicate 8 0))
      (replicate 8 (replicate 8 (replicate 8 0))) [] = Some (0, out) ∧
    last out
    = Some (Printf "\nMismatch found but\n%d valid Entries Found.\n" [15]).
Proof.
  apply Bdt_main_check_finds_mismatches.
  - split; [reflexivity|]. repeat constructor.
  - split; [reflexivity|]. repeat constructor.
Defined.

(** ** 32-bit words *)

Lemma lor_below_pow2 k x y :
  0 ≤ k → 0 ≤ x < 2 ^ k → 0 ≤ y < 2 ^ k → 0 ≤ Z.lor x y < 2 ^ k.
Proof.
  intros Hk Hx Hy.
  assert (0 ≤ Z.lor x y) by (apply Z.lor_nonneg; lia).
  apply Z.bounded_iff_bits_nonneg'; [done..|].
  intros l Hl. rewrite Z.lor_spec.
  rewrite (proj1 (Z.bounded_iff_bits_nonneg' k x Hk ltac:(lia)) Hx l Hl).
  by rewrite (proj1 (Z.bounded_iff_bits_nonneg' k y Hk ltac:(lia)) Hy l Hl).
Qed.

Lemma shl32_shl x n : 0 ≤ n → HigherOrder.shl32 x n = GimliSpec.shl x n.
Proof.
  intros Hn. unfold HigherOrder.shl32, HigherOrder.wrap32, GimliSpec.shl.
  by rewrite Z.shiftl_mul_pow2.
Qed.

Lemma shl_range x n : 0 ≤ GimliSpec.shl x n < 2 ^ 32.
Proof. unfold GimliSpec.shl. apply Z.mod_pos_bound. lia. Qed.

(** The two halves of the macro share no bit, so their OR is their sum. *)
Lemma ROTL32_rotl32 x b :
  0 ≤ x < 2 ^ 32 → 0 < b < 32 →
  HigherOrder.ROTL32 x b = GimliSpec.rotl32 x b.
Proof.
  intros Hx Hb.
  unfold HigherOrder.ROTL32, HigherOrder.shl32, HigherOrder.shr32,
    HigherOrder.wrap32, GimliSpec.rotl32.
  rewrite Z.shiftl_mul_pow2, Z.shiftr_div_pow2 by lia.
  rewrite <- Z.lxor_lor, <- Z.add_nocarry_lxor; [done| |].
  all: apply Z.bits_inj'; intros n Hn; rewrite Z.land_spec, Z.bits_0.
  all: rewrite Z.testbit_mod_pow2, Z.mul_pow2_bits, Z.div_pow2_bits by lia.
  all: destruct (decide (n < b)) as [Hlt|Hge].
  all: try (rewrite (Z.testbit_neg_r x (n - b)) by lia;
            by rewrite andb_false_r).
  all: rewrite (proj1 (Z.bounded_iff_bits_nonneg' 32 x ltac:(lia) ltac:(lia))
                  Hx (n + (32 - b))) by lia.
  all: by rewrite andb_false_r.
Qed.

Lemma rotl32_range x b :
  0 ≤ x < 2 ^ 32 → 0 < b < 32 → 0 ≤ GimliSpec.rotl32 x b < 2 ^ 32.
Proof.
  intros Hx Hb. rewrite <- ROTL32_rotl32 by done.
  unfold HigherOrder.ROTL32, HigherOrder.shl32, HigherOrder.shr32,
    HigherOrder.wrap32.
  apply lor_below_pow2; [lia| |].
  - apply Z.mod_pos_bound. lia.
  - rewrite Z.shiftr_div_pow2 by lia. split.
    + apply Z.div_pos; lia.
    + apply Z.div_lt_upper_bound; [lia|].
      assert (1 ≤ 2 ^ (32 - b)) by (apply (Z.pow_le_mono_r 2 0); lia). nia.
Qed.

(** ** States *)

Lemma word_state_word s (i : nat) :
  word_state s → (i < 12)%nat →
  rd s (Z.of_nat i) = Some (s !!! i) ∧ 0 ≤ s !!! i < 2 ^ 32.
Proof.
  intros [Hlen Hall] Hi. rewrite rd_lookup.
  assert (s !! i = Some (s !!! i)) as Hs
    by (apply list_lookup_lookup_total_lt; lia).
  split; [done|]. by eapply (proj1 (Forall_lookup _ _) Hall).
Qed.

Lemma word_state_insert s (i : nat) v :
  word_state s → (i < 12)%nat → 0 ≤ v < 2 ^ 32 →
  wr s (Z.of_nat i) v = Some (<[i := v]> s) ∧ word_state (<[i := v]> s).
Proof.
  intros [Hlen Hall] Hi Hv. split.
  - rewrite wr_insert by lia. by rewrite Nat2Z.id.
  - split; [by rewrite length_insert | by apply Forall_insert].
Qed.

(** A loop whose body is a total function on the states that satisfy an
    invariant is a fold. *)
Lemma iter_foldl {I S} (body : I → S → option S) (f : S → I → S)
    (P : S → Prop) (l : list I) (s : S) :
  P s →
  (∀ i s, i ∈ l → P s → body i s = Some (f s i) ∧ P (f s i)) →
  iter body l s = Some (foldl f s l) ∧ P (foldl f s l).
Proof.
  revert s. induction l as [|i l IH]; intros s Hs Hbody; simpl; [done|].
  destruct (Hbody i s) as [-> Hs']; [apply list_elem_of_here | done |].
  simpl. apply IH; [done|].
  intros j s' Hj. apply Hbody. by apply list_elem_of_further.
Qed.

(** ** The permutation *)

Lemma column_spec s (c : nat) :
  word_state s → (c < 4)%nat →
  HigherOrder.column (Z.of_nat c) s = Some (GimliSpec.column s c) ∧
  word_state (GimliSpec.column s c).
Proof.
  intros Hs Hc. unfold HigherOrder.column, GimliSpec.column.
  destruct (word_state_word s c Hs) as [-> Hx]; [lia|].
  replace (Z.of_nat c + 4) with (Z.of_nat (c + 4)) by lia.
  replace (Z.of_nat c + 8) with (Z.of_nat (c + 8)) by lia.
  destruct (word_state_word s (c + 4) Hs) as [-> Hy]; [lia|].
  destruct (word_state_word s (c + 8) Hs) as [-> Hz]; [lia|].
  cbn [mbind option_bind].
  rewrite !ROTL32_rotl32, !shl32_shl by lia.
  pose proof (rotl32_range (s !!! c) 24 Hx ltac:(lia)) as Hrx.
  pose proof (rotl32_range (s !!! (c + 4)%nat) 9 Hy ltac:(lia)) as Hry.
  set (x := GimliSpec.rotl32 (s !!! c) 24) in *.
  set (y := GimliSpec.rotl32 (s !!! (c + 4)%nat) 9) in *.
  set (z := s !!! (c + 8)%nat) in *.
  assert (∀ u v, 0 ≤ u < 2 ^ 32 → 0 ≤ v < 2 ^ 32 → 0 ≤ Z.lxor u v < 2 ^ 32)
    as Hxor by (intros u v; apply lxor_below_pow2; lia).
  destruct (word_state_insert s (c + 8)
              (Z.lxor (Z.lxor x (GimliSpec.shl z 1))
                 (GimliSpec.shl (Z.land y z) 2)) Hs) as [-> Hs1];
    [lia|auto using shl_range|].
  cbn [mbind option_bind].
  destruct (word_state_insert _ (c + 4)
              (Z.lxor (Z.lxor y x) (GimliSpec.shl (Z.lor x z) 1)) Hs1)
    as [-> Hs2]; [lia|auto using shl_range|].
  cbn [mbind option_bind].
  apply word_state_insert; [done|lia|auto using shl_range].
Qed.

Lemma exchange_spec s (i j : nat) :
  word_state s → (i < 12)%nat → (j < 12)%nat → i ≠ j →
  HigherOrder.exchange (Z.of_nat i) (Z.of_nat j) s
  = Some (GimliSpec.swap i j s) ∧
  word_state (GimliSpec.swap i j s).
Proof.
  intros Hs Hi Hj Hij. unfold HigherOrder.exchange, GimliSpec.swap.
  destruct (word_state_word s i Hs Hi) as [-> Hwi].
  destruct (word_state_word s j Hs Hj) as [-> Hwj].
  cbn [mbind option_bind].
  destruct (word_state_insert s i (s !!! j) Hs Hi Hwj) as [-> Hs1].
  cbn [mbind option_bind].
  destruct (word_state_insert _ j (s !!! i) Hs1 Hj Hwi) as [-> Hs2].
  by rewrite list_insert_insert_ne in * by done.
Qed.

Ltac word_literals E :=
  change (Z.of_nat 0) with 0 in E; change (Z.of_nat 1) with 1 in E;
  change (Z.of_nat 2) with 2 in E; change (Z.of_nat 3) with 3 in E.

Lemma land_3_mod_4 r : Z.land r 3 = r mod 4.
Proof. change 3 with (Z.ones 2). by rewrite Z.land_ones. Qed.

(** One turn of the loop on [round]. *)
Lemma round_spec s r :
  word_state s → 1 ≤ r ≤ 4 →
  (state ← for_up 0 4 HigherOrder.column s;
   state ← HigherOrder.small_swap r state;
   HigherOrder.big_swap r state) = Some (GimliSpec.round s r) ∧
  word_state (GimliSpec.round s r).
Proof.
  intros Hs Hr. unfold for_up, GimliSpec.round. cbv zeta.
  change (seqZ 0 (4 - 0)) with (Z.of_nat <$> [0; 1; 2; 3]%nat).
  rewrite iter_fmap.
  destruct (iter_foldl (λ c, HigherOrder.column (Z.of_nat c))
              GimliSpec.column word_state [0; 1; 2; 3]%nat s Hs)
    as [-> Hs1].
  { intros c s' Hc Hs'. apply column_spec; [done|].
    repeat (apply elem_of_cons in Hc as [->|Hc]; [lia|]).
    by apply elem_of_nil in Hc. }
  cbn [mbind option_bind].
  set (s1 := foldl GimliSpec.column s [0; 1; 2; 3]%nat) in *.
  unfold HigherOrder.small_swap, HigherOrder.big_swap.
  rewrite !land_3_mod_4.
  assert (∃ s2, (if decide (r mod 4 = 0)
                 then
                   state ← HigherOrder.exchange 0 1 s1;
                   state ← HigherOrder.exchange 2 3 state;
                   v ← rd state 0;
                   wr state 0 (Z.lxor v (Z.lxor 0x9e377900 r))
                 else Some s1) = Some s2 ∧ word_state s2 ∧
                s2 = if decide (r mod 4 = 0)
                     then
                       <[0%nat := Z.lxor
                          (GimliSpec.swap 2 3 (GimliSpec.swap 0 1 s1) !!! 0%nat)
                          (Z.lxor 0x9e377900 r)]>
                         (GimliSpec.swap 2 3 (GimliSpec.swap 0 1 s1))
                     else s1) as (s2 & -> & Hs2 & Heq).
  { case_decide; [|by eexists].
    destruct (exchange_spec s1 0 1 Hs1) as [E Hsa]; [lia..|].
    word_literals E. rewrite E. clear E.
    cbn [mbind option_bind].
    destruct (exchange_spec _ 2 3 Hsa) as [E Hsb]; [lia..|].
    word_literals E. rewrite E. clear E.
    cbn [mbind option_bind].
    destruct (word_state_word _ 0 Hsb) as [E Hw]; [lia|].
    word_literals E. rewrite E. clear E.
    cbn [mbind option_bind].
    destruct (word_state_insert _ 0
                (Z.lxor (GimliSpec.swap 2 3 (GimliSpec.swap 0 1 s1) !!! 0%nat)
                   (Z.lxor 0x9e377900 r)) Hsb) as [E Hsc]; [lia| |].
    - apply lxor_below_pow2; [lia|done|].
      apply lxor_below_pow2; lia.
    - word_literals E. rewrite E. by eexists. }
  cbn [mbind option_bind]. rewrite <- Heq. clear Heq.
  case_decide; [|done].
  destruct (exchange_spec s2 0 2 Hs2) as [E Hsa]; [lia..|].
  word_literals E. rewrite E. clear E.
  cbn [mbind option_bind].
  apply (exchange_spec _ 1 3 Hsa); lia.
Qed.

(** On a state of 12 32-bit words the C function computes the four rounds
    of the specification. *)
Lemma gimli_permutation_spec s :
  word_state s →
  HigherOrder.gimli_permutation s = Some (GimliSpec.gimli s) ∧
  word_state (GimliSpec.gimli s).
Proof.
  intros Hs. unfold HigherOrder.gimli_permutation, for_down, GimliSpec.gimli.
  change (reverse (seqZ 1 (4 - 1 + 1))) with [4; 3; 2; 1].
  apply (iter_foldl _ GimliSpec.round word_state); [done|].
  intros r s' Hr Hs'. apply round_spec; [done|].
  repeat (apply elem_of_cons in Hr as [->|Hr]; [lia|]).
  by apply elem_of_nil in Hr.
Qed.

(** C5. On every state of 12 32-bit words, [gimli_permutation] computes
    what the description says: the round counter runs from 4 down to 1;
    each round rewrites the three words of each column [col] in [[0, 4)]
    from [x = rotl32(state[col], 24)], [y = rotl32(state[col+4], 9)] and
    [z = state[col+8]] as [state[col+8] = x^(z<<1)^((y&z)<<2)],
    [state[col+4] = y^x^((x|z)<<1)], [state[col] = z^y^((x&y)<<3)] modulo
    [2^32]; then, if [round mod 4 == 0], it swaps words 0<->1 and 2<->3 and
    XORs [0x9e377900 ^ round] into word 0, and if [round mod 4 == 2] it
    swaps words 0<->2 and 1<->3. *)
Theorem gimli_permutation_refines (state : list Z) :
  word_state state →
  HigherOrder.gimli_permutation state = Some (GimliSpec.gimli state).
Proof. intros Hs. by apply gimli_permutation_spec. Qed.

Lemma gimli_permutation_refines_witness :
  HigherOrder.gimli_permutation [1; 0; 0; 0; 0; 0; 0; 0; 0; 0; 0; 0]
  = Some (GimliSpec.gimli [1; 0; 0; 0; 0; 0; 0; 0; 0; 0; 0; 0]).
Proof.
  apply gimli_permutation_refines.
  split; [reflexivity|]. repeat constructor; lia.
Defined.

(** ** The derivative *)

Lemma shl32_one i : 0 ≤ i < 32 → HigherOrder.shl32 1 i = 1 ≪ i.
Proof.
  intros Hi. unfold HigherOrder.shl32, HigherOrder.wrap32.
  rewrite Z.shiftl_1_l. apply Z.mod_small. split; [lia|].
  apply Z.pow_lt_mono_r; lia.
Qed.

Lemma shl_int_one i : 0 ≤ i < 31 → HigherOrder.shl_int 1 i = Some (1 ≪ i).
Proof.
  intros Hi. unfold HigherOrder.shl_int. case_decide as Hd; [done|].
  destruct Hd. rewrite Z.shiftl_1_l. split; [lia|]. split; [lia|].
  apply Z.pow_lt_mono_r; lia.
Qed.

(** [generate_bit_basis] fills the 32 cells with [1 << i]. *)
Lemma generate_bit_basis_spec basis0 :
  length basis0 = 32%nat →
  HigherOrder.generate_bit_basis basis0 = Some ((λ i, 1 ≪ i) <$> seqZ 0 32).
Proof.
  intros Hlen. unfold HigherOrder.generate_bit_basis, for_up.
  destruct (iter_fill (λ b : list Z, length b = 32%nat) rd (λ i, 1 ≪ i)
              (λ i b, wr b i (HigherOrder.shl32 1 i)) (seqZ 0 (32 - 0)))
    with basis0 as (b & -> & Hlb & Hcells & _); [|done|].
  - intros i b Hi Hb. apply elem_of_seqZ in Hi.
    destruct (wr_spec b i (HigherOrder.shl32 1 i))
      as (b' & Hw & Hl' & Hget & Hframe); [lia|].
    exists b'. split; [done|]. split; [congruence|].
    split; [by rewrite Hget, shl32_one by lia|done].
  - f_equal. apply (array_ext 32); [done|by rewrite length_fmap, length_seqZ|].
    intros i Hi. rewrite rd_fmap_seqZ by lia. apply Hcells, elem_of_seqZ. lia.
Qed.

(** The loop of [apply_diff] XORs into word [w] the masks that [subset]
    selects, one after the other. *)
Lemma apply_diff_loop base w subset (l : list Z) (v : Z) :
  (Z.to_nat w < length base)%nat → 0 ≤ w →
  (∀ i, i ∈ l → 0 ≤ i < 31) →
  iter (λ i temp,
          m ← HigherOrder.shl_int 1 i;
          if decide (Z.land subset m ≠ 0) then
            t ← rd temp w;
            b ← rd ((λ i, 1 ≪ i) <$> seqZ 0 32) i;
            wr temp w (Z.lxor t b)
          else Some temp) l (<[Z.to_nat w := v]> base)
  = Some (<[Z.to_nat w :=
             foldl Z.lxor v
               (filter (λ m, Z.land subset m ≠ 0) ((λ i, 1 ≪ i) <$> l))]> base).
Proof.
  intros Hw Hw0. revert v. induction l as [|i l IH]; intros v Hl; [done|].
  cbn [iter]. rewrite shl_int_one by apply Hl, list_elem_of_here.
  cbn [mbind option_bind]. rewrite fmap_cons, filter_cons.
  assert (∀ j, j ∈ l → 0 ≤ j < 31) as Hl'
    by (intros j Hj; by apply Hl, list_elem_of_further).
  case_decide; [|by apply IH].
  assert (rd (<[Z.to_nat w := v]> base) w = Some v) as ->.
  { unfold rd. case_decide; [|lia]. by apply list_lookup_insert_eq. }
  cbn [mbind option_bind].
  rewrite rd_fmap_seqZ by (specialize (Hl i (list_elem_of_here _ _)); lia).
  cbn [mbind option_bind].
  rewrite wr_insert by (rewrite length_insert; lia).
  cbn [mbind option_bind]. rewrite list_insert_insert_eq.
  by rewrite IH.
Qed.

Lemma apply_diff_spec base temp order w subset :
  length base = 12%nat → length temp = 12%nat → 0 ≤ w < 12 →
  0 ≤ order ≤ 31 →
  HigherOrder.apply_diff base temp order ((λ i, 1 ≪ i) <$> seqZ 0 32) w subset
  = Some (DerivativeSpec.perturb base w (chosen order subset)).
Proof.
  intros Hb Ht Hw Ho. unfold HigherOrder.apply_diff, HigherOrder.memcpy_words.
  case_decide as Hd; [|lia]. cbn [mbind option_bind].
  rewrite take_ge, drop_ge, app_nil_r by lia.
  unfold for_up, DerivativeSpec.perturb, chosen, DerivativeSpec.masks.
  rewrite Z.sub_0_r.
  rewrite <- (list_insert_id base (Z.to_nat w) (sel base w)) at 1.
  - apply apply_diff_loop; [lia..|].
    intros i Hi. apply elem_of_seqZ in Hi. lia.
  - apply list_lookup_lookup_total_lt. lia.
Qed.

Lemma foldl_lxor (a : Z) (l : list Z) :
  foldl Z.lxor a l = Z.lxor a (DerivativeSpec.xor_all l).
Proof.
  revert a. induction l as [|x l IH]; intros a; simpl.
  - by rewrite Z.lxor_0_r.
  - by rewrite IH, Z.lxor_assoc.
Qed.

Lemma xor_all_Permutation (l k : list Z) :
  l ≡ₚ k → DerivativeSpec.xor_all l = DerivativeSpec.xor_all k.
Proof.
  induction 1 as [|x l k _ IH|x y l|l k m _ IH1 _ IH2]; simpl.
  - done.
  - by rewrite IH.
  - rewrite <- !Z.lxor_assoc. f_equal. apply Z.lxor_comm.
  - by rewrite IH1.
Qed.

Lemma foldl_lxor_range (v : Z) (l : list Z) :
  0 ≤ v < 2 ^ 32 → Forall (λ m, 0 ≤ m < 2 ^ 32) l →
  0 ≤ foldl Z.lxor v l < 2 ^ 32.
Proof.
  intros Hv Hl. revert v Hv. induction Hl as [|m l Hm _ IH]; intros v Hv.
  - done.
  - simpl. apply IH. apply lxor_below_pow2; lia.
Qed.

Lemma masks_range order :
  order ≤ 32 → Forall (λ m, 0 ≤ m < 2 ^ 32) (DerivativeSpec.masks order).
Proof.
  intros Ho. apply Forall_fmap, Forall_forall. intros i Hi.
  apply elem_of_seqZ in Hi. simpl. rewrite Z.shiftl_1_l.
  split; [lia|]. apply Z.pow_lt_mono_r; lia.
Qed.

Lemma subsets_sublist {A} (l S : list A) :
  S ∈ DerivativeSpec.subsets l → S ⊆ l.
Proof.
  revert S. induction l as [|x l IH]; intros S; simpl.
  - intros HS%list_elem_of_singleton. by subst.
  - rewrite elem_of_app, list_elem_of_fmap.
    intros [HS|(S' & -> & HS')].
    + intros y Hy. apply list_elem_of_further. by apply (IH S).
    + intros y [->|Hy]%elem_of_cons; [apply list_elem_of_here|].
      apply list_elem_of_further. by apply (IH S').
Qed.

(** Perturbing a state of 32-bit words by masks of 32 bits gives one. *)
Lemma perturb_word_state base w (S : list Z) :
  word_state base → 0 ≤ w < 12 → Forall (λ m, 0 ≤ m < 2 ^ 32) S →
  word_state (DerivativeSpec.perturb base w S).
Proof.
  intros Hb Hw HS. unfold DerivativeSpec.perturb.
  destruct (word_state_word base (Z.to_nat w) Hb) as [_ Hv]; [lia|].
  apply word_state_insert; [done|lia|]. by apply foldl_lxor_range.
Qed.

Lemma output_word_spec s w :
  word_state s → 0 ≤ w < 12 →
  DerivativeSpec.output_word s w = Some (sel (GimliSpec.gimli s) w).
Proof.
  intros Hs Hw. unfold DerivativeSpec.output_word.
  destruct (gimli_permutation_spec s Hs) as [-> Hs'].
  cbn [mbind option_bind]. apply rd_sel. destruct Hs' as [-> _]. lia.
Qed.

Lemma mapM_total {A B} (f : A → option B) (g : A → B) (l : list A) :
  (∀ x, x ∈ l → f x = Some (g x)) → mapM f l = Some (g <$> l).
Proof.
  intros Hf. apply mapM_Some, Forall2_fmap_r, Forall2_same_length_lookup.
  split; [done|]. intros i x y Hx Hy. assert (x = y) as -> by congruence.
  apply Hf. by eapply list_elem_of_lookup_2.
Qed.

(** For the orders of the claim, the subsets the loop on [subset] goes
    through are all the subsets of the masks, each once. *)
Lemma chosen_subsets order :
  1 ≤ order ≤ 4 →
  chosen order <$> seqZ 0 (1 ≪ order)
  ≡ₚ DerivativeSpec.subsets (DerivativeSpec.masks order).
Proof.
  intros Ho.
  assert (order = 1 ∨ order = 2 ∨ order = 3 ∨ order = 4) as Hcases by lia.
  destruct Hcases as [-> | [-> | [-> | ->]]];
    by apply (bool_decide_unpack _); vm_compute.
Qed.

Section Derivative.
Variables (base : list Z) (w : Z).
Hypothesis Hbase : word_state base.
Hypothesis Hw : 0 ≤ w < 12.

(** Word [w] of the permutation of [base] perturbed by the masks [S]. *)
Let G (S : list Z) : Z :=
  sel (GimliSpec.gimli (DerivativeSpec.perturb base w S)) w.

Lemma chosen_range order subset :
  order ≤ 32 → Forall (λ m, 0 ≤ m < 2 ^ 32) (chosen order subset).
Proof.
  intros Ho. apply Forall_forall. intros m Hm.
  apply list_elem_of_filter in Hm as [_ Hm].
  by apply (proj1 (Forall_forall _ _) (masks_range order Ho)).
Qed.

(** One turn of the loop on [subset]. *)
Lemma derivative_step order subset (r : Z * list Z) :
  0 ≤ order ≤ 31 → length r.2 = 12%nat →
  (temp ← HigherOrder.apply_diff base r.2 order
            ((λ i, 1 ≪ i) <$> seqZ 0 32) w subset;
   temp ← HigherOrder.gimli_permutation temp;
   v ← rd temp w;
   Some (Z.lxor r.1 v, temp))
  = Some (Z.lxor r.1 (G (chosen order subset)),
          GimliSpec.gimli (DerivativeSpec.perturb base w (chosen order subset))).
Proof.
  intros Ho Hr. destruct Hbase as [Hlen _].
  rewrite apply_diff_spec by done. cbn [mbind option_bind].
  assert (word_state (DerivativeSpec.perturb base w (chosen order subset)))
    as Hp by (apply perturb_word_state; [done..|apply chosen_range; lia]).
  destruct (gimli_permutation_spec _ Hp) as [-> [Hlen' _]].
  cbn [mbind option_bind]. rewrite rd_sel by lia. done.
Qed.

Lemma derivative_fold order (l : list Z) (r : Z * list Z) :
  (foldl (λ r subset,
            (Z.lxor r.1 (G (chosen order subset)),
             GimliSpec.gimli
               (DerivativeSpec.perturb base w (chosen order subset)))) r l).1
  = foldl Z.lxor r.1 (G <$> (chosen order <$> l)).
Proof. revert r. induction l as [|s l IH]; intros r; [done|]. apply IH. Qed.

(** [compute_derivative] XORs the output word over the subsets that the
    loop counter selects. *)
Lemma compute_derivative_spec order basis0 temp0 :
  0 ≤ order ≤ 30 → length basis0 = 32%nat → length temp0 = 12%nat →
  HigherOrder.compute_derivative base w order basis0 temp0
  = Some (DerivativeSpec.xor_all
            (G <$> (chosen order <$> seqZ 0 (1 ≪ order)))).
Proof.
  intros Ho Hb Ht. unfold HigherOrder.compute_derivative.
  rewrite generate_bit_basis_spec by done. cbn [mbind option_bind].
  rewrite shl_int_one by lia. cbn [mbind option_bind].
  unfold for_up. rewrite Z.sub_0_r.
  destruct (iter_foldl
              (λ subset (r : Z * list Z),
                 temp ← HigherOrder.apply_diff base r.2 order
                          ((λ i, 1 ≪ i) <$> seqZ 0 32) w subset;
                 temp ← HigherOrder.gimli_permutation temp;
                 v ← rd temp w;
                 Some (Z.lxor r.1 v, temp))
              (λ r subset,
                 (Z.lxor r.1 (G (chosen order subset)),
                  GimliSpec.gimli
                    (DerivativeSpec.perturb base w (chosen order subset))))
              (λ r, length r.2 = 12%nat)
              (seqZ 0 (1 ≪ order)) (0, temp0)) as [-> _]; [done| |].
  - intros subset r _ Hr. split; [apply derivative_step; [lia|done]|].
    cbv beta. cbn [snd].
    assert (word_state (DerivativeSpec.perturb base w (chosen order subset)))
      as Hp by (apply perturb_word_state; [done..|apply chosen_range; lia]).
    by destruct (gimli_permutation_spec _ Hp) as [_ [Hl _]].
  - cbn [mbind option_bind]. by rewrite derivative_fold, foldl_lxor.
Qed.

(** The derivative of the description is the XOR of the output word over
    all subsets of the masks. *)
Lemma derivative_value order :
  order ≤ 32 →
  DerivativeSpec.derivative base w order
  = Some (DerivativeSpec.xor_all
            (G <$> DerivativeSpec.subsets (DerivativeSpec.masks order))).
Proof.
  intros Ho. unfold DerivativeSpec.derivative.
  rewrite (mapM_total _ G); [done|].
  intros S HS. apply output_word_spec; [|done].
  apply perturb_word_state; [done..|].
  apply Forall_forall. intros m Hm.
  apply (proj1 (Forall_forall _ _) (masks_range order Ho)).
  by apply (subsets_sublist _ S).
Qed.

Lemma perturb_nil : DerivativeSpec.perturb base w [] = base.
Proof.
  unfold DerivativeSpec.perturb. simpl. apply list_insert_id.
  apply list_lookup_lookup_total_lt. destruct Hbase as [-> _]. lia.
Qed.

End Derivative.

(** C4. For every state [base] of 12 32-bit words, every [word_index] in
    [[0, 12)] and every [order] in [[1, 4]], whatever the local arrays hold
    at first, [compute_derivative(base, word_index, order)] returns the XOR,
    over all [2^order] subsets [S] of the masks [1<<0], ..., [1<<(order-1)],
    of word [word_index] of [gimli_permutation] applied to [base] with the
    masks of [S] XORed into word [word_index]; for order 1 that is
    [gimli_permutation(base)[word_index]] XOR
    [gimli_permutation(base with bit 0 of that word flipped)[word_index]]. *)
Theorem compute_derivative_xor_over_subsets base word_index order basis0 temp0 :
  word_state base → 0 ≤ word_index < 12 → 1 ≤ order ≤ 4 →
  length basis0 = 32%nat → length temp0 = 12%nat →
  (∃ d,
     HigherOrder.compute_derivative base word_index order basis0 temp0
     = Some d ∧
     DerivativeSpec.derivative base word_index order = Some d) ∧
  (∃ p q,
     HigherOrder.gimli_permutation base = Some p ∧
     HigherOrder.gimli_permutation
       (<[Z.to_nat word_index := Z.lxor (sel base word_index) 1]> base)
     = Some q ∧
     HigherOrder.compute_derivative base word_index 1 basis0 temp0
     = Some (Z.lxor (sel p word_index) (sel q word_index))).
Proof.
  intros Hbase Hw Ho Hb Ht. split.
  - eexists. split; [apply compute_derivative_spec; [done|done|lia|done..]|].
    rewrite derivative_value by (done || lia). f_equal.
    apply xor_all_Permutation, fmap_Permutation. symmetry.
    by apply chosen_subsets.
  - exists (GimliSpec.gimli base),
      (GimliSpec.gimli
         (<[Z.to_nat word_index := Z.lxor (sel base word_index) 1]> base)).
    split; [by apply gimli_permutation_spec|].
    assert (word_state
              (<[Z.to_nat word_index := Z.lxor (sel base word_index) 1]> base))
      as Hflip by (apply (perturb_word_state base word_index [1]);
                   [done..|repeat constructor; lia]).
    split; [by apply gimli_permutation_spec|].
    rewrite compute_derivative_spec by (done || lia).
    change (chosen 1 <$> seqZ 0 (1 ≪ 1)) with [[]; [1]].
    cbn [fmap list_fmap DerivativeSpec.xor_all foldr].
    rewrite perturb_nil by done. by rewrite Z.lxor_0_r.
Qed.

Lemma compute_derivative_xor_over_subsets_witness :
  (∃ d,
     HigherOrder.compute_derivative [1; 0; 0; 0; 0; 0; 0; 0; 0; 0; 0; 0] 4 3
       (replicate 32 0) (replicate 12 0) = Some d ∧
     DerivativeSpec.derivative [1; 0; 0; 0; 0; 0; 0; 0; 0; 0; 0; 0] 4 3
     = Some d) ∧
  (∃ p q,
     HigherOrder.gimli_permutation [1; 0; 0; 0; 0; 0; 0; 0; 0; 0; 0; 0]
     = Some p ∧
     HigherOrder.gimli_permutation
       (<[Z.to_nat 4 := Z.lxor (sel [1; 0; 0; 0; 0; 0; 0; 0; 0; 0; 0; 0] 4) 1]>
          [1; 0; 0; 0; 0; 0; 0; 0; 0; 0; 0; 0]) = Some q ∧
     HigherOrder.compute_derivative [1; 0; 0; 0; 0; 0; 0; 0; 0; 0; 0; 0] 4 1
       (replicate 32 0) (replicate 12 0)
     = Some (Z.lxor (sel p 4) (sel q 4))).
Proof.
  apply compute_derivative_xor_over_subsets.
  - split; [reflexivity|]. repeat constructor; lia.
  - lia.
  - lia.
  - reflexivity.
  - reflexivity.
Defined.

(** * Further properties of the code *)

(** ** The two tables of [bdt.c] *)

Lemma solution_count_range N sbox inv_sbox din nabla dout :
  0 ≤ N → 0 ≤ solution_count N sbox inv_sbox din nabla dout ≤ N.
Proof.
  intros HN. unfold solution_count, solutions.
  pose proof (length_filter
    (λ x, boomerang_return sbox inv_sbox din nabla x = dout) (seqZ 0 N)) as H.
  rewrite length_seqZ in H. lia.
Qed.

(** The diagonal [d1 = d0] of the table of [compute_bdt] is the table of
    [compute_bct]. *)
Theorem bdt_diagonal_is_bct sbox inv_sbox bct0 bdt0 :
  well_formed 8 sbox inv_sbox → shape2 8 bct0 → shape3 8 bdt0 →
  ∃ bct bdt,
    Bdt.compute_bct sbox inv_sbox bct0 = Some bct ∧
    Bdt.compute_bdt sbox inv_sbox bdt0 = Some bdt ∧
    ∀ d0 nabla0, 0 ≤ d0 < 8 → 0 ≤ nabla0 < 8 →
      rd3 bdt d0 d0 nabla0 = rd2 bct d0 nabla0.
Proof.
  intros Hwf Hs2 Hs3. eexists _, _.
  split; [by apply Bdt_compute_bct_table|].
  split; [by apply Bdt_compute_bdt_table|].
  intros d0 nabla0 Hd Hn. by rewrite rd3_table3, rd2_table2.
Qed.

Lemma bdt_diagonal_is_bct_witness :
  ∃ bct bdt,
    Bdt.compute_bct Bdt.SBOX Bdt.INV_SBOX (replicate 8 (replicate 8 0))
    = Some bct ∧
    Bdt.compute_bdt Bdt.SBOX Bdt.INV_SBOX
      (replicate 8 (replicate 8 (replicate 8 0))) = Some bdt ∧
    ∀ d0 nabla0, 0 ≤ d0 < 8 → 0 ≤ nabla0 < 8 →
      rd3 bdt d0 d0 nabla0 = rd2 bct d0 nabla0.
Proof.
  apply bdt_diagonal_is_bct.
  - split; [reflexivity|]. split; [reflexivity|]. repeat constructor; lia.
  - split; [reflexivity|]. repeat constructor.
  - split; [reflexivity|]. repeat constructor.
Defined.

(** Every entry of the tables is a count between 0 and the size of the
    S-box. *)
Theorem table_entries_bounded :
  (∀ sbox inv_sbox bct0 bdt0,
     well_formed 8 sbox inv_sbox → shape2 8 bct0 → shape3 8 bdt0 →
     ∃ bct bdt,
       Bdt.compute_bct sbox inv_sbox bct0 = Some bct ∧
       Bdt.compute_bdt sbox inv_sbox bdt0 = Some bdt ∧
       (∀ a b, 0 ≤ a < 8 → 0 ≤ b < 8 →
          ∃ c, rd2 bct a b = Some c ∧ 0 ≤ c ≤ 8) ∧
       (∀ d0 d1 nabla0, 0 ≤ d0 < 8 → 0 ≤ d1 < 8 → 0 ≤ nabla0 < 8 →
          ∃ c, rd3 bdt d0 d1 nabla0 = Some c ∧ 0 ≤ c ≤ 8)) ∧
  (∀ sbox inv_sbox bct0 out,
     well_formed 16 sbox inv_sbox → shape2 16 bct0 →
     ∃ bct out',
       BctPresent.compute_bct sbox inv_sbox bct0 out = Some (bct, out') ∧
       ∀ a b, 0 ≤ a < 16 → 0 ≤ b < 16 →
         ∃ c, rd2 bct a b = Some c ∧ 0 ≤ c ≤ 16).
Proof.
  split.
  - intros sbox inv_sbox bct0 bdt0 Hwf Hs2 Hs3. eexists _, _.
    split; [by apply Bdt_compute_bct_table|].
    split; [by apply Bdt_compute_bdt_table|]. split.
    + intros a b Ha Hb. eexists. split; [by apply rd2_table2|].
      by apply solution_count_range.
    + intros d0 d1 nabla0 H0 H1 Hn. eexists. split; [by apply rd3_table3|].
      by apply solution_count_range.
  - intros sbox inv_sbox bct0 out Hwf Hs.
    destruct (BctPresent_compute_bct_table sbox inv_sbox Hwf)
      as (printed & _ & Hrun).
    eexists _, _. split; [by apply Hrun|].
    intros a b Ha Hb. eexists. split; [by apply rd2_table2|].
    by apply solution_count_range.
Qed.

Lemma table_entries_bounded_witness :
  (∃ bct bdt,
     Bdt.compute_bct Bdt.SBOX Bdt.INV_SBOX (replicate 8 (replicate 8 0))
     = Some bct ∧
     Bdt.compute_bdt Bdt.SBOX Bdt.INV_SBOX
       (replicate 8 (replicate 8 (replicate 8 0))) = Some bdt ∧
     (∀ a b, 0 ≤ a < 8 → 0 ≤ b < 8 →
        ∃ c, rd2 bct a b = Some c ∧ 0 ≤ c ≤ 8) ∧
     (∀ d0 d1 nabla0, 0 ≤ d0 < 8 → 0 ≤ d1 < 8 → 0 ≤ nabla0 < 8 →
        ∃ c, rd3 bdt d0 d1 nabla0 = Some c ∧ 0 ≤ c ≤ 8)) ∧
  (∃ bct out',
     BctPresent.compute_bct BctPresent.SBOX BctPresent.INV_SBOX
       (replicate 16 (replicate 16 0)) [] = Some (bct, out') ∧
     ∀ a b, 0 ≤ a < 16 → 0 ≤ b < 16 →
       ∃ c, rd2 bct a b = Some c ∧ 0 ≤ c ≤ 16).
Proof.
  split.
  - apply (proj1 table_entries_bounded).
    + split; [reflexivity|]. split; [reflexivity|]. repeat constructor; lia.
    + split; [reflexivity|]. repeat constructor.
    + split; [reflexivity|]. repeat constructor.
  - apply (proj2 table_entries_bounded).
    + split; [reflexivity|]. split; [reflexivity|]. repeat constructor; lia.
    + split; [reflexivity|]. repeat constructor.
Defined.

(** A count is zero when no [x] is a solution. *)
Lemma solution_count_none N sbox inv_sbox din nabla dout :
  (∀ x, 0 ≤ x < N → boomerang_return sbox inv_sbox din nabla x ≠ dout) →
  solution_count N sbox inv_sbox din nabla dout = 0.
Proof.
  intros Hnone. unfold solution_count, solutions.
  assert (filter (λ x, boomerang_return sbox inv_sbox din nabla x = dout)
            (seqZ 0 N) = []) as ->; [|done].
  apply elem_of_nil_inv. intros x Hx.
  apply list_elem_of_filter in Hx as [Hsol Hx]. apply elem_of_seqZ in Hx.
  by apply (Hnone x ltac:(lia)).
Qed.

(** The plane [d0 = 0] of the table of [compute_bdt] has 8 in the row
    [d1 = 0] and 0 elsewhere; when the arrays invert each other the column
    [nabla0 = 0] has 8 on the diagonal [d1 = d0] and 0 elsewhere. *)
Theorem compute_bdt_boundary sbox inv_sbox bdt0 :
  well_formed 8 sbox inv_sbox → shape3 8 bdt0 →
  ∃ bdt,
    Bdt.compute_bdt sbox inv_sbox bdt0 = Some bdt ∧
    (∀ d1 nabla0, 0 ≤ d1 < 8 → 0 ≤ nabla0 < 8 →
       rd3 bdt 0 d1 nabla0 = Some (if decide (d1 = 0) then 8 else 0)) ∧
    (mutual_inverses 8 sbox inv_sbox →
     ∀ d0 d1, 0 ≤ d0 < 8 → 0 ≤ d1 < 8 →
       rd3 bdt d0 d1 0 = Some (if decide (d1 = d0) then 8 else 0)).
Proof.
  intros Hwf Hs. eexists. split; [by apply Bdt_compute_bdt_table|]. split.
  - intros d1 nabla0 H1 Hn. rewrite rd3_table3 by done. f_equal.
    case_decide as Hd; [subst; by apply solution_count_zero_in|].
    apply solution_count_none. intros x _.
    unfold boomerang_return. rewrite Z.lxor_0_r, Z.lxor_nilpotent. congruence.
  - intros Hmi d0 d1 H0 H1. rewrite rd3_table3 by done. f_equal.
    case_decide as Hd; [subst; by apply (solution_count_zero_out 3)|].
    apply solution_count_none. intros x Hx.
    unfold boomerang_return. rewrite !Z.lxor_0_r.
    pose proof (lxor_below_pow2 3 x d0 ltac:(lia) ltac:(lia) ltac:(lia)).
    rewrite !(mutual_inverses_sel 8) by (done || lia).
    rewrite <- Z.lxor_assoc, Z.lxor_nilpotent, Z.lxor_0_l. congruence.
Qed.

Lemma compute_bdt_boundary_witness :
  ∃ bdt,
    Bdt.compute_bdt Bdt.SBOX Bdt.INV_SBOX
      (replicate 8 (replicate 8 (replicate 8 0))) = Some bdt ∧
    (∀ d1 nabla0, 0 ≤ d1 < 8 → 0 ≤ nabla0 < 8 →
       rd3 bdt 0 d1 nabla0 = Some (if decide (d1 = 0) then 8 else 0)) ∧
    (∀ d0 d1, 0 ≤ d0 < 8 → 0 ≤ d1 < 8 →
       rd3 bdt d0 d1 0 = Some (if decide (d1 = d0) then 8 else 0)).
Proof.
  destruct (compute_bdt_boundary Bdt.SBOX Bdt.INV_SBOX
              (replicate 8 (replicate 8 (replicate 8 0))))
    as (bdt & Hrun & Hrow & Hcol).
  - split; [reflexivity|]. split; [reflexivity|]. repeat constructor; lia.
  - split; [reflexivity|]. repeat constructor.
  - exists bdt. split; [exact Hrun|]. split; [exact Hrow|]. apply Hcol.
    intros v Hv. revert v Hv. apply (below_cases 8).
    repeat (constructor; [vm_compute; split; reflexivity|]). constructor.
Defined.

(** ** The sums of [main] and what they add up to *)

Lemma sumZ_app {A} (h : A → Z) (l k : list A) :
  sumZ h (l ++ k) = sumZ h l + sumZ h k.
Proof. induction l as [|x l IH]; simpl; [done|]. rewrite IH. lia. Qed.

Lemma sumZ_add {A} (h1 h2 : A → Z) (l : list A) :
  sumZ (λ d, h1 d + h2 d) l = sumZ h1 l + sumZ h2 l.
Proof. induction l as [|x l IH]; simpl; [done|]. rewrite IH. lia. Qed.

Lemma sumZ_zero {A} (l : list A) : sumZ (λ _, 0) l = 0.
Proof. induction l as [|x l IH]; simpl; [done|]. by rewrite IH. Qed.

Lemma sumZ_ext {A} (h1 h2 : A → Z) (l : list A) :
  (∀ d, d ∈ l → h1 d = h2 d) → sumZ h1 l = sumZ h2 l.
Proof.
  induction l as [|x l IH]; intros Hext; simpl; [done|].
  rewrite Hext by apply list_elem_of_here.
  rewrite IH; [done|]. intros d Hd. by apply Hext, list_elem_of_further.
Qed.

(** A value is counted once by the indices of [[0, n)], if it is one of
    them. *)
Lemma sumZ_indicator (v : Z) (n : nat) :
  sumZ (λ d, if decide (v = d) then 1 else 0) (seqZ 0 (Z.of_nat n))
  = if decide (0 ≤ v < Z.of_nat n) then 1 else 0.
Proof.
  induction n as [|n IH]; [by case_decide; [lia|]|].
  rewrite seqZ_S, sumZ_app, IH. simpl.
  repeat case_decide; lia.
Qed.

(** Sorting the elements of a list by the value of [g] among the indices
    of [[0, n)] counts those whose value is such an index. *)
Lemma count_by_value (g : Z → Z) (n : nat) (L : list Z) :
  sumZ (λ d, Z.of_nat (length (filter (λ x, g x = d) L)))
    (seqZ 0 (Z.of_nat n))
  = Z.of_nat (length (filter (λ x, 0 ≤ g x < Z.of_nat n) L)).
Proof.
  induction L as [|x L IH]; [apply sumZ_zero|].
  rewrite (sumZ_ext _ (λ d, (if decide (g x = d) then 1 else 0)
                            + Z.of_nat (length (filter (λ x, g x = d) L)))).
  - rewrite sumZ_add, IH, sumZ_indicator, filter_cons.
    case_decide; simpl; lia.
  - intros d _. rewrite filter_cons. case_decide; simpl; lia.
Qed.

Lemma rd3_cell3 N (t : list (list (list Z))) a b c :
  shape3 N t → 0 ≤ a < N → 0 ≤ b < N → 0 ≤ c < N →
  rd3 t a b c = Some (cell3 t a b c).
Proof.
  intros Ht Ha Hb Hc. unfold cell3.
  destruct (wr3_spec N t a b c 0 Ht Ha Hb Hc) as (t' & Hw & _).
  unfold wr3 in Hw. unfold rd3, rd2.
  destruct (rd t a) as [plane|] eqn:Hplane; [|done]. simpl in *.
  unfold wr2 in Hw.
  destruct (rd plane b) as [row|] eqn:Hrow; [|done]. simpl in *.
  destruct (wr row c 0) as [row'|] eqn:Hwr; [|done].
  unfold wr in Hwr. case_decide; [|done].
  destruct (rd_is_Some row c) as [v ->]; done.
Qed.

Lemma rd2_cell2 N (t : list (list Z)) a b :
  shape2 N t → 0 ≤ a < N → 0 ≤ b < N → rd2 t a b = Some (cell2 t a b).
Proof.
  intros Ht Ha Hb. unfold cell2.
  destruct (wr2_spec N t a b 0 Ht Ha Hb) as (t' & Hw & _).
  unfold wr2 in Hw. unfold rd2.
  destruct (rd t a) as [row|] eqn:Hrow; [|done]. simpl in *.
  destruct (wr row b 0) as [row'|] eqn:Hwr; [|done].
  unfold wr in Hwr. case_decide; [|done].
  destruct (rd_is_Some row b) as [v ->]; done.
Qed.

Lemma shape3_table3 N f : shape3 N (table3 N f).
Proof.
  split.
  - unfold table3. by rewrite length_fmap, length_seqZ.
  - apply Forall_fmap, Forall_forall. intros a _. apply shape2_table2.
Qed.

(** A cell of a table is one of its entries. *)
Lemma cell3_cells_in lo hi (t : list (list (list Z))) a b c :
  shape3 8 t → cells_in lo hi t → 0 ≤ a < 8 → 0 ≤ b < 8 → 0 ≤ c < 8 →
  lo ≤ cell3 t a b c < hi.
Proof.
  intros Hs Hin Ha Hb Hc.
  pose proof (rd3_cell3 8 t a b c Hs Ha Hb Hc) as Hrd.
  unfold rd3, rd2, rd in Hrd. repeat case_decide; try lia.
  destruct (t !! Z.to_nat a) as [plane|] eqn:Hplane; [|done]. simpl in Hrd.
  destruct (plane !! Z.to_nat b) as [row|] eqn:Hrow; [|done]. simpl in Hrd.
  pose proof (proj1 (Forall_lookup _ _) Hin _ _ Hplane) as Hp.
  pose proof (proj1 (Forall_lookup _ _) Hp _ _ Hrow) as Hr.
  apply (proj1 (Forall_lookup _ _) Hr _ _ Hrd).
Qed.

Lemma cells_in_table3 lo hi N (f : Z → Z → Z → Z) :
  (∀ a b c, lo ≤ f a b c < hi) → cells_in lo hi (table3 N f).
Proof.
  intros Hf. unfold cells_in, table3, table2.
  apply Forall_fmap, Forall_forall. intros a _.
  apply Forall_fmap, Forall_forall. intros b _.
  apply Forall_fmap, Forall_forall. intros c _. apply Hf.
Qed.

(** The loop on [d1] of [main] adds up the cells of a column, as long as
    the cells are small enough for the eight of them to add up in an
    [int]. *)
Lemma sum_d1_spec (bdt : list (list (list Z))) d0 nabla0 :
  shape3 8 bdt → 0 ≤ d0 < 8 → 0 ≤ nabla0 < 8 →
  (∀ d1, 0 ≤ d1 < 8 → - 2 ^ 28 ≤ cell3 bdt d0 d1 nabla0 < 2 ^ 28) →
  Bdt.sum_d1 bdt d0 nabla0 = Some (sum_over_d1 bdt d0 nabla0).
Proof.
  intros Hs H0 Hn Hsmall. unfold Bdt.sum_d1, sum_over_d1, for_up.
  rewrite Z.sub_0_r.
  assert (∀ l acc k, (∀ d1, d1 ∈ l → 0 ≤ d1 < 8) →
            0 ≤ k → k + Z.of_nat (length l) ≤ 8 →
            - 2 ^ 28 * k ≤ acc ≤ (2 ^ 28 - 1) * k →
            iter (λ d1 sum, v ← rd3 bdt d0 d1 nabla0; int_add sum v) l acc
            = Some (acc + sumZ (λ d1, cell3 bdt d0 d1 nabla0) l)) as Hloop.
  { induction l as [|d1 l IH]; intros acc k Hl Hk Hlen Hacc; simpl.
    - f_equal. lia.
    - rewrite (rd3_cell3 8) by (done || apply Hl, list_elem_of_here). simpl.
      pose proof (Hsmall d1 (Hl d1 (list_elem_of_here _ _))) as Hv.
      simpl in Hlen. unfold int_add. rewrite decide_True by lia.
      cbn [mbind option_bind].
      rewrite (IH _ (k + 1)); [f_equal; lia| |lia|lia|lia].
      intros d Hd. by apply Hl, list_elem_of_further. }
  rewrite (Hloop _ 0 0); [done| |done|by vm_compute|lia].
  intros d1 Hd1. apply elem_of_seqZ in Hd1. lia.
Qed.

(** The sum of a column in which an [int] overflows is undefined: with
    cells that are not negative, that is a column whose cells add up to
    [2^31] or more. *)
Lemma sum_d1_overflow (bdt : list (list (list Z))) d0 nabla0 :
  shape3 8 bdt → 0 ≤ d0 < 8 → 0 ≤ nabla0 < 8 →
  (∀ d1, 0 ≤ d1 < 8 → 0 ≤ cell3 bdt d0 d1 nabla0) →
  2 ^ 31 ≤ sum_over_d1 bdt d0 nabla0 →
  Bdt.sum_d1 bdt d0 nabla0 = None.
Proof.
  intros Hs H0 Hn Hpos Hbig. unfold Bdt.sum_d1, for_up.
  unfold sum_over_d1 in Hbig. rewrite Z.sub_0_r.
  assert (∀ l acc, (∀ d1, d1 ∈ l → 0 ≤ d1 < 8) → 0 ≤ acc < 2 ^ 31 →
            2 ^ 31 ≤ acc + sumZ (λ d1, cell3 bdt d0 d1 nabla0) l →
            iter (λ d1 sum, v ← rd3 bdt d0 d1 nabla0; int_add sum v) l acc
            = None) as Hloop.
  { induction l as [|d1 l IH]; intros acc Hl Hacc Hsum; simpl in *.
    - lia.
    - rewrite (rd3_cell3 8) by (done || apply Hl, list_elem_of_here). simpl.
      pose proof (Hpos d1 (Hl d1 (list_elem_of_here _ _))) as Hv.
      unfold int_add. case_decide as Hfit; [|done].
      cbn [mbind option_bind]. apply IH; [|lia|lia].
      intros d Hd. by apply Hl, list_elem_of_further. }
  apply Hloop; [|done|lia].
  intros d1 Hd1. apply elem_of_seqZ in Hd1. lia.
Qed.

(** The sums of [main] on the table of [compute_bdt]. *)
Lemma sum_d1_computed sbox inv_sbox bdt0 :
  well_formed 8 sbox inv_sbox → shape3 8 bdt0 →
  ∃ bdt,
    Bdt.compute_bdt sbox inv_sbox bdt0 = Some bdt ∧
    ∀ d0 nabla0, 0 ≤ d0 < 8 → 0 ≤ nabla0 < 8 →
      Bdt.sum_d1 bdt d0 nabla0
      = Some (returns_in_range 8 sbox inv_sbox d0 nabla0) ∧
      (Forall (λ v, 0 ≤ v < 8) inv_sbox →
       Bdt.sum_d1 bdt d0 nabla0 = Some 8).
Proof.
  intros Hwf Hs. eexists. split; [by apply Bdt_compute_bdt_table|].
  intros d0 nabla0 H0 Hn.
  assert (Bdt.sum_d1
            (table3 8 (λ d0 d1 nabla0,
                         solution_count 8 sbox inv_sbox d0 nabla0 d1))
            d0 nabla0
          = Some (returns_in_range 8 sbox inv_sbox d0 nabla0)) as Hsum.
  { rewrite sum_d1_spec; [|apply shape3_table3|done..|]; cycle 1.
    { intros d1 Hd1. unfold cell3. rewrite rd3_table3 by lia. simpl.
      pose proof (solution_count_range 8 sbox inv_sbox d0 nabla0 d1).
      lia. }
    f_equal.
    unfold sum_over_d1, returns_in_range.
    rewrite (sumZ_ext _ (λ d1, solution_count 8 sbox inv_sbox d0 nabla0 d1)).
    - apply (count_by_value _ 8).
    - intros d1 Hd1. apply elem_of_seqZ in Hd1.
      unfold cell3. by rewrite rd3_table3 by lia. }
  split; [done|]. intros Hinv. rewrite Hsum. f_equal.
  unfold returns_in_range. rewrite filter_all; [by rewrite length_seqZ|].
  intros x Hx. apply elem_of_seqZ in Hx. unfold boomerang_return.
  destruct Hwf as (Hls & Hli & Hall).
  assert (∀ i, 0 ≤ i < 8 → 0 ≤ sel sbox i < 8) as Hsb.
  { intros i Hi. apply (proj1 (Forall_lookup _ _) Hall (Z.to_nat i)).
    apply list_lookup_lookup_total_lt. lia. }
  assert (∀ i, 0 ≤ i < 8 → 0 ≤ sel inv_sbox i < 8) as Hiv.
  { intros i Hi. apply (proj1 (Forall_lookup _ _) Hinv (Z.to_nat i)).
    apply list_lookup_lookup_total_lt. lia. }
  assert (∀ u v, 0 ≤ u < 8 → 0 ≤ v < 8 → 0 ≤ Z.lxor u v < 8) as Hxor
    by (intros u v; apply (lxor_below_pow2 3); lia).
  apply Hxor; apply Hiv, Hxor; (apply Hsb || idtac); (apply Hxor || idtac); lia.
Qed.

(** What [main] adds up: the sum over [d1] of [bdt[d0][d1][nabla0]] is the
    number of [x] whose boomerang comes back with a difference in [[0, 8)],
    that is 8 as soon as the entries of [inv_sbox] lie in [[0, 8)],
    whatever the S-box. *)
Theorem sum_over_d1_counts_every_x sbox inv_sbox bdt0 :
  well_formed 8 sbox inv_sbox → shape3 8 bdt0 →
  ∃ bdt,
    Bdt.compute_bdt sbox inv_sbox bdt0 = Some bdt ∧
    ∀ d0 nabla0, 0 ≤ d0 < 8 → 0 ≤ nabla0 < 8 →
      Bdt.sum_d1 bdt d0 nabla0
      = Some (returns_in_range 8 sbox inv_sbox d0 nabla0) ∧
      (Forall (λ v, 0 ≤ v < 8) inv_sbox →
       Bdt.sum_d1 bdt d0 nabla0 = Some 8).
Proof. apply sum_d1_computed. Qed.

Lemma sum_over_d1_counts_every_x_witness :
  ∃ bdt,
    Bdt.compute_bdt Bdt.SBOX Bdt.INV_SBOX
      (replicate 8 (replicate 8 (replicate 8 0))) = Some bdt ∧
    ∀ d0 nabla0, 0 ≤ d0 < 8 → 0 ≤ nabla0 < 8 →
      Bdt.sum_d1 bdt d0 nabla0
      = Some (returns_in_range 8 Bdt.SBOX Bdt.INV_SBOX d0 nabla0) ∧
      Bdt.sum_d1 bdt d0 nabla0 = Some 8.
Proof.
  destruct (sum_over_d1_counts_every_x Bdt.SBOX Bdt.INV_SBOX
              (replicate 8 (replicate 8 (replicate 8 0))))
    as (bdt & Hrun & Hsum).
  - split; [reflexivity|]. split; [reflexivity|]. repeat constructor; lia.
  - split; [reflexivity|]. repeat constructor.
  - exists bdt. split; [exact Hrun|]. intros d0 nabla0 H0 Hn.
    destruct (Hsum d0 nabla0 H0 Hn) as [Hcount Hall].
    split; [exact Hcount|]. apply Hall. repeat constructor; lia.
Defined.

(** ** The check of [main] in [bdt.c], on any pair of tables *)

(** A loop that keeps an invariant of the indices gone through and the
    state runs to the end and establishes it for all the indices. *)
Lemma iter_invariant {I S} (body : I → S → option S)
    (Inv : list I → S → Prop) (l : list I) (s : S) :
  Inv [] s →
  (∀ done i s, Inv done s → i ∈ l →
     ∃ s', body i s = Some s' ∧ Inv (done ++ [i]) s') →
  ∃ s', iter body l s = Some s' ∧ Inv l s'.
Proof.
  intros Hinit Hstep.
  assert (∀ k pre s, Inv pre s → (∀ i, i ∈ k → i ∈ l) →
            ∃ s', iter body k s = Some s' ∧ Inv (pre ++ k) s') as Hgen.
  { induction k as [|i k IH]; intros pre s0 Hpre Hk; simpl.
    - exists s0. by rewrite app_nil_r.
    - destruct (Hstep pre i s0 Hpre) as (s1 & -> & Hs1);
        [apply Hk, list_elem_of_here|].
      simpl. destruct (IH (pre ++ [i]) s1 Hs1) as (s' & Hrun & Hs').
      { intros j Hj. by apply Hk, list_elem_of_further. }
      exists s'. split; [done|]. by rewrite <- app_assoc in Hs'. }
  by apply (Hgen l [] s).
Qed.

Lemma elem_of_pairs8 (d0 nabla0 : Z) :
  (d0, nabla0) ∈ pairs8 ↔ 0 ≤ d0 < 8 ∧ 0 ≤ nabla0 < 8.
Proof. apply (elem_of_pairs 8). Qed.

(** A loop one of whose steps is undefined in every state is undefined. *)
Lemma iter_None {I S} (body : I → S → option S) (l : list I) (s : S) i :
  i ∈ l → (∀ s, body i s = None) → iter body l s = None.
Proof.
  intros Hi Hnone. revert s.
  induction l as [|j l IH]; intros s; [by inversion Hi|]. simpl.
  apply elem_of_cons in Hi as [->|Hi]; [by rewrite Hnone|].
  destruct (body j s) as [s1|]; [|done]. simpl. by apply IH.
Qed.

(** The loops of the check, with their invariant. *)
Lemma verify_spec bct bdt out :
  shape2 8 bct → shape3 8 bdt → cells_in (- 2 ^ 28) (2 ^ 28) bdt →
  ∃ st lines,
    Bdt.verify bct bdt out = Some st ∧
    Bdt.valid_count st = Z.of_nat (length (matching_pairs bct bdt)) ∧
    0 ≤ Bdt.valid_count st ≤ 64 ∧
    (Bdt.all_ok st = 0 ∨ Bdt.all_ok st = 1) ∧
    (Bdt.all_ok st = 1 ↔ Bdt.valid_count st = 64) ∧
    Bdt.check_out st = out ++ lines ∧ length lines = 64%nat.
Proof.
  intros Hs2 Hs3 Hsmall. unfold Bdt.verify, for_up. rewrite !Z.sub_0_r.
  pose (good := λ p : Z * Z, sum_over_d1 bdt p.1 p.2 = cell2 bct p.1 p.2).
  rewrite (iter_nest (λ (p : Z * Z) st,
             sum ← Bdt.sum_d1 bdt p.1 p.2;
             c ← rd2 bct p.1 p.2;
             if decide (sum = c) then
               Some (Bdt.CheckState (Bdt.all_ok st) (Bdt.valid_count st + 1)
                 (printf "✔ Valid: Δ0=%X, ∇0=%X  (Sum=%d, BCT=%d)\n"
                    [p.1; p.2; sum; c] (Bdt.check_out st)))
             else
               Some (Bdt.CheckState 0 (Bdt.valid_count st)
                 (printf "✖ Mismatch: Δ0=%X, ∇0=%X  (Sum=%d, BCT=%d)\n"
                    [p.1; p.2; sum; c] (Bdt.check_out st))))).
  destruct (iter_invariant
    (λ (p : Z * Z) st,
       sum ← Bdt.sum_d1 bdt p.1 p.2;
       c ← rd2 bct p.1 p.2;
       if decide (sum = c) then
         Some (Bdt.CheckState (Bdt.all_ok st) (Bdt.valid_count st + 1)
           (printf "✔ Valid: Δ0=%X, ∇0=%X  (Sum=%d, BCT=%d)\n"
              [p.1; p.2; sum; c] (Bdt.check_out st)))
       else
         Some (Bdt.CheckState 0 (Bdt.valid_count st)
           (printf "✖ Mismatch: Δ0=%X, ∇0=%X  (Sum=%d, BCT=%d)\n"
              [p.1; p.2; sum; c] (Bdt.check_out st))))
    (λ done st,
       Bdt.valid_count st = Z.of_nat (length (filter good done)) ∧
       (Bdt.all_ok st = 0 ∨ Bdt.all_ok st = 1) ∧
       (Bdt.all_ok st = 1 ↔ Bdt.valid_count st = Z.of_nat (length done)) ∧
       ∃ lines, Bdt.check_out st = out ++ lines ∧ length lines = length done)
    (d0 ← seqZ 0 8; pair d0 <$> seqZ 0 8) (Bdt.CheckState 1 0 out))
    as (st & Hrun & Hcount & Hbool & Hall & lines & Hout & Hlines).
  - simpl. split; [done|]. split; [by right|]. split; [done|].
    exists []. by rewrite app_nil_r.
  - intros done [d0 nabla0] st (Hcount & Hbool & Hall & lines & Hout & Hlines)
      Hp.
    apply elem_of_pairs8 in Hp as [H0 Hn]. cbn [fst snd].
    rewrite sum_d1_spec
      by (done || intros d1 Hd1; by apply cell3_cells_in).
    cbn [mbind option_bind].
    rewrite (rd2_cell2 8) by done. cbn [mbind option_bind].
    pose proof (length_filter good done) as Hle.
    rewrite filter_app, !length_app, filter_cons, filter_nil. cbn [length].
    unfold good at 2. cbn [fst snd].
    case_decide as Hgood; eexists; (split; [done|]); cbn [Bdt.valid_count
      Bdt.all_ok Bdt.check_out length].
    + split; [lia|]. split; [done|]. split; [lia|].
      eexists (lines ++ [_]). unfold printf. rewrite Hout, <- app_assoc.
      split; [done|]. rewrite length_app. simpl. lia.
    + split; [lia|]. split; [by left|]. split; [lia|].
      eexists (lines ++ [_]). unfold printf. rewrite Hout, <- app_assoc.
      split; [done|]. rewrite length_app. simpl. lia.
  - exists st, lines. split; [done|].
    assert (length pairs8 = 64%nat) as Hlen by done.
    pose proof (length_filter good pairs8) as Hle.
    fold pairs8 in Hcount, Hall, Hlines. unfold matching_pairs. fold good.
    rewrite Hlen in *. repeat split; try done; lia.
Qed.

(** The check on a table with a column whose sum overflows. *)
Lemma verify_overflow bct bdt out d0 nabla0 :
  shape3 8 bdt → cells_in 0 (2 ^ 31) bdt →
  0 ≤ d0 < 8 → 0 ≤ nabla0 < 8 →
  2 ^ 31 ≤ sum_over_d1 bdt d0 nabla0 →
  Bdt.verify bct bdt out = None.
Proof.
  intros Hs3 Hpos H0 Hn Hbig. unfold Bdt.verify, for_up. rewrite !Z.sub_0_r.
  rewrite (iter_nest (λ (p : Z * Z) st,
             sum ← Bdt.sum_d1 bdt p.1 p.2;
             c ← rd2 bct p.1 p.2;
             if decide (sum = c) then
               Some (Bdt.CheckState (Bdt.all_ok st) (Bdt.valid_count st + 1)
                 (printf "✔ Valid: Δ0=%X, ∇0=%X  (Sum=%d, BCT=%d)\n"
                    [p.1; p.2; sum; c] (Bdt.check_out st)))
             else
               Some (Bdt.CheckState 0 (Bdt.valid_count st)
                 (printf "✖ Mismatch: Δ0=%X, ∇0=%X  (Sum=%d, BCT=%d)\n"
                    [p.1; p.2; sum; c] (Bdt.check_out st))))).
  apply (iter_None _ _ _ (d0, nabla0)).
  - by apply elem_of_pairs8.
  - intros st. cbn [fst snd]. rewrite sum_d1_overflow; [done..| |done].
    intros d1 Hd1. by apply (cell3_cells_in 0 (2 ^ 31)).
Qed.

(** The check of [main] on any 8x8 table [bct] and 8x8x8 table [bdt].  When
    the cells of [bdt] lie in [[-2^28, 2^28)], so that eight of them add up
    in an [int], the check runs to the end without leaving the tables,
    prints one line for each of the 64 pairs after what was printed before,
    counts in [valid_count] the pairs where the sum over [d1] of [bdt]
    equals [bct], and leaves [all_ok] at 1 exactly when all 64 pairs are
    valid (otherwise at 0).  When the cells are not negative and those of
    some column [(d0, nabla0)] add up to [2^31] or more, [sum] overflows:
    the check is undefined. *)
Theorem verify_counts_matching_pairs bct bdt out :
  shape2 8 bct → shape3 8 bdt →
  (cells_in (- 2 ^ 28) (2 ^ 28) bdt →
   ∃ st lines,
     Bdt.verify bct bdt out = Some st ∧
     Bdt.valid_count st = Z.of_nat (length (matching_pairs bct bdt)) ∧
     0 ≤ Bdt.valid_count st ≤ 64 ∧
     (Bdt.all_ok st = 0 ∨ Bdt.all_ok st = 1) ∧
     (Bdt.all_ok st = 1 ↔ Bdt.valid_count st = 64) ∧
     Bdt.check_out st = out ++ lines ∧ length lines = 64%nat) ∧
  (cells_in 0 (2 ^ 31) bdt →
   ∀ d0 nabla0, 0 ≤ d0 < 8 → 0 ≤ nabla0 < 8 →
     2 ^ 31 ≤ sum_over_d1 bdt d0 nabla0 →
     Bdt.verify bct bdt out = None).
Proof.
  intros Hs2 Hs3. split.
  - intros Hsmall. by apply verify_spec.
  - intros Hpos d0 nabla0 H0 Hn Hbig. by apply (verify_overflow _ _ _ d0 nabla0).
Qed.

Lemma verify_counts_matching_pairs_witness :
  (∃ st lines,
     Bdt.verify (replicate 8 (replicate 8 2))
       (replicate 8 (replicate 8 (replicate 8 1))) [] = Some st ∧
     Bdt.valid_count st
     = Z.of_nat (length (matching_pairs (replicate 8 (replicate 8 2))
                           (replicate 8 (replicate 8 (replicate 8 1))))) ∧
     0 ≤ Bdt.valid_count st ≤ 64 ∧
     (Bdt.all_ok st = 0 ∨ Bdt.all_ok st = 1) ∧
     (Bdt.all_ok st = 1 ↔ Bdt.valid_count st = 64) ∧
     Bdt.check_out st = [] ++ lines ∧ length lines = 64%nat) ∧
  Bdt.verify (replicate 8 (replicate 8 0))
    (replicate 8 (replicate 8 (replicate 8 (2 ^ 29)))) [] = None.
Proof.
  split.
  - apply (verify_counts_matching_pairs (replicate 8 (replicate 8 2))
             (replicate 8 (replicate 8 (replicate 8 1))) []).
    + split; [reflexivity|]. repeat constructor.
    + split; [reflexivity|]. repeat constructor.
    + unfold cells_in. repeat apply Forall_replicate. lia.
  - apply (proj2 (verify_counts_matching_pairs (replicate 8 (replicate 8 0))
             (replicate 8 (replicate 8 (replicate 8 (2 ^ 29)))) []
             ltac:(split; [reflexivity|repeat constructor])
             ltac:(split; [reflexivity|repeat constructor]))
           ltac:(unfold cells_in; repeat apply Forall_replicate; lia)
           3 5).
    + lia.
    + lia.
    + by vm_compute.
Defined.

(** ** The printing functions *)

Lemma print_bct_prefix_stable bct : prefix_stable (Bdt.print_bct bct).
Proof.
  unfold Bdt.print_bct, for_up.
  apply (prefix_stable_printf_then _ []
           (λ out, iter _ _ (printf _ [] (printf _ [] (printf _ [] out)))
                   ≫= _)).
  apply (prefix_stable_printf_then _ []
           (λ out, iter _ _ (printf _ [] (printf _ [] out)) ≫= _)).
  apply (prefix_stable_printf_then _ []
           (λ out, iter _ _ (printf _ [] out) ≫= _)).
  apply (prefix_stable_printf_then _ [] (λ out, iter _ _ out ≫= _)).
  apply (prefix_stable_bind (iter _ _) (λ out, iter _ _ (printf _ [] out))).
  { apply prefix_stable_iter. intros j. apply prefix_stable_printf. }
  apply (prefix_stable_printf_then _ [] (iter _ _)).
  apply prefix_stable_iter. intros i.
  apply (prefix_stable_printf_then _ [i] (λ out, iter _ _ out ≫= _)).
  apply (prefix_stable_bind (iter _ _) (λ out, Some (printf _ [] out)));
    [|apply prefix_stable_printf].
  apply prefix_stable_iter. intros j.
  apply (prefix_stable_read (rd2 bct i j) (λ v out, Some (printf _ [v] out))).
  intros v. apply prefix_stable_printf.
Qed.

Lemma print_bdt_prefix_stable bdt : prefix_stable (Bdt.print_bdt bdt).
Proof.
  unfold Bdt.print_bdt, for_up.
  apply (prefix_stable_printf_then _ []
           (λ out, iter _ _ (printf _ [] (printf _ [] out)))).
  apply (prefix_stable_printf_then _ []
           (λ out, iter _ _ (printf _ [] out))).
  apply (prefix_stable_printf_then _ [] (iter _ _)).
  apply prefix_stable_iter. intros d0.
  apply (prefix_stable_printf_then _ [d0]
           (λ out, iter _ _ (printf _ [] out) ≫= _)).
  apply (prefix_stable_printf_then _ [] (λ out, iter _ _ out ≫= _)).
  apply (prefix_stable_bind (iter _ _) (λ out, iter _ _ (printf _ [] out))).
  { apply prefix_stable_iter. intros j. apply prefix_stable_printf. }
  apply (prefix_stable_printf_then _ [] (iter _ _)).
  apply prefix_stable_iter. intros d1.
  apply (prefix_stable_printf_then _ [d1] (λ out, iter _ _ out ≫= _)).
  apply (prefix_stable_bind (iter _ _) (λ out, Some (printf _ [] out)));
    [|apply prefix_stable_printf].
  apply prefix_stable_iter. intros nabla0.
  apply (prefix_stable_read (rd3 bdt d0 d1 nabla0)
           (λ v out, Some (printf _ [v] out))).
  intros v. apply prefix_stable_printf.
Qed.

(** A table of the right shape is the table of its cells. *)
Lemma shape2_table2_cells N (t : list (list Z)) :
  shape2 N t → t = table2 N (cell2 t).
Proof.
  intros Ht. apply table2_ext; [done|]. intros a b Ha Hb.
  by apply (rd2_cell2 N).
Qed.

Lemma shape3_table3_cells N (t : list (list (list Z))) :
  shape3 N t → t = table3 N (cell3 t).
Proof.
  intros Ht. apply table3_ext; [done|]. intros a b c Ha Hb Hc.
  by apply (rd3_cell3 N).
Qed.

(** The run of the printing loops on a table of the right shape. *)
Lemma print_bct_run bct :
  shape2 8 bct →
  ∃ printed,
    (∀ out, Bdt.print_bct bct out = Some (out ++ printed)) ∧
    length printed = 93%nat ∧
    printed_cells printed = concat bct.
Proof.
  intros Hs. rewrite (shape2_table2_cells 8 bct Hs).
  generalize (cell2 bct). intros f.
  destruct (Bdt.print_bct (table2 8 f) []) as [printed|] eqn:Hrun;
    [|by vm_compute in Hrun].
  exists printed. split.
  - intros out. rewrite <- (app_nil_r out) at 1.
    by rewrite print_bct_prefix_stable, Hrun.
  - vm_compute in Hrun. injection Hrun as <-. by vm_compute.
Qed.

(** [print_bct] stays inside an 8x8 table and appends 93 [printf] calls to
    the output; the cells it prints are those of the table, row after
    row. *)
Theorem print_bct_prints_rows bct :
  shape2 8 bct →
  ∃ printed,
    (∀ out, Bdt.print_bct bct out = Some (out ++ printed)) ∧
    length printed = 93%nat ∧
    printed_cells printed = concat bct.
Proof. apply print_bct_run. Qed.

Lemma print_bct_prints_rows_witness :
  ∃ printed,
    (∀ out, Bdt.print_bct (replicate 8 (replicate 8 0)) out
            = Some (out ++ printed)) ∧
    length printed = 93%nat ∧
    printed_cells printed = concat (replicate 8 (replicate 8 0)).
Proof.
  apply print_bct_prints_rows. split; [reflexivity|]. repeat constructor.
Defined.

(** The run of the printing loops on a table of the right shape. *)
Lemma print_bdt_run bdt :
  shape3 8 bdt →
  ∃ printed,
    (∀ out, Bdt.print_bdt bdt out = Some (out ++ printed)) ∧
    length printed = 731%nat ∧
    printed_cells printed = concat (concat bdt).
Proof.
  intros Hs. rewrite (shape3_table3_cells 8 bdt Hs).
  generalize (cell3 bdt). intros f.
  destruct (Bdt.print_bdt (table3 8 f) []) as [printed|] eqn:Hrun;
    [|by vm_compute in Hrun].
  exists printed. split.
  - intros out. rewrite <- (app_nil_r out) at 1.
    by rewrite print_bdt_prefix_stable, Hrun.
  - vm_compute in Hrun. injection Hrun as <-. by vm_compute.
Qed.

(** [print_bdt] stays inside an 8x8x8 table and appends 731 [printf] calls
    to the output; the cells it prints are those of the table, plane after
    plane ([d0]) and, in each plane, row after row ([d1]). *)
Theorem print_bdt_prints_planes bdt :
  shape3 8 bdt →
  ∃ printed,
    (∀ out, Bdt.print_bdt bdt out = Some (out ++ printed)) ∧
    length printed = 731%nat ∧
    printed_cells printed = concat (concat bdt).
Proof. apply print_bdt_run. Qed.

Lemma print_bdt_prints_planes_witness :
  ∃ printed,
    (∀ out, Bdt.print_bdt (replicate 8 (replicate 8 (replicate 8 0))) out
            = Some (out ++ printed)) ∧
    length printed = 731%nat ∧
    printed_cells printed
    = concat (concat (replicate 8 (replicate 8 (replicate 8 0)))).
Proof.
  apply print_bdt_prints_planes. split; [reflexivity|]. repeat constructor.
Defined.

(** What the [compute_bct] of [bct_present.c] prints is the table it
    computed, row after row: the printed cells are the cells of the table
    it leaves in [bct]. *)
Theorem BctPresent_compute_bct_prints_its_table sbox inv_sbox bct0 out :
  well_formed 16 sbox inv_sbox → shape2 16 bct0 →
  ∃ bct printed,
    BctPresent.compute_bct sbox inv_sbox bct0 out
    = Some (bct, out ++ printed) ∧
    printed_cells printed = concat bct.
Proof.
  intros Hwf Hs. unfold BctPresent.compute_bct.
  rewrite (bct_loops_spec 4) by done. cbn [mbind option_bind].
  generalize (λ a b, solution_count 16 sbox inv_sbox a b a). intros f.
  destruct (BctPresent.print_table (table2 16 f) []) as [printed|] eqn:Hrun;
    [|by vm_compute in Hrun].
  exists (table2 16 f), printed. split.
  - rewrite <- (app_nil_r out) at 1.
    by rewrite print_table_prefix_stable, Hrun.
  - vm_compute in Hrun. injection Hrun as <-. by vm_compute.
Qed.

Lemma BctPresent_compute_bct_prints_its_table_witness :
  ∃ bct printed,
    BctPresent.compute_bct BctPresent.SBOX BctPresent.INV_SBOX
      (replicate 16 (replicate 16 0)) [] = Some (bct, [] ++ printed) ∧
    printed_cells printed = concat bct.
Proof.
  apply BctPresent_compute_bct_prints_its_table.
  - split; [reflexivity|]. split; [reflexivity|]. repeat constructor; lia.
  - split; [reflexivity|]. repeat constructor.
Defined.

(** ** When the table loops leave the arrays *)

Lemma iter_Some_all {I S} (body : I → S → option S) (l : list I) (s s' : S) :
  iter body l s = Some s' →
  ∀ i, i ∈ l → ∃ s1 s2, body i s1 = Some s2.
Proof.
  revert s. induction l as [|j l IH]; intros s Hrun i Hi; [by inversion Hi|].
  simpl in Hrun. destruct (body j s) as [s1|] eqn:Hj; [|done]. simpl in Hrun.
  apply elem_of_cons in Hi as [->|Hi]; [by eexists _, _|].
  by apply (IH s1).
Qed.

(** If the table loops run to the end, every one of the first [N] entries
    of [sbox] exists and indexes [inv_sbox]: an S-box with an entry outside
    the inverse array makes [compute_bct] read out of bounds. *)
Theorem compute_bct_needs_valid_sbox :
  (∀ sbox inv_sbox bct0 bct,
     Bdt.compute_bct sbox inv_sbox bct0 = Some bct →
     ∀ x, 0 ≤ x < 8 →
       ∃ v, rd sbox x = Some v ∧ 0 ≤ v < Z.of_nat (length inv_sbox)) ∧
  (∀ sbox inv_sbox bct0 out r,
     BctPresent.compute_bct sbox inv_sbox bct0 out = Some r →
     ∀ x, 0 ≤ x < 16 →
       ∃ v, rd sbox x = Some v ∧ 0 ≤ v < Z.of_nat (length inv_sbox)).
Proof.
  assert (∀ N sbox inv_sbox bct0 bct,
            0 < N → bct_loops N sbox inv_sbox bct0 = Some bct →
            ∀ x, 0 ≤ x < N →
              ∃ v, rd sbox x = Some v ∧ 0 ≤ v < Z.of_nat (length inv_sbox))
    as Hgen.
  { intros N sbox inv_sbox bct0 bct HN Hrun x Hx.
    unfold bct_loops, for_up in Hrun. rewrite !Z.sub_0_r in Hrun.
    destruct (iter_Some_all _ _ _ _ Hrun 0) as (t1 & t2 & Hrow);
      [apply elem_of_seqZ; lia|].
    destruct (iter_Some_all _ _ _ _ Hrow 0) as (t3 & t4 & Hcell);
      [apply elem_of_seqZ; lia|].
    destruct (count_loop N sbox inv_sbox 0 0 0) as [c|] eqn:Hcount; [|done].
    unfold count_loop, for_up in Hcount. rewrite Z.sub_0_r in Hcount.
    destruct (iter_Some_all _ _ _ _ Hcount x) as (c1 & c2 & Hstep);
      [apply elem_of_seqZ; lia|].
    unfold count_step in Hstep.
    destruct (rd sbox x) as [v|]; [|done]. simpl in Hstep.
    rewrite !Z.lxor_0_r in Hstep.
    destruct (rd inv_sbox v) as [y|] eqn:Hy; [|by simpl in Hstep].
    exists v. split; [done|]. by eapply rd_Some_lt. }
  split.
  - intros sbox inv_sbox bct0 bct Hrun. by apply (Hgen 8 _ _ bct0 bct).
  - intros sbox inv_sbox bct0 out r Hrun.
    unfold BctPresent.compute_bct in Hrun.
    destruct (bct_loops 16 sbox inv_sbox bct0) as [bct|] eqn:Hloops; [|done].
    by apply (Hgen 16 _ _ bct0 bct).
Qed.

Lemma compute_bct_needs_valid_sbox_witness :
  (∀ x, 0 ≤ x < 8 →
     ∃ v, rd Bdt.SBOX x = Some v ∧
          0 ≤ v < Z.of_nat (length Bdt.INV_SBOX)) ∧
  (∀ x, 0 ≤ x < 16 →
     ∃ v, rd BctPresent.SBOX x = Some v ∧
          0 ≤ v < Z.of_nat (length BctPresent.INV_SBOX)).
Proof.
  split.
  - eapply (proj1 compute_bct_needs_valid_sbox
              Bdt.SBOX Bdt.INV_SBOX (replicate 8 (replicate 8 0))).
    vm_compute. reflexivity.
  - eapply (proj2 compute_bct_needs_valid_sbox
              BctPresent.SBOX BctPresent.INV_SBOX
              (replicate 16 (replicate 16 0)) []).
    vm_compute. reflexivity.
Defined.

(** ** The table of the inverse S-box *)

Lemma lxor_cancel_l a b : Z.lxor a (Z.lxor a b) = b.
Proof. by rewrite <- Z.lxor_assoc, Z.lxor_nilpotent, Z.lxor_0_l. Qed.

Lemma mutual_inverses_flip N sbox inv_sbox :
  mutual_inverses N sbox inv_sbox → mutual_inverses N inv_sbox sbox.
Proof. intros Hmi v Hv. destruct (Hmi v Hv). by split. Qed.

Section Transpose.
Variables (k N : Z) (sbox inv_sbox : list Z).
Hypothesis Hk : 0 ≤ k.
Hypothesis HN : N = 2 ^ k.
Hypothesis Hls : length sbox = Z.to_nat N.
Hypothesis Hli : length inv_sbox = Z.to_nat N.
Hypothesis Hmi : mutual_inverses N sbox inv_sbox.

Lemma sbox_below x : 0 ≤ x < N → 0 ≤ sel sbox x < N.
Proof.
  intros Hx.
  destruct (sbox_entry k N sbox inv_sbox Hk HN
              (mutual_inverses_well_formed N _ _ Hls Hli Hmi) x Hx) as [_ H].
  done.
Qed.

Lemma inv_sbox_below x : 0 ≤ x < N → 0 ≤ sel inv_sbox x < N.
Proof.
  intros Hx.
  destruct (sbox_entry k N inv_sbox sbox Hk HN
              (mutual_inverses_well_formed N _ _ Hli Hls
                 (mutual_inverses_flip _ _ _ Hmi)) x Hx) as [_ H].
  done.
Qed.

Lemma inv_of_sbox x : 0 ≤ x < N → sel inv_sbox (sel sbox x) = x.
Proof. intros Hx. by apply (mutual_inverses_sel N). Qed.

Lemma sbox_of_inv x : 0 ≤ x < N → sel sbox (sel inv_sbox x) = x.
Proof.
  intros Hx. apply (mutual_inverses_sel N); [|done].
  by apply mutual_inverses_flip.
Qed.

Lemma xor_below x y : 0 ≤ x < N → 0 ≤ y < N → 0 ≤ Z.lxor x y < N.
Proof. subst N. by apply lxor_below_pow2. Qed.

(** [x] solves the equation of [(a, b)] for the S-box exactly when
    [sbox[x]] solves the equation of [(b, a)] for the inverse S-box. *)
Lemma boomerang_return_transpose a b x :
  0 ≤ a < N → 0 ≤ b < N → 0 ≤ x < N →
  boomerang_return inv_sbox sbox b a (sel sbox x) = b
  ↔ boomerang_return sbox inv_sbox a b x = a.
Proof.
  intros Ha Hb Hx. unfold boomerang_return.
  pose proof (sbox_below x Hx) as Hsx.
  pose proof (xor_below x a Hx Ha) as Hxa.
  pose proof (sbox_below _ Hxa) as Hsxa.
  pose proof (xor_below _ b Hsx Hb) as Hsxb.
  pose proof (inv_sbox_below _ Hsxb) as Hx'.
  pose proof (xor_below _ b Hsxa Hb) as Hsxab.
  pose proof (inv_sbox_below _ Hsxab) as Hx''.
  rewrite inv_of_sbox by done.
  set (x' := sel inv_sbox (Z.lxor (sel sbox x) b)) in *.
  set (x'' := sel inv_sbox (Z.lxor (sel sbox (Z.lxor x a)) b)) in *.
  pose proof (xor_below x' a Hx' Ha) as Hx'a.
  split.
  - intros Heq.
    assert (sel sbox (Z.lxor x' a) = Z.lxor (sel sbox (Z.lxor x a)) b) as Hs.
    { rewrite <- Heq. by rewrite lxor_cancel_l. }
    assert (x'' = Z.lxor x' a) as ->.
    { unfold x''. rewrite <- Hs. by apply inv_of_sbox. }
    apply lxor_cancel_l.
  - intros Heq.
    assert (x'' = Z.lxor x' a) as Hx''eq.
    { rewrite <- Heq. by rewrite lxor_cancel_l. }
    rewrite <- Hx''eq. unfold x''. rewrite sbox_of_inv by done.
    apply lxor_cancel_l.
Qed.

Lemma solution_count_transpose a b :
  0 ≤ a < N → 0 ≤ b < N →
  solution_count N inv_sbox sbox b a b = solution_count N sbox inv_sbox a b a.
Proof.
  intros Ha Hb. unfold solution_count, solutions. f_equal.
  rewrite <- (length_fmap (sel sbox)
                (filter (λ x, boomerang_return sbox inv_sbox a b x = a)
                   (seqZ 0 N))).
  apply Permutation_length, NoDup_Permutation.
  - apply NoDup_filter, NoDup_seqZ.
  - apply NoDup_fmap_2_strong; [|apply NoDup_filter, NoDup_seqZ].
    intros x y Hx Hy Hxy.
    apply list_elem_of_filter in Hx as [_ Hx], Hy as [_ Hy].
    apply elem_of_seqZ in Hx, Hy.
    rewrite <- (inv_of_sbox x), <- (inv_of_sbox y) by lia. by rewrite Hxy.
  - intros y. rewrite list_elem_of_fmap.
    setoid_rewrite list_elem_of_filter. setoid_rewrite elem_of_seqZ. split.
    + intros [Hsol Hy]. exists (sel inv_sbox y).
      pose proof (inv_sbox_below y ltac:(lia)).
      rewrite sbox_of_inv by lia. split; [done|]. split; [|lia].
      apply boomerang_return_transpose; [done..|lia|].
      by rewrite sbox_of_inv by lia.
    + intros (x & -> & Hsol & Hx).
      pose proof (sbox_below x ltac:(lia)). split; [|lia].
      apply boomerang_return_transpose; [done..|lia|done].
Qed.

End Transpose.

(** Exchanging the S-box and its inverse transposes the table: the table
    [compute_bct] computes from [(inv_sbox, sbox)] has in cell [(b, a)] what
    the table computed from [(sbox, inv_sbox)] has in cell [(a, b)], in both
    tools. *)
Theorem compute_bct_of_inverse_is_transpose :
  (∀ sbox inv_sbox bct0 bct1,
     length sbox = 8%nat → length inv_sbox = 8%nat →
     mutual_inverses 8 sbox inv_sbox → shape2 8 bct0 → shape2 8 bct1 →
     ∃ bct bct',
       Bdt.compute_bct sbox inv_sbox bct0 = Some bct ∧
       Bdt.compute_bct inv_sbox sbox bct1 = Some bct' ∧
       ∀ a b, 0 ≤ a < 8 → 0 ≤ b < 8 → rd2 bct' b a = rd2 bct a b) ∧
  (∀ sbox inv_sbox bct0 bct1 out0 out1,
     length sbox = 16%nat → length inv_sbox = 16%nat →
     mutual_inverses 16 sbox inv_sbox → shape2 16 bct0 → shape2 16 bct1 →
     ∃ bct bct' out0' out1',
       BctPresent.compute_bct sbox inv_sbox bct0 out0 = Some (bct, out0') ∧
       BctPresent.compute_bct inv_sbox sbox bct1 out1 = Some (bct', out1') ∧
       ∀ a b, 0 ≤ a < 16 → 0 ≤ b < 16 → rd2 bct' b a = rd2 bct a b).
Proof.
  split.
  - intros sbox inv_sbox bct0 bct1 Hls Hli Hmi Hs0 Hs1.
    pose proof (mutual_inverses_well_formed 8 _ _ Hls Hli Hmi) as Hwf.
    pose proof (mutual_inverses_well_formed 8 _ _ Hli Hls
                  (mutual_inverses_flip 8 _ _ Hmi)) as Hwf'.
    eexists _, _. split; [by apply Bdt_compute_bct_table|].
    split; [by apply Bdt_compute_bct_table|].
    intros a b Ha Hb. rewrite !rd2_table2 by done. f_equal.
    by apply (solution_count_transpose 3).
  - intros sbox inv_sbox bct0 bct1 out0 out1 Hls Hli Hmi Hs0 Hs1.
    pose proof (mutual_inverses_well_formed 16 _ _ Hls Hli Hmi) as Hwf.
    pose proof (mutual_inverses_well_formed 16 _ _ Hli Hls
                  (mutual_inverses_flip 16 _ _ Hmi)) as Hwf'.
    destruct (BctPresent_compute_bct_table sbox inv_sbox Hwf)
      as (p & _ & Hrun).
    destruct (BctPresent_compute_bct_table inv_sbox sbox Hwf')
      as (p' & _ & Hrun').
    eexists _, _, _, _. split; [by apply Hrun|]. split; [by apply Hrun'|].
    intros a b Ha Hb. rewrite !rd2_table2 by done. f_equal.
    by apply (solution_count_transpose 4).
Qed.

Lemma compute_bct_of_inverse_is_transpose_witness :
  (∃ bct bct',
     Bdt.compute_bct Bdt.SBOX Bdt.INV_SBOX (replicate 8 (replicate 8 0))
     = Some bct ∧
     Bdt.compute_bct Bdt.INV_SBOX Bdt.SBOX (replicate 8 (replicate 8 0))
     = Some bct' ∧
     ∀ a b, 0 ≤ a < 8 → 0 ≤ b < 8 → rd2 bct' b a = rd2 bct a b) ∧
  (∃ bct bct' out0' out1',
     BctPresent.compute_bct BctPresent.SBOX BctPresent.INV_SBOX
       (replicate 16 (replicate 16 0)) [] = Some (bct, out0') ∧
     BctPresent.compute_bct BctPresent.INV_SBOX BctPresent.SBOX
       (replicate 16 (replicate 16 0)) [] = Some (bct', out1') ∧
     ∀ a b, 0 ≤ a < 16 → 0 ≤ b < 16 → rd2 bct' b a = rd2 bct a b).
Proof.
  split.
  - apply (proj1 compute_bct_of_inverse_is_transpose).
    + reflexivity.
    + reflexivity.
    + intros v Hv. revert v Hv. apply (below_cases 8).
      repeat (constructor; [vm_compute; split; reflexivity|]). constructor.
    + split; [reflexivity|]. repeat constructor.
    + split; [reflexivity|]. repeat constructor.
  - apply (proj2 compute_bct_of_inverse_is_transpose).
    + reflexivity.
    + reflexivity.
    + intros v Hv. revert v Hv. apply (below_cases 16).
      repeat (constructor; [vm_compute; split; reflexivity|]). constructor.
    + split; [reflexivity|]. repeat constructor.
    + split; [reflexivity|]. repeat constructor.
Defined.

(** ** The permutation keeps and needs a state of 12 words *)

(** On a state of 12 words of 32 bits [gimli_permutation] never leaves the
    array, and what it leaves in it is again 12 words of 32 bits. *)
Theorem gimli_permutation_keeps_word_state state :
  word_state state →
  ∃ state', HigherOrder.gimli_permutation state = Some state' ∧
            word_state state'.
Proof.
  intros Hs. exists (GimliSpec.gimli state). by apply gimli_permutation_spec.
Qed.

Lemma gimli_permutation_keeps_word_state_witness :
  ∃ state',
    HigherOrder.gimli_permutation [1; 0; 0; 0; 0; 0; 0; 0; 0; 0; 0; 0]
    = Some state' ∧
    word_state state'.
Proof.
  apply gimli_permutation_keeps_word_state.
  split; [reflexivity|]. repeat constructor; lia.
Defined.

(** On an array of fewer than 12 words [gimli_permutation] reads out of
    bounds, in its first round. *)
Theorem gimli_permutation_short_state state :
  (length state < 12)%nat → HigherOrder.gimli_permutation state = None.
Proof.
  intros Hlen.
  do 12 (destruct state as [|? state]; [by vm_compute|]).
  simpl in Hlen. lia.
Qed.

Lemma gimli_permutation_short_state_witness :
  HigherOrder.gimli_permutation [1; 2; 3; 4; 5; 6; 7; 8; 9; 10; 11] = None.
Proof. apply gimli_permutation_short_state. simpl. lia. Defined.

Lemma wr_length {A} (a a' : list A) i v :
  wr a i v = Some a' → length a' = length a.
Proof.
  unfold wr. case_decide; [|done]. intros [= <-]. apply length_insert.
Qed.

Lemma iter_preserves {I S} (body : I → S → option S) (P : S → Prop)
    (l : list I) (s s' : S) :
  (∀ i s s', body i s = Some s' → P s → P s') →
  P s → iter body l s = Some s' → P s'.
Proof.
  intros Hbody. revert s. induction l as [|i l IH]; intros s Hs Hrun.
  - by injection Hrun as <-.
  - simpl in Hrun. destruct (body i s) as [s1|] eqn:Hi; [|done].
    simpl in Hrun. apply (IH s1); [by eapply Hbody|done].
Qed.

(** [gimli_permutation] changes words in place: the array keeps its
    length, whatever it holds. *)
Lemma gimli_permutation_length state state' :
  HigherOrder.gimli_permutation state = Some state' →
  length state' = length state.
Proof.
  unfold HigherOrder.gimli_permutation, for_down.
  apply (iter_preserves _ (λ s, length s = length state)); [|done].
  intros r s s' Hround Hs.
  destruct (for_up 0 4 HigherOrder.column s) as [s1|] eqn:Hcols; [|done].
  simpl in Hround.
  assert (length s1 = length state) as Hs1.
  { revert Hcols. unfold for_up.
    apply (iter_preserves _ (λ s, length s = length state)); [|done].
    intros c t t' Hcol Ht. unfold HigherOrder.column in Hcol.
    destruct (rd t c); [|done]. simpl in Hcol.
    destruct (rd t (c + 4)); [|done]. simpl in Hcol.
    destruct (rd t (c + 8)); [|done]. simpl in Hcol.
    destruct (wr t (c + 8) _) as [t1|] eqn:H1; [|done]. simpl in Hcol.
    destruct (wr t1 (c + 4) _) as [t2|] eqn:H2; [|done]. simpl in Hcol.
    apply wr_length in H1, H2, Hcol. congruence. }
  assert (∀ i j t t', HigherOrder.exchange i j t = Some t' →
                      length t' = length t) as Hex.
  { intros i j t t' Hx. unfold HigherOrder.exchange in Hx.
    destruct (rd t i); [|done]. simpl in Hx.
    destruct (rd t j); [|done]. simpl in Hx.
    destruct (wr t i _) as [t1|] eqn:H1; [|done]. simpl in Hx.
    apply wr_length in H1, Hx. congruence. }
  destruct (HigherOrder.small_swap r s1) as [s2|] eqn:Hsmall; [|done].
  simpl in Hround.
  assert (length s2 = length state) as Hs2.
  { unfold HigherOrder.small_swap in Hsmall.
    case_decide; [|congruence].
    destruct (HigherOrder.exchange 0 1 s1) as [t1|] eqn:H1; [|done].
    simpl in Hsmall.
    destruct (HigherOrder.exchange 2 3 t1) as [t2|] eqn:H2; [|done].
    simpl in Hsmall.
    destruct (rd t2 0); [|done]. simpl in Hsmall.
    apply Hex in H1, H2. apply wr_length in Hsmall. congruence. }
  unfold HigherOrder.big_swap in Hround.
  case_decide; [|congruence].
  destruct (HigherOrder.exchange 0 2 s2) as [t1|] eqn:H1; [|done].
  simpl in Hround. apply Hex in H1, Hround. congruence.
Qed.

(** ** The bit basis *)

(** [generate_bit_basis] overwrites the first 32 cells of the array with
    [1 << i], whatever they held, and leaves any further cell alone; on an
    array of fewer than 32 cells it writes out of bounds. *)
Theorem generate_bit_basis_fills basis0 :
  ((32 ≤ length basis0)%nat →
   HigherOrder.generate_bit_basis basis0
   = Some (((λ i, 1 ≪ i) <$> seqZ 0 32) ++ drop 32 basis0)) ∧
  ((length basis0 < 32)%nat → HigherOrder.generate_bit_basis basis0 = None).
Proof.
  split.
  - intros Hlen. unfold HigherOrder.generate_bit_basis, for_up.
    destruct (iter_fill (λ b : list Z, length b = length basis0) rd
                (λ i, 1 ≪ i) (λ i b, wr b i (HigherOrder.shl32 1 i))
                (seqZ 0 (32 - 0)))
      with basis0 as (b & -> & Hlb & Hcells & Hframe); [|done|].
    + intros i b Hi Hb. apply elem_of_seqZ in Hi.
      destruct (wr_spec b i (HigherOrder.shl32 1 i))
        as (b' & Hw & Hl' & Hget & Hfr); [lia|].
      exists b'. split; [done|]. split; [congruence|].
      split; [by rewrite Hget, shl32_one by lia|done].
    + f_equal. apply (array_ext (length basis0)); [done| |].
      { rewrite length_app, length_fmap, length_seqZ, length_drop. lia. }
      intros i Hi. destruct (decide (i < 32)) as [Hlt|Hge].
      * rewrite Hcells by (apply elem_of_seqZ; lia).
        unfold rd. case_decide; [|lia].
        rewrite lookup_app_l by (rewrite length_fmap, length_seqZ; lia).
        rewrite list_lookup_fmap, lookup_seqZ_lt by lia. simpl.
        f_equal. f_equal. lia.
      * rewrite Hframe by (rewrite elem_of_seqZ; lia).
        unfold rd. case_decide; [|lia].
        rewrite lookup_app_r by (rewrite length_fmap, length_seqZ; lia).
        rewrite length_fmap, length_seqZ, lookup_drop. f_equal. lia.
  - intros Hlen.
    do 32 (destruct basis0 as [|? basis0]; [by vm_compute|]).
    simpl in Hlen. lia.
Qed.

(** ** What [apply_diff] does to the word *)

Lemma land_one_bit s n :
  0 ≤ n → Z.land s (1 ≪ n) ≠ 0 ↔ Z.testbit s n = true.
Proof.
  intros Hn. rewrite Z.shiftl_1_l. split.
  - intros Hne. destruct (Z.testbit s n) eqn:Hbit; [done|].
    exfalso. apply Hne. apply Z.bits_inj'. intros i Hi.
    rewrite Z.land_spec, Z.bits_0, Z.pow2_bits_eqb by done.
    destruct (Z.eqb_spec n i) as [->|]; [by rewrite Hbit|apply andb_false_r].
  - intros Hbit Hzero.
    assert (Z.testbit (Z.land s (2 ^ n)) n = true) as Hland.
    { by rewrite Z.land_spec, Hbit, Z.pow2_bits_true. }
    by rewrite Hzero, Z.bits_0 in Hland.
Qed.

Lemma xor_all_app l k :
  DerivativeSpec.xor_all (l ++ k)
  = Z.lxor (DerivativeSpec.xor_all l) (DerivativeSpec.xor_all k).
Proof.
  induction l as [|x l IH]; simpl; [done|]. by rewrite IH, Z.lxor_assoc.
Qed.

(** The masks that [subset] selects among the first [n] add up to its [n]
    low bits. *)
Lemma xor_all_chosen (n : nat) (subset : Z) :
  DerivativeSpec.xor_all (chosen (Z.of_nat n) subset)
  = Z.land subset (Z.ones (Z.of_nat n)).
Proof.
  induction n as [|n IH].
  { simpl. by rewrite Z.land_0_r. }
  unfold chosen, DerivativeSpec.masks in *.
  rewrite seqZ_S, fmap_app, filter_app, xor_all_app, IH. clear IH.
  simpl. rewrite Z.add_0_l, filter_cons, filter_nil.
  apply Z.bits_inj'. intros i Hi.
  rewrite Z.lxor_spec, !Z.land_spec, !Z.testbit_ones_nonneg by lia.
  case_decide as Hsel.
  - apply land_one_bit in Hsel; [|lia]. simpl.
    rewrite Z.lxor_0_r, Z.shiftl_1_l, Z.pow2_bits_eqb by lia.
    destruct (Z.eqb_spec (Z.of_nat n) i) as [<-|Hne].
    + rewrite Hsel, Z.ltb_irrefl.
      by replace (Z.of_nat n <? Z.of_nat (S n)) with true
        by (symmetry; apply Z.ltb_lt; lia).
    + rewrite xorb_false_r. f_equal.
      destruct (Z.ltb_spec i (Z.of_nat n)), (Z.ltb_spec i (Z.of_nat (S n)));
        (done || lia).
  - simpl. rewrite Z.bits_0, xorb_false_r.
    destruct (decide (i = Z.of_nat n)) as [->|Hne].
    + assert (Z.testbit subset (Z.of_nat n) = false) as ->.
      { destruct (Z.testbit subset (Z.of_nat n)) eqn:Hbit; [|done].
        apply (land_one_bit subset (Z.of_nat n)) in Hbit; [|lia].
        by destruct Hbit. }
      done.
    + f_equal.
      destruct (Z.ltb_spec i (Z.of_nat n)), (Z.ltb_spec i (Z.of_nat (S n)));
        (done || lia).
Qed.

Lemma perturb_chosen base w order subset :
  0 ≤ order →
  DerivativeSpec.perturb base w (chosen order subset)
  = shifted base w (subset `mod` 2 ^ order).
Proof.
  intros Ho. unfold DerivativeSpec.perturb, shifted.
  rewrite foldl_lxor. rewrite <- (Z2Nat.id order) at 1 by done.
  by rewrite xor_all_chosen, Z2Nat.id, Z.land_ones by done.
Qed.

(** With the basis that [generate_bit_basis] builds, [apply_diff] leaves in
    [temp] a copy of [base] in which the [order] low bits of [subset] are
    XORed into word [word_index]: what [temp] held before and the higher
    bits of [subset] play no part. *)
Theorem apply_diff_xors_low_bits base temp order basis0 word_index subset :
  length base = 12%nat → length temp = 12%nat → length basis0 = 32%nat →
  0 ≤ word_index < 12 → 0 ≤ order ≤ 31 →
  ∃ basis,
    HigherOrder.generate_bit_basis basis0 = Some basis ∧
    HigherOrder.apply_diff base temp order basis word_index subset
    = Some (shifted base word_index (subset `mod` 2 ^ order)).
Proof.
  intros Hb Ht Hb0 Hw Ho. eexists.
  split; [by apply generate_bit_basis_spec|].
  rewrite apply_diff_spec by done. f_equal. apply perturb_chosen. lia.
Qed.

Lemma apply_diff_xors_low_bits_witness :
  ∃ basis,
    HigherOrder.generate_bit_basis (replicate 32 7) = Some basis ∧
    HigherOrder.apply_diff [1; 2; 3; 4; 5; 6; 7; 8; 9; 10; 11; 12]
      (replicate 12 9) 3 basis 5 29
    = Some (shifted [1; 2; 3; 4; 5; 6; 7; 8; 9; 10; 11; 12] 5
              (29 `mod` 2 ^ 3)).
Proof.
  apply apply_diff_xors_low_bits; (reflexivity || lia).
Defined.

Lemma generate_bit_basis_fills_witness :
  HigherOrder.generate_bit_basis (replicate 33 7)
  = Some (((λ i, 1 ≪ i) <$> seqZ 0 32) ++ drop 32 (replicate 33 7)) ∧
  HigherOrder.generate_bit_basis (replicate 31 7) = None.
Proof.
  split.
  - apply (proj1 (generate_bit_basis_fills (replicate 33 7))). simpl. lia.
  - apply (proj2 (generate_bit_basis_fills (replicate 31 7))). simpl. lia.
Defined.

(** ** The derivative as a sum over a coset *)

Lemma xor_all_range (l : list Z) :
  Forall (λ v, 0 ≤ v < 2 ^ 32) l → 0 ≤ DerivativeSpec.xor_all l < 2 ^ 32.
Proof.
  induction 1 as [|v l Hv _ IH]; simpl; [lia|].
  apply lxor_below_pow2; lia.
Qed.

Lemma pow2_below_32 order : 0 ≤ order ≤ 30 → 0 < 2 ^ order < 2 ^ 32.
Proof.
  intros Ho. split; [apply Z.pow_pos_nonneg; lia|].
  apply Z.pow_lt_mono_r; lia.
Qed.

(** Below [2^n], adding [2^n] is XORing it. *)
Lemma add_pow2_lxor n m : 0 ≤ n → 0 ≤ m < 2 ^ n → 2 ^ n + m = Z.lxor (2 ^ n) m.
Proof.
  intros Hn Hm. apply Z.add_nocarry_lxor, Z.bits_inj'. intros i Hi.
  rewrite Z.land_spec, Z.bits_0, Z.pow2_bits_eqb by done.
  destruct (Z.eqb_spec n i) as [<-|]; [|done]. simpl.
  by apply (proj1 (Z.bounded_iff_bits_nonneg' n m Hn ltac:(lia)) Hm).
Qed.

(** The sum of [F] over the coset [v ^ [0, 2^(n+1))] is the sum over
    [v ^ [0, 2^n)] XOR the sum over [(v ^ 2^n) ^ [0, 2^n)]. *)
Lemma coset_split (F : Z → Z) (v n : Z) :
  0 ≤ n →
  DerivativeSpec.xor_all ((λ m, F (Z.lxor v m)) <$> seqZ 0 (2 ^ (n + 1)))
  = Z.lxor
      (DerivativeSpec.xor_all ((λ m, F (Z.lxor v m)) <$> seqZ 0 (2 ^ n)))
      (DerivativeSpec.xor_all
         ((λ m, F (Z.lxor (Z.lxor v (2 ^ n)) m)) <$> seqZ 0 (2 ^ n))).
Proof.
  intros Hn. assert (0 < 2 ^ n) by (apply Z.pow_pos_nonneg; lia).
  rewrite Z.pow_add_r, Z.pow_1_r by lia.
  replace (2 ^ n * 2) with (2 ^ n + 2 ^ n) by lia.
  rewrite seqZ_app, fmap_app, xor_all_app by lia. f_equal. f_equal.
  rewrite Z.add_0_l. rewrite <- (Z.add_0_r (2 ^ n)) at 1.
  rewrite <- fmap_add_seqZ, <- list_fmap_compose. apply list_fmap_ext.
  intros i m Hm. apply lookup_seqZ in Hm as [-> Hi]. simpl.
  by rewrite add_pow2_lxor, Z.lxor_assoc by lia.
Qed.

(** XORing a fixed [a < 2^n] permutes [[0, 2^n)]. *)
Lemma lxor_permutes_below (a n : Z) :
  0 ≤ n → 0 ≤ a < 2 ^ n →
  Z.lxor a <$> seqZ 0 (2 ^ n) ≡ₚ seqZ 0 (2 ^ n).
Proof.
  intros Hn Ha. apply NoDup_Permutation.
  - apply NoDup_fmap_2_strong; [|apply NoDup_seqZ].
    intros x y _ _ Hxy.
    by rewrite <- (lxor_cancel_l a x), Hxy, lxor_cancel_l.
  - apply NoDup_seqZ.
  - intros y. rewrite list_elem_of_fmap. setoid_rewrite elem_of_seqZ. split.
    + intros (x & -> & Hx).
      pose proof (lxor_below_pow2 n a x Hn Ha ltac:(lia)). lia.
    + intros Hy. exists (Z.lxor a y). rewrite lxor_cancel_l.
      pose proof (lxor_below_pow2 n a y Hn Ha ltac:(lia)). split; [done|lia].
Qed.

(** The sum over a coset does not depend on the element of the coset it
    starts from. *)
Lemma coset_shift (F : Z → Z) (v a n : Z) :
  0 ≤ n → 0 ≤ a < 2 ^ n →
  DerivativeSpec.xor_all
    ((λ m, F (Z.lxor (Z.lxor v a) m)) <$> seqZ 0 (2 ^ n))
  = DerivativeSpec.xor_all ((λ m, F (Z.lxor v m)) <$> seqZ 0 (2 ^ n)).
Proof.
  intros Hn Ha.
  rewrite <- (xor_all_Permutation _ _
                (fmap_Permutation (λ m, F (Z.lxor v m)) _ _
                   (lxor_permutes_below a n Hn Ha))).
  rewrite <- list_fmap_compose. f_equal. apply list_fmap_ext.
  intros i m _. simpl. by rewrite Z.lxor_assoc.
Qed.

Section Coset.
Variables (base : list Z) (w : Z).
Hypothesis Hbase : word_state base.
Hypothesis Hw : 0 ≤ w < 12.

(** Word [w] of the permutation of [base] with word [w] replaced by [u]. *)
Let F (u : Z) : Z := sel (GimliSpec.gimli (<[Z.to_nat w := u]> base)) w.

Lemma base_word_range : 0 ≤ sel base w < 2 ^ 32.
Proof.
  destruct (word_state_word base (Z.to_nat w) Hbase) as [_ H]; [lia|]. done.
Qed.

Lemma shifted_word_state m :
  0 ≤ m < 2 ^ 32 → word_state (shifted base w m).
Proof.
  intros Hm. unfold shifted. apply word_state_insert; [done|lia|].
  apply lxor_below_pow2; [lia|apply base_word_range|done].
Qed.

Lemma shifted_sel m : sel (shifted base w m) w = Z.lxor (sel base w) m.
Proof.
  unfold shifted, sel. apply list_lookup_total_insert_eq.
  destruct Hbase as [-> _]. lia.
Qed.

Lemma F_range u : 0 ≤ u < 2 ^ 32 → 0 ≤ F u < 2 ^ 32.
Proof.
  intros Hu. unfold F.
  assert (word_state (<[Z.to_nat w := u]> base)) as Hs
    by (apply word_state_insert; [done|lia|done]).
  destruct (gimli_permutation_spec _ Hs) as [_ Hout].
  destruct (word_state_word _ (Z.to_nat w) Hout) as [_ H]; [lia|]. done.
Qed.

Lemma F_output u :
  0 ≤ u < 2 ^ 32 →
  DerivativeSpec.output_word (<[Z.to_nat w := u]> base) w = Some (F u).
Proof.
  intros Hu. apply output_word_spec; [|done].
  apply word_state_insert; [done|lia|done].
Qed.

(** [compute_derivative] XORs the output word over the states in which
    word [w] runs through [base[w] ^ m] for [m] in [[0, 2^order)]. *)
Lemma compute_derivative_coset order basis0 temp0 :
  0 ≤ order ≤ 30 → length basis0 = 32%nat → length temp0 = 12%nat →
  HigherOrder.compute_derivative base w order basis0 temp0
  = Some (DerivativeSpec.xor_all
            ((λ m, F (Z.lxor (sel base w) m)) <$> seqZ 0 (2 ^ order))).
Proof.
  intros Ho Hb Ht. rewrite compute_derivative_spec by done. f_equal. f_equal.
  rewrite <- list_fmap_compose, Z.shiftl_1_l. apply list_fmap_ext.
  intros i m Hm. apply lookup_seqZ in Hm as [-> Hi]. simpl.
  rewrite perturb_chosen by lia. unfold F, shifted.
  rewrite Z.mod_small by lia. done.
Qed.

End Coset.

(** The same, from a state of the coset. *)
Lemma compute_derivative_coset_shifted base w a order basis0 temp0 :
  word_state base → 0 ≤ w < 12 → 0 ≤ a < 2 ^ 32 →
  0 ≤ order ≤ 30 → length basis0 = 32%nat → length temp0 = 12%nat →
  HigherOrder.compute_derivative (shifted base w a) w order basis0 temp0
  = Some (DerivativeSpec.xor_all
            ((λ m, sel (GimliSpec.gimli
                          (<[Z.to_nat w :=
                               Z.lxor (Z.lxor (sel base w) a) m]> base)) w)
               <$> seqZ 0 (2 ^ order))).
Proof.
  intros Hbase Hw Ha Ho Hb Ht.
  rewrite compute_derivative_coset;
    [|by apply shifted_word_state|done..].
  f_equal. f_equal. apply list_fmap_ext. intros i m _.
  rewrite shifted_sel by done. unfold shifted.
  by rewrite list_insert_insert_eq.
Qed.

(** For every order from 0 to 30, [compute_derivative] returns the XOR of
    word [word_index] of [gimli_permutation] over the [2^order] states in
    which word [word_index] is [base[word_index] ^ m], [m] in
    [[0, 2^order)]. *)
Theorem compute_derivative_sums_coset base word_index order basis0 temp0 :
  word_state base → 0 ≤ word_index < 12 → 0 ≤ order ≤ 30 →
  length basis0 = 32%nat → length temp0 = 12%nat →
  ∃ outs,
    mapM (λ m, DerivativeSpec.output_word (shifted base word_index m)
                 word_index) (seqZ 0 (2 ^ order)) = Some outs ∧
    HigherOrder.compute_derivative base word_index order basis0 temp0
    = Some (DerivativeSpec.xor_all outs).
Proof.
  intros Hbase Hw Ho Hb Ht. eexists. split.
  - apply mapM_total. intros m Hm. apply elem_of_seqZ in Hm.
    pose proof (pow2_below_32 order Ho).
    apply (F_output base word_index Hbase Hw).
    apply lxor_below_pow2; [lia|by apply base_word_range|lia].
  - by apply compute_derivative_coset.
Qed.

Lemma compute_derivative_sums_coset_witness :
  ∃ outs,
    mapM (λ m, DerivativeSpec.output_word
                 (shifted [1; 0; 0; 0; 0; 0; 0; 0; 0; 0; 0; 0] 8 m) 8)
      (seqZ 0 (2 ^ 5)) = Some outs ∧
    HigherOrder.compute_derivative [1; 0; 0; 0; 0; 0; 0; 0; 0; 0; 0; 0] 8 5
      (replicate 32 0) (replicate 12 0)
    = Some (DerivativeSpec.xor_all outs).
Proof.
  apply compute_derivative_sums_coset.
  - split; [reflexivity|]. repeat constructor; lia.
  - lia.
  - lia.
  - reflexivity.
  - reflexivity.
Defined.

(** The derivative of order [order + 1] is the derivative of order [order]
    at [base] XOR the derivative of order [order] at [base] with bit
    [order] of word [word_index] flipped. *)
Theorem compute_derivative_next_order base word_index order basis0 temp0 :
  word_state base → 0 ≤ word_index < 12 → 0 ≤ order ≤ 29 →
  length basis0 = 32%nat → length temp0 = 12%nat →
  ∃ d d',
    HigherOrder.compute_derivative base word_index order basis0 temp0
    = Some d ∧
    HigherOrder.compute_derivative (shifted base word_index (2 ^ order))
      word_index order basis0 temp0 = Some d' ∧
    HigherOrder.compute_derivative base word_index (order + 1) basis0 temp0
    = Some (Z.lxor d d').
Proof.
  intros Hbase Hw Ho Hb Ht. eexists _, _.
  split; [apply compute_derivative_coset; (done || lia)|].
  pose proof (pow2_below_32 order ltac:(lia)).
  split; [apply compute_derivative_coset_shifted; (done || lia)|].
  rewrite compute_derivative_coset by (done || lia). f_equal.
  apply (coset_split
           (λ u, sel (GimliSpec.gimli (<[Z.to_nat word_index := u]> base))
                   word_index)). lia.
Qed.

Lemma compute_derivative_next_order_witness :
  ∃ d d',
    HigherOrder.compute_derivative [1; 0; 0; 0; 0; 0; 0; 0; 0; 0; 0; 0] 0 1
      (replicate 32 0) (replicate 12 0) = Some d ∧
    HigherOrder.compute_derivative
      (shifted [1; 0; 0; 0; 0; 0; 0; 0; 0; 0; 0; 0] 0 (2 ^ 1)) 0 1
      (replicate 32 0) (replicate 12 0) = Some d' ∧
    HigherOrder.compute_derivative [1; 0; 0; 0; 0; 0; 0; 0; 0; 0; 0; 0] 0
      (1 + 1) (replicate 32 0) (replicate 12 0) = Some (Z.lxor d d').
Proof.
  apply compute_derivative_next_order.
  - split; [reflexivity|]. repeat constructor; lia.
  - lia.
  - lia.
  - reflexivity.
  - reflexivity.
Defined.

(** The derivative of order [order] does not see the [order] low bits of
    word [word_index]: changing them in [base] changes nothing. *)
Theorem compute_derivative_ignores_low_bits base word_index order a
    basis0 temp0 :
  word_state base → 0 ≤ word_index < 12 → 0 ≤ order ≤ 30 →
  0 ≤ a < 2 ^ order →
  length basis0 = 32%nat → length temp0 = 12%nat →
  ∃ d,
    HigherOrder.compute_derivative base word_index order basis0 temp0
    = Some d ∧
    HigherOrder.compute_derivative (shifted base word_index a) word_index
      order basis0 temp0 = Some d.
Proof.
  intros Hbase Hw Ho Ha Hb Ht. eexists.
  split; [apply compute_derivative_coset; (done || lia)|].
  pose proof (pow2_below_32 order Ho).
  rewrite compute_derivative_coset_shifted by (done || lia). f_equal.
  apply (coset_shift
           (λ u, sel (GimliSpec.gimli (<[Z.to_nat word_index := u]> base))
                   word_index)); lia.
Qed.

Lemma compute_derivative_ignores_low_bits_witness :
  ∃ d,
    HigherOrder.compute_derivative [1; 0; 0; 0; 0; 0; 0; 0; 0; 0; 0; 0] 0 3
      (replicate 32 0) (replicate 12 0) = Some d ∧
    HigherOrder.compute_derivative
      (shifted [1; 0; 0; 0; 0; 0; 0; 0; 0; 0; 0; 0] 0 6) 0 3
      (replicate 32 0) (replicate 12 0) = Some d.
Proof.
  apply compute_derivative_ignores_low_bits.
  - split; [reflexivity|]. repeat constructor; lia.
  - lia.
  - lia.
  - lia.
  - reflexivity.
  - reflexivity.
Defined.

(** [compute_derivative] returns a 32-bit value. *)
Theorem compute_derivative_range base word_index order basis0 temp0 :
  word_state base → 0 ≤ word_index < 12 → 0 ≤ order ≤ 30 →
  length basis0 = 32%nat → length temp0 = 12%nat →
  ∃ d,
    HigherOrder.compute_derivative base word_index order basis0 temp0
    = Some d ∧ 0 ≤ d < 2 ^ 32.
Proof.
  intros Hbase Hw Ho Hb Ht. eexists.
  split; [apply compute_derivative_coset; (done || lia)|].
  apply xor_all_range, Forall_fmap, Forall_forall. intros m Hm.
  apply elem_of_seqZ in Hm. pose proof (pow2_below_32 order Ho). simpl.
  apply (F_range base word_index Hbase Hw).
  apply lxor_below_pow2; [lia|by apply base_word_range|lia].
Qed.

Lemma compute_derivative_range_witness :
  ∃ d,
    HigherOrder.compute_derivative [1; 0; 0; 0; 0; 0; 0; 0; 0; 0; 0; 0] 3 2
      (replicate 32 0) (replicate 12 0) = Some d ∧ 0 ≤ d < 2 ^ 32.
Proof.
  apply compute_derivative_range.
  - split; [reflexivity|]. repeat constructor; lia.
  - lia.
  - lia.
  - reflexivity.
  - reflexivity.
Defined.

(** Outside the orders 0 to 30 the shift [1 << order] is undefined on
    [int], and outside [[0, 12)] the word index leaves the state:
    [compute_derivative] has no defined result. *)
Theorem compute_derivative_undefined base word_index order basis0 temp0 :
  length base = 12%nat → length temp0 = 12%nat →
  ¬ (0 ≤ word_index < 12 ∧ 0 ≤ order ≤ 30) →
  HigherOrder.compute_derivative base word_index order basis0 temp0 = None.
Proof.
  intros Hbase Htemp Hbad. unfold HigherOrder.compute_derivative.
  destruct (HigherOrder.generate_bit_basis basis0) as [basis|]; [|done].
  cbn [mbind option_bind].
  destruct (HigherOrder.shl_int 1 order) as [bound|] eqn:Hbound; [|done].
  cbn [mbind option_bind].
  unfold HigherOrder.shl_int in Hbound. case_decide as Hsh; [|done].
  injection Hbound as <-. destruct Hsh as (Hord & _ & Hlt).
  rewrite Z.shiftl_1_l in *.
  assert (order ≤ 30) as Ho.
  { destruct (decide (order ≤ 30)); [done|].
    assert (2 ^ 31 ≤ 2 ^ order) by (apply Z.pow_le_mono_r; lia). lia. }
  assert (¬ 0 ≤ word_index < 12) as Hw by lia.
  assert (0 < 2 ^ order) by (apply Z.pow_pos_nonneg; lia).
  unfold for_up. rewrite Z.sub_0_r, seqZ_cons by done.
  cbn [iter fst snd].
  destruct (HigherOrder.apply_diff base temp0 order basis word_index 0)
    as [temp|] eqn:Hdiff; [|done].
  cbn [mbind option_bind].
  destruct (HigherOrder.gimli_permutation temp) as [temp'|] eqn:Hperm;
    [|done].
  cbn [mbind option_bind].
  assert (length temp = 12%nat) as Hlen.
  { unfold HigherOrder.apply_diff, HigherOrder.memcpy_words in Hdiff.
    case_decide; [|done]. cbn [mbind option_bind] in Hdiff.
    revert Hdiff. unfold for_up.
    apply (iter_preserves _ (λ t, length t = 12%nat)).
    - intros i t t' Hstep Ht.
      destruct (HigherOrder.shl_int 1 i); [|done].
      cbn [mbind option_bind] in Hstep.
      case_decide; [|congruence].
      destruct (rd t word_index); [|done]. cbn [mbind option_bind] in Hstep.
      destruct (rd basis i); [|done]. cbn [mbind option_bind] in Hstep.
      apply wr_length in Hstep. congruence.
    - rewrite length_app, length_take, length_drop. lia. }
  apply gimli_permutation_length in Hperm.
  assert (rd temp' word_index = None) as ->; [|done].
  unfold rd. case_decide; [|done]. apply lookup_ge_None. lia.
Qed.

Lemma compute_derivative_undefined_witness :
  HigherOrder.compute_derivative [1; 0; 0; 0; 0; 0; 0; 0; 0; 0; 0; 0] 12 1
    (replicate 32 0) (replicate 12 0) = None ∧
  HigherOrder.compute_derivative [1; 0; 0; 0; 0; 0; 0; 0; 0; 0; 0; 0] 0 31
    (replicate 32 0) (replicate 12 0) = None.
Proof.
  split.
  - apply compute_derivative_undefined; [reflexivity|reflexivity|lia].
  - apply compute_derivative_undefined; [reflexivity|reflexivity|lia].
Defined.

(** ** The permutation loses nothing *)

Lemma word_bit_high x i : 0 ≤ x < 2 ^ 32 → 32 ≤ i → Z.testbit x i = false.
Proof.
  intros Hx Hi.
  by apply (proj1 (Z.bounded_iff_bits_nonneg' 32 x ltac:(lia) ltac:(lia)) Hx).
Qed.

Lemma word_ext x y :
  0 ≤ x < 2 ^ 32 → 0 ≤ y < 2 ^ 32 →
  (∀ i, 0 ≤ i < 32 → Z.testbit x i = Z.testbit y i) → x = y.
Proof.
  intros Hx Hy Hbits. apply Z.bits_inj'. intros i Hi.
  destruct (decide (i < 32)); [apply Hbits; lia|].
  by rewrite !word_bit_high by lia.
Qed.

Lemma shl_bit v n i :
  0 ≤ n → 0 ≤ i < 32 →
  Z.testbit (GimliSpec.shl v n) i = Z.testbit v (i - n).
Proof.
  intros Hn Hi. unfold GimliSpec.shl.
  rewrite Z.testbit_mod_pow2, Z.mul_pow2_bits by lia.
  by replace (i <? 32) with true by (symmetry; apply Z.ltb_lt; lia).
Qed.

(** Bit [i] of the rotation is bit [i - b] of the word, modulo 32. *)
Lemma rotl32_bit x b i :
  0 ≤ x < 2 ^ 32 → 0 < b < 32 → 0 ≤ i < 32 →
  Z.testbit (GimliSpec.rotl32 x b) i
  = Z.testbit x (if decide (i < b) then i + 32 - b else i - b).
Proof.
  intros Hx Hb Hi. rewrite <- ROTL32_rotl32 by done.
  unfold HigherOrder.ROTL32, HigherOrder.shl32, HigherOrder.shr32,
    HigherOrder.wrap32.
  rewrite Z.lor_spec, Z.testbit_mod_pow2, Z.shiftl_spec, Z.shiftr_spec by lia.
  replace (i <? 32) with true by (symmetry; apply Z.ltb_lt; lia).
  case_decide.
  - rewrite (Z.testbit_neg_r x (i - b)) by lia. simpl. f_equal. lia.
  - rewrite (word_bit_high x (i + (32 - b))) by (done || lia).
    by rewrite orb_false_r.
Qed.

Lemma rotl32_inj x y b :
  0 ≤ x < 2 ^ 32 → 0 ≤ y < 2 ^ 32 → 0 < b < 32 →
  GimliSpec.rotl32 x b = GimliSpec.rotl32 y b → x = y.
Proof.
  intros Hx Hy Hb Heq. apply word_ext; [done..|]. intros j Hj.
  destruct (decide (j < 32 - b)).
  - pose proof (rotl32_bit x b (j + b) Hx Hb ltac:(lia)) as H1.
    pose proof (rotl32_bit y b (j + b) Hy Hb ltac:(lia)) as H2.
    rewrite decide_False in H1, H2 by lia.
    replace (j + b - b) with j in H1, H2 by lia. congruence.
  - pose proof (rotl32_bit x b (j - (32 - b)) Hx Hb ltac:(lia)) as H1.
    pose proof (rotl32_bit y b (j - (32 - b)) Hy Hb ltac:(lia)) as H2.
    rewrite decide_True in H1, H2 by lia.
    replace (j - (32 - b) + 32 - b) with j in H1, H2 by lia. congruence.
Qed.

(** The three new words of a column determine the three rotated old ones:
    bit [i] of each output involves bit [i] of one input it has not used
    yet and lower bits only. *)
Lemma spbox_inj x y z x' y' z' :
  0 ≤ x < 2 ^ 32 → 0 ≤ y < 2 ^ 32 → 0 ≤ z < 2 ^ 32 →
  0 ≤ x' < 2 ^ 32 → 0 ≤ y' < 2 ^ 32 → 0 ≤ z' < 2 ^ 32 →
  Z.lxor (Z.lxor x (GimliSpec.shl z 1)) (GimliSpec.shl (Z.land y z) 2)
  = Z.lxor (Z.lxor x' (GimliSpec.shl z' 1)) (GimliSpec.shl (Z.land y' z') 2) →
  Z.lxor (Z.lxor y x) (GimliSpec.shl (Z.lor x z) 1)
  = Z.lxor (Z.lxor y' x') (GimliSpec.shl (Z.lor x' z') 1) →
  Z.lxor (Z.lxor z y) (GimliSpec.shl (Z.land x y) 3)
  = Z.lxor (Z.lxor z' y') (GimliSpec.shl (Z.land x' y') 3) →
  x = x' ∧ y = y' ∧ z = z'.
Proof.
  intros Hx Hy Hz Hx' Hy' Hz' H1 H2 H3.
  assert (∀ i, 0 ≤ i →
            ∀ j, j < i →
              Z.testbit x j = Z.testbit x' j ∧
              Z.testbit y j = Z.testbit y' j ∧
              Z.testbit z j = Z.testbit z' j) as Hbits.
  { intros i Hi. pattern i. apply natlike_ind; [| |done]; clear i Hi.
    - intros j Hj. by rewrite !Z.testbit_neg_r by lia.
    - intros i Hi IH j Hj. destruct (decide (j < i)); [by apply IH|].
      assert (j = i) as -> by lia. clear Hj.
      destruct (decide (i < 32)) as [Hlt|Hge];
        [|by rewrite !word_bit_high by (done || lia)].
      apply (f_equal (λ v, Z.testbit v i)) in H1, H2, H3.
      rewrite !Z.lxor_spec in H1, H2, H3.
      repeat rewrite shl_bit in H1 by lia.
      repeat rewrite shl_bit in H2 by lia.
      repeat rewrite shl_bit in H3 by lia.
      rewrite !Z.land_spec in H1, H3. rewrite !Z.lor_spec in H2.
      destruct (IH (i - 1) ltac:(lia)) as (Hx1 & Hy1 & Hz1).
      destruct (IH (i - 2) ltac:(lia)) as (Hx2 & Hy2 & Hz2).
      destruct (IH (i - 3) ltac:(lia)) as (Hx3 & Hy3 & Hz3).
      rewrite Hz1, Hy2, Hz2 in H1. rewrite Hx1, Hz1 in H2.
      rewrite Hx3, Hy3 in H3.
      assert (Z.testbit x i = Z.testbit x' i) as Hxi.
      { revert H1. generalize (Z.testbit z' (i - 1)).
        generalize (Z.testbit y' (i - 2) && Z.testbit z' (i - 2)).
        by destruct (Z.testbit x i), (Z.testbit x' i); intros [] []. }
      rewrite Hxi in H2.
      assert (Z.testbit y i = Z.testbit y' i) as Hyi.
      { revert H2. generalize (Z.testbit x' (i - 1) || Z.testbit z' (i - 1)).
        by destruct (Z.testbit y i), (Z.testbit y' i), (Z.testbit x' i);
          intros []. }
      rewrite Hyi in H3.
      assert (Z.testbit z i = Z.testbit z' i) as Hzi.
      { revert H3. generalize (Z.testbit x' (i - 3) && Z.testbit y' (i - 3)).
        by destruct (Z.testbit z i), (Z.testbit z' i), (Z.testbit y' i);
          intros []. }
      done. }
  repeat split; apply word_ext; try done; intros i Hi;
    by apply (Hbits (i + 1) ltac:(lia) i ltac:(lia)).
Qed.

Lemma word_state_lookup s (i : nat) :
  word_state s → (i < 12)%nat →
  s !! i = Some (s !!! i) ∧ 0 ≤ s !!! i < 2 ^ 32.
Proof.
  intros Hs Hi. destruct (word_state_word s i Hs Hi) as [Hrd Hr].
  by rewrite rd_lookup in Hrd.
Qed.

(** Two states of 12 words with the same words are the same. *)
Lemma word_state_ext s t :
  word_state s → word_state t →
  (∀ i, (i < 12)%nat → s !!! i = t !!! i) → s = t.
Proof.
  intros Hs Ht Hwords.
  apply (list_eq_same_length _ _ 12); [apply Ht|apply Hs|].
  intros i x y Hi Hx Hy.
  destruct (word_state_lookup s i Hs Hi) as [Hsx _].
  destruct (word_state_lookup t i Ht Hi) as [Hty _].
  specialize (Hwords i Hi). congruence.
Qed.

(** The rewriting of a column loses nothing. *)
Lemma column_inj s t (c : nat) :
  word_state s → word_state t → (c < 4)%nat →
  GimliSpec.column s c = GimliSpec.column t c → s = t.
Proof.
  intros Hs Ht Hc Heq.
  pose proof Hs as [Hls _]. pose proof Ht as [Hlt _].
  destruct (word_state_lookup s c Hs) as [_ Hs0]; [lia|].
  destruct (word_state_lookup s (c + 4) Hs) as [_ Hs1]; [lia|].
  destruct (word_state_lookup s (c + 8) Hs) as [_ Hs2]; [lia|].
  destruct (word_state_lookup t c Ht) as [_ Ht0]; [lia|].
  destruct (word_state_lookup t (c + 4) Ht) as [_ Ht1]; [lia|].
  destruct (word_state_lookup t (c + 8) Ht) as [_ Ht2]; [lia|].
  pose proof (f_equal (λ l, l !!! c) Heq) as E0.
  pose proof (f_equal (λ l, l !!! (c + 4)%nat) Heq) as E1.
  pose proof (f_equal (λ l, l !!! (c + 8)%nat) Heq) as E2.
  unfold GimliSpec.column in E0, E1, E2. cbv beta zeta in E0, E1, E2.
  rewrite !list_lookup_total_insert_eq in E0
    by (rewrite ?length_insert; lia).
  rewrite !(list_lookup_total_insert_ne _ c (c + 4)),
    !list_lookup_total_insert_eq in E1 by (rewrite ?length_insert; lia).
  rewrite !(list_lookup_total_insert_ne _ c (c + 8)),
    !(list_lookup_total_insert_ne _ (c + 4) (c + 8)),
    !list_lookup_total_insert_eq in E2 by (rewrite ?length_insert; lia).
  destruct (spbox_inj _ _ _ _ _ _
              (rotl32_range _ 24 Hs0 ltac:(lia))
              (rotl32_range _ 9 Hs1 ltac:(lia)) Hs2
              (rotl32_range _ 24 Ht0 ltac:(lia))
              (rotl32_range _ 9 Ht1 ltac:(lia)) Ht2 E2 E1 E0)
    as (Hx & Hy & Hz).
  apply rotl32_inj in Hx; [|done..|lia].
  apply rotl32_inj in Hy; [|done..|lia].
  apply word_state_ext; [done..|]. intros i Hi.
  destruct (decide (i = c)) as [->|H0]; [done|].
  destruct (decide (i = (c + 4)%nat)) as [->|H1]; [done|].
  destruct (decide (i = (c + 8)%nat)) as [->|H2]; [done|].
  pose proof (f_equal (λ l, l !!! i) Heq) as Ei.
  unfold GimliSpec.column in Ei. cbv beta zeta in Ei.
  by rewrite !list_lookup_total_insert_ne in Ei by done.
Qed.

(** Swapping two words twice changes nothing. *)
Lemma swap_swap (i j : nat) s :
  (i < length s)%nat → (j < length s)%nat → i ≠ j →
  GimliSpec.swap i j (GimliSpec.swap i j s) = s.
Proof.
  intros Hi Hj Hij. unfold GimliSpec.swap.
  rewrite list_lookup_total_insert_eq by (rewrite length_insert; lia).
  rewrite list_lookup_total_insert_ne, list_lookup_total_insert_eq by done.
  rewrite (list_insert_insert_ne _ j i) by done.
  rewrite !list_insert_insert_eq.
  rewrite (list_insert_id _ j) by (by apply list_lookup_lookup_total_lt).
  apply list_insert_id. by apply list_lookup_lookup_total_lt.
Qed.

Lemma length_swap i j s : length (GimliSpec.swap i j s) = length s.
Proof. unfold GimliSpec.swap. by rewrite !length_insert. Qed.

Lemma swap_inj (i j : nat) s t :
  length s = 12%nat → length t = 12%nat →
  (i < 12)%nat → (j < 12)%nat → i ≠ j →
  GimliSpec.swap i j s = GimliSpec.swap i j t → s = t.
Proof.
  intros Hs Ht Hi Hj Hij Heq.
  rewrite <- (swap_swap i j s), <- (swap_swap i j t) by lia.
  by rewrite Heq.
Qed.

Lemma inject_inj (c : Z) s t :
  length s = 12%nat → length t = 12%nat →
  <[0%nat := Z.lxor (s !!! 0%nat) c]> s = <[0%nat := Z.lxor (t !!! 0%nat) c]> t →
  s = t.
Proof.
  intros Hs Ht Heq.
  assert (∀ u : list Z, length u = 12%nat →
            <[0%nat := Z.lxor ((<[0%nat := Z.lxor (u !!! 0%nat) c]> u) !!! 0%nat) c]>
              (<[0%nat := Z.lxor (u !!! 0%nat) c]> u) = u) as Hback.
  { intros u Hu. rewrite list_lookup_total_insert_eq by lia.
    rewrite list_insert_insert_eq, lxor_involutive.
    apply list_insert_id, list_lookup_lookup_total_lt. lia. }
  rewrite <- (Hback s Hs), <- (Hback t Ht). by rewrite Heq.
Qed.

Lemma columns_word_state s :
  word_state s → word_state (foldl GimliSpec.column s [0; 1; 2; 3]%nat).
Proof.
  intros Hs. simpl.
  repeat (apply column_spec; [|lia]). done.
Qed.

Lemma columns_inj s t :
  word_state s → word_state t →
  foldl GimliSpec.column s [0; 1; 2; 3]%nat
  = foldl GimliSpec.column t [0; 1; 2; 3]%nat → s = t.
Proof.
  intros Hs Ht. simpl. intros Heq.
  pose proof (proj2 (column_spec s 0 Hs ltac:(lia))) as Hs0.
  pose proof (proj2 (column_spec t 0 Ht ltac:(lia))) as Ht0.
  pose proof (proj2 (column_spec _ 1 Hs0 ltac:(lia))) as Hs1.
  pose proof (proj2 (column_spec _ 1 Ht0 ltac:(lia))) as Ht1.
  pose proof (proj2 (column_spec _ 2 Hs1 ltac:(lia))) as Hs2.
  pose proof (proj2 (column_spec _ 2 Ht1 ltac:(lia))) as Ht2.
  apply column_inj in Heq; [|done|done|lia].
  apply column_inj in Heq; [|done|done|lia].
  apply column_inj in Heq; [|done|done|lia].
  by apply column_inj in Heq; [|done|done|lia].
Qed.

(** One round loses nothing. *)
Lemma round_inj s t r :
  word_state s → word_state t →
  GimliSpec.round s r = GimliSpec.round t r → s = t.
Proof.
  intros Hs Ht. unfold GimliSpec.round. cbv zeta.
  pose proof (columns_word_state s Hs) as [Hls _].
  pose proof (columns_word_state t Ht) as [Hlt _].
  set (s1 := foldl GimliSpec.column s [0; 1; 2; 3]%nat) in *.
  set (t1 := foldl GimliSpec.column t [0; 1; 2; 3]%nat) in *.
  intros Heq. apply columns_inj; [done..|]. fold s1 t1. revert Heq.
  destruct (decide (r `mod` 4 = 0)) as [H0|H0],
    (decide (r `mod` 4 = 2)) as [H2|H2]; [lia|..]; intros Heq.
  - apply inject_inj in Heq; [|by rewrite !length_swap..].
    apply swap_inj in Heq; [|by rewrite ?length_swap|by rewrite ?length_swap
                            |lia..].
    by apply swap_inj in Heq; [|done|done|lia..].
  - apply swap_inj in Heq; [|by rewrite ?length_swap|by rewrite ?length_swap
                            |lia..].
    by apply swap_inj in Heq; [|done|done|lia..].
  - done.
Qed.

Lemma gimli_inj s t :
  word_state s → word_state t → GimliSpec.gimli s = GimliSpec.gimli t → s = t.
Proof.
  intros Hs Ht. unfold GimliSpec.gimli. simpl. intros Heq.
  pose proof (proj2 (round_spec s 4 Hs ltac:(lia))) as Hs4.
  pose proof (proj2 (round_spec t 4 Ht ltac:(lia))) as Ht4.
  pose proof (proj2 (round_spec _ 3 Hs4 ltac:(lia))) as Hs3.
  pose proof (proj2 (round_spec _ 3 Ht4 ltac:(lia))) as Ht3.
  pose proof (proj2 (round_spec _ 2 Hs3 ltac:(lia))) as Hs2.
  pose proof (proj2 (round_spec _ 2 Ht3 ltac:(lia))) as Ht2.
  apply round_inj in Heq; [|done..].
  apply round_inj in Heq; [|done..].
  apply round_inj in Heq; [|done..].
  by apply round_inj in Heq.
Qed.

(** [gimli_permutation] is one to one: two different states of 12 words
    of 32 bits never end in the same state. *)
Theorem gimli_permutation_injective state1 state2 :
  word_state state1 → word_state state2 → state1 ≠ state2 →
  HigherOrder.gimli_permutation state1 ≠ HigherOrder.gimli_permutation state2.
Proof.
  intros H1 H2 Hne Heq. apply Hne.
  destruct (gimli_permutation_spec state1 H1) as [E1 _].
  destruct (gimli_permutation_spec state2 H2) as [E2 _].
  rewrite E1, E2 in Heq. injection Heq as Heq. by apply gimli_inj.
Qed.

Lemma gimli_permutation_injective_witness :
  HigherOrder.gimli_permutation [1; 0; 0; 0; 0; 0; 0; 0; 0; 0; 0; 0]
  ≠ HigherOrder.gimli_permutation [0; 0; 0; 0; 0; 0; 0; 0; 0; 0; 0; 1].
Proof.
  apply gimli_permutation_injective.
  - split; [reflexivity|]. repeat constructor; lia.
  - split; [reflexivity|]. repeat constructor; lia.
  - discriminate.
Defined.

(** ** The two programs as a whole *)

Lemma iter_commute {I S} (body : I → S → option S) (g : S → S)
    (l : list I) (s : S) :
  (∀ i s, body i (g s) = g <$> body i s) →
  iter body l (g s) = g <$> iter body l s.
Proof.
  intros Hbody. revert s. induction l as [|i l IH]; intros s; simpl; [done|].
  rewrite Hbody. destruct (body i s) as [s1|]; simpl; [apply IH | done].
Qed.

(** The check only appends to the output: what it counts and what it
    prints do not depend on what was printed before. *)
Lemma verify_after_output bct bdt out x :
  Bdt.verify bct bdt (out ++ x) = after_output out <$> Bdt.verify bct bdt x.
Proof.
  unfold Bdt.verify, for_up.
  change (Bdt.CheckState 1 0 (out ++ x))
    with (after_output out (Bdt.CheckState 1 0 x)).
  apply iter_commute. intros d0 st. apply iter_commute. intros nabla0 st'.
  destruct (Bdt.sum_d1 bdt d0 nabla0) as [sum|]; [|done]. simpl.
  destruct (rd2 bct d0 nabla0) as [c|]; [|done]. simpl.
  case_decide; simpl; unfold after_output, printf; simpl;
    by rewrite app_assoc.
Qed.

Lemma Bdt_verify_run :
  ∃ st,
    Bdt.verify
      (table2 8 (λ a b, solution_count 8 Bdt.SBOX Bdt.INV_SBOX a b a))
      (table3 8 (λ d0 d1 nabla0,
                   solution_count 8 Bdt.SBOX Bdt.INV_SBOX d0 nabla0 d1)) []
    = Some st ∧
    Bdt.valid_count st = 15 ∧ Bdt.all_ok st = 0 ∧
    length (Bdt.check_out st) = 64%nat.
Proof. eexists. split; [by vm_compute|]. by vm_compute. Qed.

(** [main] strings together the two table functions, the two printing
    functions and the check. *)
Lemma Bdt_main_chain bct0 bdt0 out bct bdt p1 p2 st :
  Bdt.compute_bct Bdt.SBOX Bdt.INV_SBOX bct0 = Some bct →
  Bdt.compute_bdt Bdt.SBOX Bdt.INV_SBOX bdt0 = Some bdt →
  (∀ out, Bdt.print_bct bct out = Some (out ++ p1)) →
  (∀ out, Bdt.print_bdt bdt out = Some (out ++ p2)) →
  Bdt.verify bct bdt [] = Some st →
  Bdt.main bct0 bdt0 out
  = Some (0, out ++ p1 ++ p2
             ++ [Printf "\n==============================\n" [];
                 Printf "Verification: BCT(Δ0,∇0) = ΣΔ1 BDT(Δ0,Δ1,∇0)\n" [];
                 Printf "==============================\n" []]
             ++ Bdt.check_out st
             ++ [Printf "\nTotal valid entries: %d / 64\n"
                   [Bdt.valid_count st];
                 if decide (Bdt.all_ok st ≠ 0)
                 then Printf "\n All entries verified successfully!\n" []
                 else Printf "\nMismatch found but\n%d valid Entries Found.\n"
                        [Bdt.valid_count st]]).
Proof.
  intros Hbct Hbdt Hp1 Hp2 Hv. unfold Bdt.main.
  rewrite Hbct. cbn [mbind option_bind]. rewrite Hbdt.
  cbn [mbind option_bind].
  rewrite Hp1. cbn [mbind option_bind]. rewrite Hp2. cbn [mbind option_bind].
  set (Y := printf _ [] (printf _ [] (printf _ [] ((out ++ p1) ++ p2)))).
  rewrite <- (app_nil_r Y), verify_after_output, Hv.
  cbn [fmap option_fmap option_map mbind option_bind after_output
         Bdt.check_out Bdt.all_ok Bdt.valid_count].
  unfold Y, printf. case_decide; by rewrite <- !app_assoc.
Qed.

(** [main] of [bdt.c] never reads a cell of its local arrays before writing
    it: whatever the arrays hold at first, it returns 0 and appends the same
    893 [printf] calls to the output. *)
Theorem Bdt_main_ignores_uninitialised :
  ∃ printed, length printed = 893%nat ∧
    ∀ bct0 bdt0 out, shape2 8 bct0 → shape3 8 bdt0 →
      Bdt.main bct0 bdt0 out = Some (0, out ++ printed).
Proof.
  destruct (print_bct_run
              (table2 8 (λ a b, solution_count 8 Bdt.SBOX Bdt.INV_SBOX a b a)))
    as (p1 & Hp1 & Hl1 & _); [apply shape2_table2|].
  destruct (print_bdt_run
              (table3 8 (λ d0 d1 nabla0,
                 solution_count 8 Bdt.SBOX Bdt.INV_SBOX d0 nabla0 d1)))
    as (p2 & Hp2 & Hl2 & _); [apply shape3_table3|].
  destruct Bdt_verify_run as (st & Hv & Hvc & Hok & Hlines).
  eexists. split; [|intros bct0 bdt0 out Hs2 Hs3].
  2: { eapply Bdt_main_chain;
         [by apply Bdt_compute_bct_table; [apply Bdt_well_formed|]
         |by apply Bdt_compute_bdt_table; [apply Bdt_well_formed|]
         |done..]. }
  rewrite !length_app, Hl1, Hl2, Hlines. reflexivity.
Qed.

(** [main] of [bct_present.c] likewise: whatever its local array holds at
    first, it returns 0 and appends the same 306 [printf] calls. *)
Theorem BctPresent_main_ignores_uninitialised :
  ∃ printed, length printed = 306%nat ∧
    ∀ bct0 out, shape2 16 bct0 →
      BctPresent.main bct0 out = Some (0, out ++ printed).
Proof.
  destruct (BctPresent_compute_bct_table _ _ BctPresent_well_formed)
    as (printed & Hlen & Hrun).
  exists printed. split; [done|]. intros bct0 out Hs.
  unfold BctPresent.main. by rewrite Hrun.
Qed.

Lemma Bdt_main_ignores_uninitialised_witness :
  ∃ printed, length printed = 893%nat ∧
    Bdt.main (replicate 8 (replicate 8 5))
      (replicate 8 (replicate 8 (replicate 8 6))) [] = Some (0, [] ++ printed).
Proof.
  destruct Bdt_main_ignores_uninitialised as (printed & Hlen & Hrun).
  exists printed. split; [exact Hlen|]. apply Hrun.
  - split; [reflexivity|]. repeat constructor.
  - split; [reflexivity|]. repeat constructor.
Defined.

Lemma BctPresent_main_ignores_uninitialised_witness :
  ∃ printed, length printed = 306%nat ∧
    BctPresent.main (replicate 16 (replicate 16 5)) []
    = Some (0, [] ++ printed).
Proof.
  destruct BctPresent_main_ignores_uninitialised as (printed & Hlen & Hrun).
  exists printed. split; [exact Hlen|]. apply Hrun.
  split; [reflexivity|]. repeat constructor.
Defined.

(** ** [print_state_hex] and [main] of [higher_order.c] *)

Lemma print_state_hex_prefix_stable PRIX32 state :
  prefix_stable (HigherOrderMain.print_state_hex PRIX32 state).
Proof.
  unfold HigherOrderMain.print_state_hex, for_up.
  apply (prefix_stable_bind (iter _ _) (λ out, Some (printf _ [] out)));
    [|apply prefix_stable_printf].
  apply prefix_stable_iter. intros i.
  apply (prefix_stable_read (rd state i) (λ v out, Some (printf _ [v] out))).
  intros v. apply prefix_stable_printf.
Qed.

(** [print_state_hex] prints the 12 words of the state in order, then a
    newline, after what was printed before; on an array of fewer than 12
    words it reads out of bounds. *)
Theorem print_state_hex_prints_words PRIX32 state out :
  (length state = 12%nat →
   HigherOrderMain.print_state_hex PRIX32 state out
   = Some (out ++ ((λ v, Printf ("%08" +:+ PRIX32 +:+ " ") [v]) <$> state)
               ++ [Printf "\n" []])) ∧
  ((length state < 12)%nat →
   HigherOrderMain.print_state_hex PRIX32 state out = None).
Proof.
  split.
  - intros Hlen. rewrite <- (app_nil_r out) at 1.
    rewrite print_state_hex_prefix_stable.
    do 12 (destruct state as [|? state]; [done|]).
    destruct state; [reflexivity|done].
  - intros Hlen. rewrite <- (app_nil_r out) at 1.
    rewrite print_state_hex_prefix_stable.
    do 12 (destruct state as [|? state]; [done|]).
    simpl in Hlen. lia.
Qed.

Lemma print_state_hex_prints_words_witness :
  (HigherOrderMain.print_state_hex "X" [1; 2; 3; 4; 5; 6; 7; 8; 9; 10; 11; 12]
     []
   = Some ([] ++ ((λ v, Printf ("%08" +:+ "X" +:+ " ") [v])
                    <$> [1; 2; 3; 4; 5; 6; 7; 8; 9; 10; 11; 12])
              ++ [Printf "\n" []])) ∧
  HigherOrderMain.print_state_hex "X" [1; 2; 3] [] = None.
Proof.
  split.
  - apply (proj1 (print_state_hex_prints_words "X" _ [])). reflexivity.
  - apply (proj2 (print_state_hex_prints_words "X" _ [])). simpl. lia.
Defined.

Lemma main_output_prefix_stable PRIX32 locals :
  prefix_stable (HigherOrderMain.main_output PRIX32 locals).
Proof.
  unfold HigherOrderMain.main_output, for_up. cbv zeta.
  apply (prefix_stable_printf_then _ []
           (λ out, HigherOrderMain.print_state_hex _ _ out ≫= _)).
  apply (prefix_stable_bind (HigherOrderMain.print_state_hex _ _)
           (λ out, iter _ _ (printf _ [] out))).
  { apply print_state_hex_prefix_stable. }
  apply (prefix_stable_printf_then _ [] (iter _ _)).
  apply prefix_stable_iter. intros w.
  apply (prefix_stable_printf_then _ [w] (iter _ _)).
  apply prefix_stable_iter. intros order.
  apply (prefix_stable_read
           (HigherOrder.compute_derivative _ w order _ _)
           (λ d out, Some (printf _ [order; d] out))).
  intros d. apply prefix_stable_printf.
Qed.

(** What the local arrays of [compute_derivative] hold at first does not
    reach the output of [main]. *)
Lemma main_output_locals PRIX32 locals locals' out :
  HigherOrderMain.locals_sized locals → HigherOrderMain.locals_sized locals' →
  HigherOrderMain.main_output PRIX32 locals out
  = HigherOrderMain.main_output PRIX32 locals' out.
Proof.
  intros Hl Hl'. unfold HigherOrderMain.main_output, for_up. cbv zeta.
  destruct (HigherOrderMain.print_state_hex _ _ _) as [out1|]; [|done].
  cbn [mbind option_bind].
  apply iter_ext. intros w out2 Hw. apply elem_of_seqZ in Hw.
  apply iter_ext. intros order out3 Ho. apply elem_of_seqZ in Ho.
  destruct (Hl w order) as [Hb Ht]. destruct (Hl' w order) as [Hb' Ht'].
  assert (word_state [1; 0; 0; 0; 0; 0; 0; 0; 0; 0; 0; 0]) as Hs
    by (split; [done|repeat constructor; lia]).
  by rewrite !(compute_derivative_coset _ w Hs) by (done || lia).
Qed.

(** [main] of [higher_order.c] runs to the end and returns 0; it appends 75
    [printf] calls to the output, the same whatever the local arrays of the
    48 calls of [compute_derivative] hold at first. *)
Theorem HigherOrder_main_ignores_uninitialised PRIX32 :
  ∃ printed, length printed = 75%nat ∧
    ∀ locals out, HigherOrderMain.locals_sized locals →
      HigherOrderMain.main PRIX32 locals out = Some (0, out ++ printed).
Proof.
  pose (zeros := λ _ _ : Z, (replicate 32 0, replicate 12 0)).
  assert (HigherOrderMain.locals_sized zeros) as Hz by done.
  assert (∃ printed,
            HigherOrderMain.main_output PRIX32 zeros [] = Some printed ∧
            length printed = 75%nat) as (printed & Hrun & Hlen).
  { eexists. split; [by vm_compute|]. by vm_compute. }
  exists printed. split; [done|]. intros locals out Hl.
  unfold HigherOrderMain.main.
  rewrite (main_output_locals PRIX32 locals zeros) by done.
  rewrite <- (app_nil_r out) at 1.
  by rewrite main_output_prefix_stable, Hrun.
Qed.

Lemma HigherOrder_main_ignores_uninitialised_witness :
  ∃ printed, length printed = 75%nat ∧
    HigherOrderMain.main "X" (λ _ _, (replicate 32 7, replicate 12 9)) []
    = Some (0, [] ++ printed).
Proof.
  destruct (HigherOrder_main_ignores_uninitialised "X")
    as (printed & Hlen & Hrun).
  exists printed. split; [exact Hlen|]. apply Hrun.
  intros w order. split; reflexivity.
Defined.

(** ** When the check of [main] can pass *)

Lemma filter_ext_in {A} (P Q : A → Prop) `{∀ x, Decision (P x)}
    `{∀ x, Decision (Q x)} (l : list A) :
  (∀ x, x ∈ l → P x ↔ Q x) → filter P l = filter Q l.
Proof.
  induction l as [|x l IH]; intros Hext; [done|].
  rewrite !filter_cons.
  rewrite IH by (intros y Hy; by apply Hext, list_elem_of_further).
  pose proof (Hext x (list_elem_of_here _ _)).
  repeat case_decide; (done || tauto).
Qed.

Lemma filter_full {A} (P : A → Prop) `{∀ x, Decision (P x)} (l : list A) :
  length (filter P l) = length l ↔ ∀ x, x ∈ l → P x.
Proof.
  split.
  - intros Hlen x Hx. destruct (decide (P x)) as [|Hn]; [done|].
    pose proof (length_filter_lt P l x Hx Hn). lia.
  - intros Hall. by rewrite filter_all.
Qed.

(** With a well-formed S-box whose inverse array has its entries in
    [[0, 8)], the check of [main] on the tables of [compute_bct] and
    [compute_bdt] counts as valid exactly the pairs where [bct] is 8, and
    leaves [all_ok] at 1 only if every entry of [bct] is 8. *)
Theorem check_passes_only_on_flat_bct sbox inv_sbox bct0 bdt0 out :
  well_formed 8 sbox inv_sbox → Forall (λ v, 0 ≤ v < 8) inv_sbox →
  shape2 8 bct0 → shape3 8 bdt0 →
  ∃ bct bdt st,
    Bdt.compute_bct sbox inv_sbox bct0 = Some bct ∧
    Bdt.compute_bdt sbox inv_sbox bdt0 = Some bdt ∧
    Bdt.verify bct bdt out = Some st ∧
    Bdt.valid_count st
    = Z.of_nat (length (filter (λ p, cell2 bct p.1 p.2 = 8) pairs8)) ∧
    (Bdt.all_ok st = 1 ↔
     ∀ a b, 0 ≤ a < 8 → 0 ≤ b < 8 → rd2 bct a b = Some 8).
Proof.
  intros Hwf Hinv Hs2 Hs3.
  destruct (sum_d1_computed sbox inv_sbox bdt0 Hwf Hs3) as (bdt & Hbdt & Hsum).
  pose proof (Bdt_compute_bct_table _ _ bct0 Hwf Hs2) as Hbct.
  set (bct := table2 8 (λ a b, solution_count 8 sbox inv_sbox a b a)) in *.
  assert (shape2 8 bct) as Hsb by apply shape2_table2.
  assert (shape3 8 bdt) as Hsd.
  { rewrite (Bdt_compute_bdt_table _ _ bdt0 Hwf Hs3) in Hbdt.
    injection Hbdt as <-. apply shape3_table3. }
  assert (cells_in (- 2 ^ 28) (2 ^ 28) bdt) as Hcells.
  { rewrite (Bdt_compute_bdt_table _ _ bdt0 Hwf Hs3) in Hbdt.
    injection Hbdt as <-. apply cells_in_table3. intros d0 d1 nabla0.
    pose proof (solution_count_range 8 sbox inv_sbox d0 nabla0 d1). lia. }
  destruct (verify_spec bct bdt out Hsb Hsd Hcells)
    as (st & lines & Hv & Hvc & _ & _ & Hall & _).
  assert (matching_pairs bct bdt
          = filter (λ p, cell2 bct p.1 p.2 = 8) pairs8) as Hmatch.
  { unfold matching_pairs. apply filter_ext_in. intros [d0 nabla0] Hp.
    apply elem_of_pairs8 in Hp as [H0 Hn]. cbn [fst snd].
    destruct (Hsum d0 nabla0 H0 Hn) as [_ H8]. specialize (H8 Hinv).
    rewrite sum_d1_spec in H8
      by (done || intros d1 Hd1; by apply cell3_cells_in).
    injection H8 as ->.
    split; intros; congruence. }
  exists bct, bdt, st. split; [done|]. split; [done|]. split; [done|].
  rewrite Hmatch in Hvc. split; [done|].
  rewrite Hall, Hvc.
  assert (length pairs8 = 64%nat) as Hlen by done.
  replace 64 with (Z.of_nat (length pairs8)) by (rewrite Hlen; done).
  rewrite Nat2Z.inj_iff, filter_full. split.
  - intros Hflat a b Ha Hb. rewrite (rd2_cell2 8) by done. f_equal.
    apply (Hflat (a, b)). by apply elem_of_pairs8.
  - intros Hflat [a b] Hp. apply elem_of_pairs8 in Hp as [Ha Hb].
    cbn [fst snd]. unfold cell2. by rewrite Hflat.
Qed.

Lemma check_passes_only_on_flat_bct_witness :
  ∃ bct bdt st,
    Bdt.compute_bct Bdt.SBOX Bdt.INV_SBOX (replicate 8 (replicate 8 0))
    = Some bct ∧
    Bdt.compute_bdt Bdt.SBOX Bdt.INV_SBOX
      (replicate 8 (replicate 8 (replicate 8 0))) = Some bdt ∧
    Bdt.verify bct bdt [] = Some st ∧
    Bdt.valid_count st
    = Z.of_nat (length (filter (λ p, cell2 bct p.1 p.2 = 8) pairs8)) ∧
    (Bdt.all_ok st = 1 ↔
     ∀ a b, 0 ≤ a < 8 → 0 ≤ b < 8 → rd2 bct a b = Some 8).
Proof.
  apply check_passes_only_on_flat_bct.
  - split; [reflexivity|]. split; [reflexivity|]. repeat constructor; lia.
  - repeat constructor; lia.
  - split; [reflexivity|]. repeat constructor.
  - split; [reflexivity|]. repeat constructor.
Defined.

(** ** The derivative of order 0 *)

(** With [order = 0] the loop on [subset] runs once, on [base] itself:
    [compute_derivative] returns word [word_index] of
    [gimli_permutation(base)]. *)
Theorem compute_derivative_order_zero base word_index basis0 temp0 :
  word_state base → 0 ≤ word_index < 12 →
  length basis0 = 32%nat → length temp0 = 12%nat →
  ∃ state',
    HigherOrder.gimli_permutation base = Some state' ∧
    HigherOrder.compute_derivative base word_index 0 basis0 temp0
    = rd state' word_index.
Proof.
  intros Hbase Hw Hb Ht. exists (GimliSpec.gimli base).
  destruct (gimli_permutation_spec base Hbase) as [Hrun [Hlen _]].
  split; [done|].
  rewrite compute_derivative_coset by (done || lia).
  rewrite rd_sel by lia. f_equal.
  change (seqZ 0 (2 ^ 0)) with [0].
  cbn [fmap list_fmap DerivativeSpec.xor_all foldr].
  rewrite !Z.lxor_0_r. f_equal. f_equal.
  apply list_insert_id, list_lookup_lookup_total_lt.
  destruct Hbase as [-> _]. lia.
Qed.

Lemma compute_derivative_order_zero_witness :
  ∃ state',
    HigherOrder.gimli_permutation [1; 0; 0; 0; 0; 0; 0; 0; 0; 0; 0; 0]
    = Some state' ∧
    HigherOrder.compute_derivative [1; 0; 0; 0; 0; 0; 0; 0; 0; 0; 0; 0] 7 0
      (replicate 32 0) (replicate 12 0) = rd state' 7.
Proof.
  apply compute_derivative_order_zero.
  - split; [reflexivity|]. repeat constructor; lia.
  - lia.
  - reflexivity.
  - reflexivity.
Defined.
